(** * Bulk keyword pipeline and export formatters: a shallow embedding

    The development follows [App.tsx] (queue orchestration, placeholder
    substitution, package and WXR export), [services/geminiService.ts]
    (the image retry wrapper) and [services/storageService.ts].

    JavaScript strings are sequences of UTF-16 code units; they are modelled
    as [list N].  Regular expressions are run by a small backtracking matcher
    with the priorities of the ECMAScript semantics (alternatives left to
    right, greedy and lazy star, capture groups). *)

From Stdlib Require Import ZArith NArith List String Ascii Bool Lia DecimalString Sorted.
From stdpp Require Import base tactics option list gmap.

Local Open Scope N_scope.

(** ** Strings *)

Abbreviation jsstring := (list N).

(** An ASCII literal as a sequence of code units. *)
Definition js (s : string) : jsstring :=
  map N_of_ascii (list_ascii_of_string s).
Arguments js s%_string : simpl never.

Definition NL : jsstring := [10].
Definition TAB : jsstring := [9].
Definition DQ : jsstring := [34].

(** [Number.prototype.toString] on a non-negative integer. *)
Definition numberToString (n : N) : jsstring :=
  js (NilZero.string_of_uint (N.to_uint n)).

(** [Number.prototype.toString] on an integer. *)
Definition intToString (z : Z) : jsstring :=
  match z with
  | Zneg p => js "-" ++ numberToString (Npos p)
  | _ => numberToString (Z.to_N z)
  end.

(** WhiteSpace and LineTerminator code units: the set stripped by [trim] and
    matched by the class escape [\s]. *)
Definition isLineTerminator (c : N) : bool :=
  (c =? 10) || (c =? 13) || (c =? 0x2028) || (c =? 0x2029).

Definition isWhiteSpace (c : N) : bool :=
  (c =? 9) || (c =? 10) || (c =? 11) || (c =? 12) || (c =? 13) || (c =? 32)
  || (c =? 0xA0) || (c =? 0x1680) || ((0x2000 <=? c) && (c <=? 0x200A))
  || (c =? 0x2028) || (c =? 0x2029) || (c =? 0x202F) || (c =? 0x205F)
  || (c =? 0x3000) || (c =? 0xFEFF).

Fixpoint trimStart (s : jsstring) : jsstring :=
  match s with
  | c :: s' => if isWhiteSpace c then trimStart s' else s
  | [] => []
  end.

Definition trimEnd (s : jsstring) : jsstring :=
  reverse (trimStart (reverse s)).

(** [String.prototype.trim] *)
Definition trim (s : jsstring) : jsstring := trimEnd (trimStart s).

Fixpoint isPrefix (p s : jsstring) : bool :=
  match p, s with
  | [], _ => true
  | a :: p', b :: s' => (a =? b) && isPrefix p' s'
  | _ :: _, [] => false
  end.

(** [String.prototype.indexOf]: offset of the leftmost occurrence. *)
Fixpoint indexOf (pat s : jsstring) : option nat :=
  if isPrefix pat s then Some 0%nat
  else match s with
       | [] => None
       | _ :: s' => S <$> indexOf pat s'
       end.

(** [String.prototype.includes] *)
Definition includes (s pat : jsstring) : bool :=
  match indexOf pat s with Some _ => true | None => false end.

(** [String.prototype.startsWith] *)
Definition startsWith (s pat : jsstring) : bool := isPrefix pat s.

(** [String.prototype.split] with a non-empty string separator: cut at the
    leftmost occurrence and go on behind it.  [fuel] bounds the number of
    cuts; [length s] always suffices. *)
Fixpoint split_fuel (fuel : nat) (sep s : jsstring) : list jsstring :=
  match fuel with
  | O => [s]
  | S fuel' =>
      match indexOf sep s with
      | None => [s]
      | Some i => take i s :: split_fuel fuel' sep (drop (i + length sep) s)
      end
  end.

Definition split (s sep : jsstring) : list jsstring :=
  split_fuel (length s) sep s.

(** [Array.prototype.join] *)
Fixpoint join (pieces : list jsstring) (sep : jsstring) : jsstring :=
  match pieces with
  | [] => []
  | [p] => p
  | p :: ps => p ++ sep ++ join ps sep
  end.

(** The replacement-pattern expansion of [String.prototype.replace]
    (GetSubstitution) for a string pattern, which has no capture groups:
    [$$] is a dollar sign, [$&] the matched text, [$`] the text before the
    match, [$'] the text after it; every other character, a dollar sign
    before a digit included, stands for itself. *)
Fixpoint getSubstitution (matched before after repl : jsstring) : jsstring :=
  match repl with
  | [] => []
  | c :: r =>
      if c =? 36 then
        match r with
        | d :: r' =>
            if d =? 36 then 36 :: getSubstitution matched before after r'
            else if d =? 38 then matched ++ getSubstitution matched before after r'
            else if d =? 96 then before ++ getSubstitution matched before after r'
            else if d =? 39 then after ++ getSubstitution matched before after r'
            else c :: getSubstitution matched before after r
        | [] => [c]
        end
      else c :: getSubstitution matched before after r
  end.

(** [str.replace(pat, repl)] with a string pattern: the leftmost occurrence
    only. *)
Definition replace (s pat repl : jsstring) : jsstring :=
  match indexOf pat s with
  | None => s
  | Some i =>
      let before := take i s in
      let after := drop (i + length pat) s in
      before ++ getSubstitution pat before after repl ++ after
  end.

(** ** Regular expressions *)

Inductive regex : Type :=
| RChar (p : N -> bool)
| REps
| RSeq (r1 r2 : regex)
| RAlt (r1 r2 : regex)
| RStarGreedy (p : N -> bool)
| RStarLazy (p : N -> bool)
| RGroup (i : nat) (r : regex).

Abbreviation captures := (list (option jsstring)).

(** [p*] followed by [k]: as many code units as possible first. *)
Fixpoint starGreedy {R : Type} (p : N -> bool) (k : jsstring -> option R)
    (t : jsstring) : option R :=
  match t with
  | c :: t' =>
      if p c then
        match starGreedy p k t' with
        | Some x => Some x
        | None => k t
        end
      else k t
  | [] => k t
  end.

(** [p*?] followed by [k]: as few code units as possible first. *)
Fixpoint starLazy {R : Type} (p : N -> bool) (k : jsstring -> option R)
    (t : jsstring) : option R :=
  match k t with
  | Some x => Some x
  | None =>
      match t with
      | c :: t' => if p c then starLazy p k t' else None
      | [] => None
      end
  end.

(** Backtracking matcher in continuation-passing style: [k] is what is left
    of the pattern; the first success in priority order wins. *)
Fixpoint rmatch {R : Type} (r : regex) (s : jsstring) (caps : captures)
    (k : jsstring -> captures -> option R) : option R :=
  match r with
  | RChar p =>
      match s with
      | c :: s' => if p c then k s' caps else None
      | [] => None
      end
  | REps => k s caps
  | RSeq r1 r2 => rmatch r1 s caps (fun s' caps' => rmatch r2 s' caps' k)
  | RAlt r1 r2 =>
      match rmatch r1 s caps k with
      | Some x => Some x
      | None => rmatch r2 s caps k
      end
  | RStarGreedy p => starGreedy p (fun t => k t caps) s
  | RStarLazy p => starLazy p (fun t => k t caps) s
  | RGroup i r1 =>
      rmatch r1 s caps
        (fun s' caps' =>
           k s' (<[i := Some (take (length s - length s') s)]> caps'))
  end.

(** One match attempt anchored at the head of [s]: the matched text and the
    capture groups (group 0, the whole match, is kept apart). *)
Definition rexec (ngroups : nat) (r : regex) (s : jsstring)
    : option (jsstring * captures) :=
  rmatch r s (replicate ngroups None)
    (fun s' caps => Some (take (length s - length s') s, caps)).

Record Match := mkMatch {
  m_index : nat;           (* offset of the match in the subject *)
  m_full : jsstring;       (* m[0] *)
  m_groups : captures      (* m[1], m[2], ... *)
}.

(** [m[i+1]] as a string; an unset group reads as the empty string here. *)
Definition group (m : Match) (i : nat) : jsstring :=
  default [] (mjoin (m_groups m !! i)).

(** [str.matchAll(re)] for a global regex: scan left to right; after a match
    of length [len > 0] the scan resumes behind it ([skip] counts the code
    units still to pass over), after an empty match one unit further. *)
Fixpoint matchAll_from (ngroups : nat) (r : regex) (s : jsstring)
    (idx skip : nat) : list Match :=
  match skip with
  | S k =>
      match s with
      | [] => []
      | _ :: s' => matchAll_from ngroups r s' (S idx) k
      end
  | O =>
      match rexec ngroups r s with
      | Some (full, caps) =>
          mkMatch idx full caps ::
          match s with
          | [] => []
          | _ :: s' => matchAll_from ngroups r s' (S idx) (pred (length full))
          end
      | None =>
          match s with
          | [] => []
          | _ :: s' => matchAll_from ngroups r s' (S idx) 0%nat
          end
      end
  end.

Definition matchAll (ngroups : nat) (r : regex) (s : jsstring) : list Match :=
  matchAll_from ngroups r s 0%nat 0%nat.

(** [str.match(re)] for a regex without the global flag: the leftmost match. *)
Fixpoint matchFirst (ngroups : nat) (r : regex) (s : jsstring) (idx : nat)
    : option Match :=
  match rexec ngroups r s with
  | Some (full, caps) => Some (mkMatch idx full caps)
  | None =>
      match s with
      | [] => None
      | _ :: s' => matchFirst ngroups r s' (S idx)
      end
  end.

(** [str.replace(re, repl)] for a regex without the global flag and a
    replacement free of dollar signs. *)
Definition replaceRegexFirst (ngroups : nat) (r : regex) (s repl : jsstring)
    : jsstring :=
  match matchFirst ngroups r s 0%nat with
  | None => s
  | Some m =>
      take (m_index m) s ++ repl ++ drop (m_index m + length (m_full m)) s
  end.

(** [str.replace(re, repl)] for a global regex and a replacement free of
    dollar signs: the text between the matches, with [repl] for each match. *)
Fixpoint spliceMatches (s : jsstring) (pos : nat) (ms : list Match)
    (repl : jsstring) : jsstring :=
  match ms with
  | [] => drop pos s
  | m :: ms' =>
      take (m_index m - pos) (drop pos s) ++ repl ++
      spliceMatches s (m_index m + length (m_full m)) ms' repl
  end.

Definition replaceRegexAll (ngroups : nat) (r : regex) (s repl : jsstring)
    : jsstring :=
  spliceMatches s 0%nat (matchAll ngroups r s) repl.

(** Pattern builders. *)
Definition lit1 (c : N) : regex := RChar (N.eqb c).

Fixpoint rlit (cs : jsstring) : regex :=
  match cs with
  | [] => REps
  | [c] => lit1 c
  | c :: cs' => RSeq (lit1 c) (rlit cs')
  end.

(** Case pairs of the code units that occur in the patterns carrying the
    [i] flag.  Without the [u] flag a code unit is compared through its
    single-unit upper-case form, and a unit outside ASCII never folds into
    ASCII, so an ASCII letter matches its two ASCII forms only. *)
Definition swapCase (c : N) : N :=
  if (65 <=? c) && (c <=? 90) then c + 32
  else if (97 <=? c) && (c <=? 122) then c - 32
  else if c =? 0xC3 then 0xE3 else if c =? 0xE3 then 0xC3
  else if c =? 0xE1 then 0xC1 else if c =? 0xC1 then 0xE1
  else if c =? 0x152 then 0x153 else if c =? 0x153 then 0x152
  else c.

Definition lit1i (c : N) : regex :=
  RChar (fun x => (x =? c) || (x =? swapCase c)).

Fixpoint rliti (cs : jsstring) : regex :=
  match cs with
  | [] => REps
  | [c] => lit1i c
  | c :: cs' => RSeq (lit1i c) (rliti cs')
  end.

(** [.] without the [s] flag *)
Definition dot (c : N) : bool := negb (isLineTerminator c).
(** [[\s\S]] *)
Definition anyUnit (c : N) : bool := true.

(** ** Types ([types.ts]) *)

Inductive StepStatus := IDLE | LOADING | COMPLETE | ERROR.
Inductive OutputLanguage := vi | en.
Inductive AppStep := INPUT | IDEATION | OUTLINE | WRITING | PUBLISH.

Record HistoryItem := mkHistoryItem {
  item_id : jsstring;
  item_keyword : jsstring;
  item_content : jsstring;
  item_timestamp : Z;
  item_language : option OutputLanguage
}.

(** A thrown value, as far as the program looks at it: [error.status],
    [error.code], [error.message] and its string form in a template. *)
Record JsError := mkJsError {
  err_status : option Z;
  err_code : option Z;
  err_message : option jsstring;
  err_toString : jsstring
}.

(** One part of a [generateContent] response: its [inlineData], if any, as
    the pair of [mimeType] and [data]. *)
Abbreviation Part := (option (jsstring * jsstring)).

(** ** The component state of [App] *)

Record AppState := mkAppState {
  currentStep : AppStep;
  status : StepStatus;
  bulkInput : jsstring;
  language : OutputLanguage;
  categoryInput : jsstring;
  queue : list jsstring;
  completedCount : Z;
  totalCount : Z;
  currentKeyword : jsstring;
  statusMessage : jsstring;
  ideationResult : jsstring;
  outlineResult : jsstring;
  articleResult : jsstring;
  history : list HistoryItem;
  viewingHistoryItem : option HistoryItem
}.

(** The state of a freshly mounted component (the [useState] initial
    values). *)
Definition initialState : AppState :=
  {| currentStep := INPUT; status := IDLE; bulkInput := []; language := vi;
     categoryInput := js "Marathon"; queue := []; completedCount := 0;
     totalCount := 0; currentKeyword := []; statusMessage := [];
     ideationResult := []; outlineResult := []; articleResult := [];
     history := []; viewingHistoryItem := None |}.

Definition upd_currentStep (v : AppStep) (a : AppState) : AppState :=
  mkAppState v (status a) (bulkInput a) (language a) (categoryInput a)
    (queue a) (completedCount a) (totalCount a) (currentKeyword a)
    (statusMessage a) (ideationResult a) (outlineResult a) (articleResult a)
    (history a) (viewingHistoryItem a).
Definition upd_status (v : StepStatus) (a : AppState) : AppState :=
  mkAppState (currentStep a) v (bulkInput a) (language a) (categoryInput a)
    (queue a) (completedCount a) (totalCount a) (currentKeyword a)
    (statusMessage a) (ideationResult a) (outlineResult a) (articleResult a)
    (history a) (viewingHistoryItem a).
Definition upd_bulkInput (v : jsstring) (a : AppState) : AppState :=
  mkAppState (currentStep a) (status a) v (language a) (categoryInput a)
    (queue a) (completedCount a) (totalCount a) (currentKeyword a)
    (statusMessage a) (ideationResult a) (outlineResult a) (articleResult a)
    (history a) (viewingHistoryItem a).
Definition upd_queue (v : list jsstring) (a : AppState) : AppState :=
  mkAppState (currentStep a) (status a) (bulkInput a) (language a)
    (categoryInput a) v (completedCount a) (totalCount a) (currentKeyword a)
    (statusMessage a) (ideationResult a) (outlineResult a) (articleResult a)
    (history a) (viewingHistoryItem a).
Definition upd_completedCount (f : Z -> Z) (a : AppState) : AppState :=
  mkAppState (currentStep a) (status a) (bulkInput a) (language a)
    (categoryInput a) (queue a) (f (completedCount a)) (totalCount a)
    (currentKeyword a) (statusMessage a) (ideationResult a) (outlineResult a)
    (articleResult a) (history a) (viewingHistoryItem a).
Definition upd_totalCount (v : Z) (a : AppState) : AppState :=
  mkAppState (currentStep a) (status a) (bulkInput a) (language a)
    (categoryInput a) (queue a) (completedCount a) v (currentKeyword a)
    (statusMessage a) (ideationResult a) (outlineResult a) (articleResult a)
    (history a) (viewingHistoryItem a).
Definition upd_currentKeyword (v : jsstring) (a : AppState) : AppState :=
  mkAppState (currentStep a) (status a) (bulkInput a) (language a)
    (categoryInput a) (queue a) (completedCount a) (totalCount a) v
    (statusMessage a) (ideationResult a) (outlineResult a) (articleResult a)
    (history a) (viewingHistoryItem a).
Definition upd_statusMessage (v : jsstring) (a : AppState) : AppState :=
  mkAppState (currentStep a) (status a) (bulkInput a) (language a)
    (categoryInput a) (queue a) (completedCount a) (totalCount a)
    (currentKeyword a) v (ideationResult a) (outlineResult a)
    (articleResult a) (history a) (viewingHistoryItem a).
Definition upd_ideationResult (v : jsstring) (a : AppState) : AppState :=
  mkAppState (currentStep a) (status a) (bulkInput a) (language a)
    (categoryInput a) (queue a) (completedCount a) (totalCount a)
    (currentKeyword a) (statusMessage a) v (outlineResult a)
    (articleResult a) (history a) (viewingHistoryItem a).
Definition upd_outlineResult (v : jsstring) (a : AppState) : AppState :=
  mkAppState (currentStep a) (status a) (bulkInput a) (language a)
    (categoryInput a) (queue a) (completedCount a) (totalCount a)
    (currentKeyword a) (statusMessage a) (ideationResult a) v
    (articleResult a) (history a) (viewingHistoryItem a).
Definition upd_articleResult (v : jsstring) (a : AppState) : AppState :=
  mkAppState (currentStep a) (status a) (bulkInput a) (language a)
    (categoryInput a) (queue a) (completedCount a) (totalCount a)
    (currentKeyword a) (statusMessage a) (ideationResult a) (outlineResult a)
    v (history a) (viewingHistoryItem a).
Definition upd_history (v : list HistoryItem) (a : AppState) : AppState :=
  mkAppState (currentStep a) (status a) (bulkInput a) (language a)
    (categoryInput a) (queue a) (completedCount a) (totalCount a)
    (currentKeyword a) (statusMessage a) (ideationResult a) (outlineResult a)
    (articleResult a) v (viewingHistoryItem a).

(** ** Effects

    Every call that leaves the component (a text stage, an image request, a
    timer, the history store) is an entry of the run's log, together with
    the component state as it stands when the call is made. *)

Inductive Effect :=
| EResetSession
| EExecuteStep1 (keyword : jsstring) (lang : OutputLanguage)
| EExecuteStep2 (keyword : jsstring) (lang : OutputLanguage)
| EExecuteStep3 (lang : OutputLanguage)
| EExecuteStep4 (keyword : jsstring) (lang : OutputLanguage)
| EGenerateBlogImage (prompt : jsstring)
| EGenerateContent (finalPrompt : jsstring)
| ESetTimeout (ms : Z)
| ESaveHistoryItem (item : HistoryItem).

Inductive Completion (A : Type) :=
| Normal (a : A)
| Throw (e : JsError).
Arguments Normal {A} a.
Arguments Throw {A} e.

(** What the program calls but does not define: the four text stages (they
    answer with the generated text or throw), one request to the image model
    (it answers with the parts of the first candidate or throws), the canvas
    recompression of a data URI, the history store and the clock.  [World]
    is whatever these depend on. *)
Record Env (World : Type) := mkEnv {
  executeStep1 : jsstring -> OutputLanguage -> World -> Completion jsstring * World;
  executeStep2 : jsstring -> OutputLanguage -> World -> Completion jsstring * World;
  executeStep3 : OutputLanguage -> World -> Completion jsstring * World;
  executeStep4 : jsstring -> OutputLanguage -> World -> Completion jsstring * World;
  generateContent : jsstring -> World -> Completion (list Part) * World;
  compressBase64 : jsstring -> jsstring;
  saveHistoryItem : HistoryItem -> World -> list HistoryItem * World;
  dateNow : World -> Z
}.
Arguments executeStep1 {World}.
Arguments executeStep2 {World}.
Arguments executeStep3 {World}.
Arguments executeStep4 {World}.
Arguments generateContent {World}.
Arguments compressBase64 {World}.
Arguments saveHistoryItem {World}.
Arguments dateNow {World}.

Section Pipeline.
Context {World : Type}.
Variable env : Env World.

Record Run := mkRun {
  comp : AppState;
  world : World;
  log : list (Effect * AppState)
}.

(** State, log and exceptions. *)
Definition M (A : Type) : Type := Run -> Completion A * Run.

Definition ret {A} (a : A) : M A := fun r => (Normal a, r).

Definition bind {A B} (m : M A) (f : A -> M B) : M B :=
  fun r =>
    match m r with
    | (Normal a, r') => f a r'
    | (Throw e, r') => (Throw e, r')
    end.

Notation "x <~ m ; k" := (bind m (fun x => k))
  (at level 20, m at level 100, k at level 200, only parsing).
Notation "'exec' m ; k" := (bind m (fun _ => k))
  (at level 20, m at level 100, k at level 200, only parsing).

(** [try { m } catch (error) { h error }] *)
Definition try_catch {A} (m : M A) (h : JsError -> M A) : M A :=
  fun r =>
    match m r with
    | (Normal a, r') => (Normal a, r')
    | (Throw e, r') => h e r'
    end.

(** A call of an async function whose promise is not awaited: the callee
    runs, a rejection of its promise reaches nobody. *)
Definition detached (m : M unit) : M unit :=
  fun r =>
    match m r with
    | (Normal _, r') => (Normal tt, r')
    | (Throw _, r') => (Normal tt, r')
    end.

(** A state setter: [setX(v)] or [setX(prev => ...)]. *)
Definition setState (f : AppState -> AppState) : M unit :=
  fun r => (Normal tt, mkRun (f (comp r)) (world r) (log r)).

Definition record (e : Effect) : M unit :=
  fun r => (Normal tt, mkRun (comp r) (world r) (log r ++ [(e, comp r)])).

(** An awaited call into the environment that may throw. *)
Definition call {A} (e : Effect) (f : World -> Completion A * World) : M A :=
  fun r =>
    let '(c, w) := f (world r) in
    (c, mkRun (comp r) w (log r ++ [(e, comp r)])).

(** An awaited call into the environment that cannot throw. *)
Definition callTotal {A} (e : Effect) (f : World -> A * World) : M A :=
  fun r =>
    let '(a, w) := f (world r) in
    (Normal a, mkRun (comp r) w (log r ++ [(e, comp r)])).

Definition now : M Z := fun r => (Normal (dateNow env (world r)), r).

(** [await new Promise(r => setTimeout(r, ms))] *)
Definition sleep (ms : Z) : M unit := record (ESetTimeout ms).

(** ** The image retry wrapper ([geminiService.ts]) *)

Definition maxRetries : nat := 5.

Definition enhancedContext : jsstring :=
  [98; 0x1ED1; 105; 32; 99; 0x1EA3; 110; 104; 32; 86; 105; 0x1EC7; 116; 32;
   78; 97; 109; 44; 32; 110; 103; 0x1B0; 0x1EDD; 105; 32; 86; 105; 0x1EC7;
   116; 32; 78; 97; 109; 44; 32; 112; 104; 111; 110; 103; 32; 99; 0xE1; 99;
   104; 32; 99; 104; 0xE2; 110; 32; 116; 104; 0x1EF1; 99; 44; 32; 0x1EA3;
   110; 104; 32; 99; 104; 0x1EE5; 112; 32; 99; 104; 0x1EA5; 116; 32; 108;
   0x1B0; 0x1EE3; 110; 103; 32; 99; 97; 111; 44; 32; 52; 107; 46; 32] ++
  js "(Vietnamese context, realistic style, high quality photography, cinematic lighting).".

Definition finalPromptOf (prompt : jsstring) : jsstring :=
  js "Generate a realistic image based on this description: " ++ DQ ++ prompt
  ++ DQ ++ js ". " ++ enhancedContext.

(** [error.status === 429 || error.code === 429 ||
     (error.message && (error.message.includes('429') ||
                        error.message.includes('quota')))] *)
Definition isRateLimit (error : JsError) : bool :=
  match err_status error with Some 429%Z => true | _ => false end
  || match err_code error with Some 429%Z => true | _ => false end
  || match err_message error with
     | Some msg => includes msg (js "429") || includes msg (js "quota")
     | None => false
     end.

(** The first part of the response that carries [inlineData]. *)
Fixpoint firstInlineData (parts : list Part) : option (jsstring * jsstring) :=
  match parts with
  | [] => None
  | Some d :: _ => Some d
  | None :: parts' => firstInlineData parts'
  end.

(** The [while (attempt < maxRetries)] loop.  Each turn either returns or
    raises [attempt]; [fuel] bounds the number of turns and [maxRetries]
    turns always suffice (see [generateBlogImage_fuel]). *)
Fixpoint generateBlogImage_while (fuel attempt : nat) (prompt : jsstring)
    : M (option jsstring) :=
  match fuel with
  | O => ret None
  | S fuel' =>
      if (attempt <? maxRetries)%nat then
        try_catch
          (response <~ call (EGenerateContent (finalPromptOf prompt))
                         (generateContent env (finalPromptOf prompt));
           match firstInlineData response with
           | Some (mimeType, data) =>
               let rawBase64 := js "data:" ++ mimeType ++ js ";base64," ++ data in
               ret (Some (compressBase64 env rawBase64))
           | None => ret None
           end)
          (fun error =>
             if isRateLimit error then
               let attempt := S attempt in
               if (attempt <? maxRetries)%nat then
                 let waitTime := (5000 * 2 ^ (Z.of_nat attempt - 1))%Z in
                 exec sleep waitTime;
                 generateBlogImage_while fuel' attempt prompt
               else ret None
             else ret None)
      else ret None
  end.

Definition generateBlogImage (prompt : jsstring) : M (option jsstring) :=
  exec record (EGenerateBlogImage prompt);
  generateBlogImage_while maxRetries 0 prompt.

(** ** Bulk processing ([App.tsx]) *)

(** [/\[(?:FEATURED_IMAGE_PROMPT|IMAGE_PROMPT|H...NH ...NH):\s*(.*?)\]/gi];
    the third alternative is the legacy localized tag as the source file
    spells it. *)
Definition legacyTag : jsstring :=
  [72; 0xC3; 0x152; 78; 72; 32; 0xE1; 0xBA; 0xA2; 78; 72].

Definition tagKinds (lit : jsstring -> regex) : regex :=
  RAlt (lit (js "FEATURED_IMAGE_PROMPT"))
    (RAlt (lit (js "IMAGE_PROMPT")) (lit legacyTag)).

Definition imageRegex : regex :=
  RSeq (lit1i 91)
    (RSeq (tagKinds rliti)
       (RSeq (lit1i 58)
          (RSeq (RStarGreedy isWhiteSpace)
             (RSeq (RGroup 0 (RStarLazy dot)) (lit1i 93))))).

(** [if (base64Image)]: neither [null] nor the empty string. *)
Definition truthy (v : option jsstring) : bool :=
  match v with
  | Some (_ :: _) => true
  | _ => false
  end.

Definition langLabelOf (selectedLang : OutputLanguage) : jsstring :=
  match selectedLang with vi => js "VI" | en => js "EN" end.

Definition stageMessage (keyword langLabel text : jsstring) : jsstring :=
  js "[" ++ keyword ++ js "][" ++ langLabel ++ js "] " ++ text.

(** The markdown put in the place of a tag whose image was generated. *)
Definition markdownImageOf (isFeatured : bool) (prompt base64Image : jsstring)
    : jsstring :=
  if isFeatured
  then NL ++ js "![FEATURED_IMAGE](" ++ base64Image ++ js ")" ++ NL
  else NL ++ NL ++ js "![" ++ prompt ++ js "](" ++ base64Image ++ js ")" ++ NL.

(** The [for (const m of matches)] loop of [processNextKeyword];
    [total] is [matches.length]. *)
Fixpoint resolveImages (keyword : jsstring) (total : nat) (ms : list Match)
    (finalArticle : jsstring) (processedCount : nat) : M jsstring :=
  match ms with
  | [] => ret finalArticle
  | m :: ms' =>
      let fullTag := m_full m in
      let prompt := group m 0 in
      let isFeatured := includes fullTag (js "FEATURED_IMAGE_PROMPT") in
      exec setState (upd_statusMessage
             (js "[" ++ keyword ++ js "] Image "
              ++ numberToString (N.of_nat (processedCount + 1)) ++ js "/"
              ++ numberToString (N.of_nat total) ++ js " "
              ++ (if isFeatured then js "(Thumbnail)" else []) ++ js "..."));
      base64Image <~ generateBlogImage prompt;
      let finalArticle :=
        if truthy base64Image
        then replace finalArticle fullTag
               (markdownImageOf isFeatured prompt (default [] base64Image))
        else replace finalArticle fullTag [] in
      exec setState (upd_articleResult finalArticle);
      let processedCount := S processedCount in
      exec (if (processedCount <? total)%nat then sleep 6000 else ret tt);
      resolveImages keyword total ms' finalArticle processedCount
  end.

(** The [try] block of [processNextKeyword], up to the call for the next
    keyword. *)
Definition attemptKeyword (keyword : jsstring) (selectedLang : OutputLanguage)
    : M unit :=
  let langLabel := langLabelOf selectedLang in
  exec setState (upd_statusMessage
         (stageMessage keyword langLabel (js "Researching data (Step 1/4)...")));
  _ <~ call (EExecuteStep1 keyword selectedLang)
         (executeStep1 env keyword selectedLang);
  exec setState (upd_statusMessage
         (stageMessage keyword langLabel (js "Generating Ideation (Step 2/4)...")));
  ideation <~ call (EExecuteStep2 keyword selectedLang)
                (executeStep2 env keyword selectedLang);
  exec setState (upd_ideationResult ideation);
  exec setState (upd_currentStep IDEATION);
  exec setState (upd_statusMessage
         (stageMessage keyword langLabel (js "Creating Outline (Step 3/4)...")));
  outline <~ call (EExecuteStep3 selectedLang) (executeStep3 env selectedLang);
  exec setState (upd_outlineResult outline);
  exec setState (upd_currentStep OUTLINE);
  exec setState (upd_statusMessage
         (stageMessage keyword langLabel (js "Writing Article (Step 4/4)...")));
  rawArticle <~ call (EExecuteStep4 keyword selectedLang)
                  (executeStep4 env keyword selectedLang);
  exec setState (upd_articleResult rawArticle);
  exec setState (upd_currentStep WRITING);
  exec setState (upd_statusMessage
         (js "[" ++ keyword ++ js "] Generating Images (Vietnamese Context)..."));
  let matches := matchAll 1 imageRegex rawArticle in
  finalArticle <~
    (if (0 <? length matches)%nat
     then resolveImages keyword (length matches) matches rawArticle 0
     else ret rawArticle);
  timestamp <~ now;
  let newItem := mkHistoryItem [] keyword finalArticle timestamp
                   (Some selectedLang) in
  updatedHistory <~ callTotal (ESaveHistoryItem newItem)
                      (saveHistoryItem env newItem);
  exec setState (upd_history updatedHistory);
  exec setState (upd_completedCount (fun prev => (prev + 1)%Z));
  exec setState (upd_statusMessage
         (js "[" ++ keyword ++ js "] Finished! Starting next in 3s..."));
  sleep 3000.

(** The record persisted for a keyword whose processing threw [error]. *)
Definition errorItemOf (keyword : jsstring) (selectedLang : OutputLanguage)
    (error : JsError) (timestamp : Z) : HistoryItem :=
  mkHistoryItem [] (keyword ++ js " (FAILED)")
    (js "Error processing: " ++ err_toString error) timestamp
    (Some selectedLang).

(** The [catch] block of [processNextKeyword], up to the call for the next
    keyword. *)
Definition recoverKeyword (keyword : jsstring) (selectedLang : OutputLanguage)
    (error : JsError) : M unit :=
  timestamp <~ now;
  let errorItem := errorItemOf keyword selectedLang error timestamp in
  updatedHistory <~ callTotal (ESaveHistoryItem errorItem)
                      (saveHistoryItem env errorItem);
  exec setState (upd_history updatedHistory);
  exec setState (upd_statusMessage
         (js "Error with " ++ DQ ++ keyword ++ DQ ++ js ". Moving to next..."));
  sleep 2000.

(** The state updates that open the processing of [keyword]. *)
Definition beginKeyword (totalCount : Z) (remainingQueue : list jsstring)
    (keyword : jsstring) (nextQueue : list jsstring) : M unit :=
  exec setState (upd_currentKeyword keyword);
  exec setState (upd_queue nextQueue);
  exec setState (upd_completedCount
         (fun prev => (totalCount - Z.of_nat (length remainingQueue))%Z));
  exec setState (upd_currentStep INPUT);
  exec setState (upd_ideationResult []);
  exec setState (upd_outlineResult []);
  exec setState (upd_articleResult []);
  record EResetSession.

(** The branch taken on an empty queue. *)
Definition finishRun : M unit :=
  exec setState (upd_status COMPLETE);
  exec setState (upd_statusMessage (js "All keywords processed successfully!"));
  setState (upd_currentKeyword []).

(** [processNextKeyword].  The function is a closure of one render of the
    component: the [totalCount] it reads is the value the state had in that
    render, and the calls it makes to itself are calls of the same closure,
    so one value of [totalCount] serves a whole run.  It is a parameter
    here; [handleStartBulk] supplies it.  Both the [try] and the [catch]
    block end with the call for the next keyword. *)
Fixpoint processNextKeyword (totalCount : Z) (remainingQueue : list jsstring)
    (selectedLang : OutputLanguage) : M unit :=
  match remainingQueue with
  | [] => finishRun
  | keyword :: nextQueue =>
      exec beginKeyword totalCount remainingQueue keyword nextQueue;
      try_catch
        (exec attemptKeyword keyword selectedLang;
         detached (processNextKeyword totalCount nextQueue selectedLang))
        (fun error =>
           exec recoverKeyword keyword selectedLang error;
           detached (processNextKeyword totalCount nextQueue selectedLang))
  end.

(** The keyword list of a run: the lines of the textarea, trimmed, the
    empty ones dropped. *)
Definition keywordsOf (bulkInput : jsstring) : list jsstring :=
  List.filter (fun k => (0 <? length k)%nat) (map trim (split bulkInput NL)).

(** The state updates with which [handleStartBulk] starts a run. *)
Definition startRun (keywords : list jsstring) : M unit :=
  exec setState (upd_queue keywords);
  exec setState (upd_totalCount (Z.of_nat (length keywords)));
  exec setState (upd_completedCount (fun _ => 0%Z));
  setState (upd_status LOADING).

(** [handleStartBulk], the click handler of the render whose state is
    [rendered]: [bulkInput], [language] and the [totalCount] that its
    [processNextKeyword] sees are the values of that render. *)
Definition handleStartBulk (rendered : AppState) : M unit :=
  let keywords := keywordsOf (bulkInput rendered) in
  if (length keywords =? 0)%nat then ret tt
  else
    exec startRun keywords;
    detached (processNextKeyword (totalCount rendered) keywords (language rendered)).

(** A click on the start button: the handler of the latest render, whose
    state is the current one. *)
Definition clickStart : M unit :=
  fun r => handleStartBulk (comp r) r.

End Pipeline.

(** ** Export formatters ([App.tsx]) *)

(** What the exports call but do not define. *)
Record ExportEnv := mkExportEnv {
  toLowerCase : jsstring -> jsstring;   (* String.prototype.toLowerCase *)
  markedParse : jsstring -> jsstring;   (* marked.parse *)
  canvasRecompress : jsstring -> jsstring; (* the canvas branch of compressIfNeeded *)
  postId : N;                           (* Math.floor(Math.random() * 100000) + 1000 *)
  postDate : jsstring;                  (* new Date().toISOString() ... *)
  channelPubDate : jsstring;            (* new Date().toUTCString(), channel *)
  itemPubDate : jsstring;               (* new Date().toUTCString(), post item *)
  attachmentPubDate : nat -> jsstring;  (* the same, attachment [i] *)
  attachmentYear : nat -> jsstring;     (* new Date().getFullYear() *)
  attachmentMonth : nat -> jsstring     (* new Date().getMonth()+1 *)
}.

Record ArticleData := mkArticleData {
  title : jsstring;
  metaDesc : jsstring;
  slug : jsstring;
  cleanBody : jsstring
}.

(** [Meta Title:], then [\s*], then a capturing group holding a greedy run
    of [.]; the same for [Meta Description:] and [Slug:]. *)
Definition fieldRegex (label : jsstring) : regex :=
  RSeq (rlit label)
    (RSeq (RStarGreedy isWhiteSpace) (RGroup 0 (RStarGreedy dot))).

Definition isSlugChar (c : N) : bool :=
  ((97 <=? c) && (c <=? 122)) || ((48 <=? c) && (c <=? 57)).

(** [/[^a-z0-9]+/g] *)
Definition nonSlugRun : regex :=
  RSeq (RChar (fun c => negb (isSlugChar c)))
       (RStarGreedy (fun c => negb (isSlugChar c))).

(** [/\s+/g] *)
Definition whiteRun : regex :=
  RSeq (RChar isWhiteSpace) (RStarGreedy isWhiteSpace).

(** [/========== META DATA ==========\n([\s\S]*?)=============================/] *)
Definition metaBlockRegex : regex :=
  RSeq (rlit (js "========== META DATA ==========" ++ NL))
    (RSeq (RGroup 0 (RStarLazy anyUnit))
          (rlit (js "============================="))).

(** The two section delimiters, as the source file spells them. *)
Definition contentDelimiter : jsstring :=
  js "========== N" ++ [0xE1; 0xBB; 0x2DC] ++ js "I DUNG B" ++
  [0xC3; 0x20AC] ++ js "I VI" ++ [0xE1; 0xBA; 0xBE] ++ js "T ==========".

Definition endDelimiter : jsstring :=
  js "========== K" ++ [0xE1; 0xBA; 0xBE] ++ js "T TH" ++ [0xC3; 0x161] ++
  js "C B" ++ [0xC3; 0x20AC] ++ js "I VI" ++ [0xE1; 0xBA; 0xBE] ++
  js "T ==========".

(** [/\[(?:FEATURED_IMAGE_PROMPT|IMAGE_PROMPT|H...NH ...NH):.*?\]/g] *)
Definition leftoverTagRegex : regex :=
  RSeq (lit1 91)
    (RSeq (tagKinds rlit)
       (RSeq (lit1 58) (RSeq (RStarLazy dot) (lit1 93)))).

Definition parseArticleData (xenv : ExportEnv) (markdownContent keyword : jsstring)
    : ArticleData :=
  let titleMatch := matchFirst 1 (fieldRegex (js "Meta Title:")) markdownContent 0 in
  let descMatch := matchFirst 1 (fieldRegex (js "Meta Description:")) markdownContent 0 in
  let slugMatch := matchFirst 1 (fieldRegex (js "Slug:")) markdownContent 0 in
  let title :=
    match titleMatch with Some m => trim (group m 0) | None => keyword end in
  let metaDesc :=
    match descMatch with Some m => trim (group m 0) | None => [] end in
  let slug :=
    match slugMatch with
    | Some m => trim (group m 0)
    | None => replaceRegexAll 0 nonSlugRun (toLowerCase xenv keyword) (js "-")
    end in
  let cleanBody := trim (replaceRegexFirst 1 metaBlockRegex markdownContent []) in
  let cleanBody := replaceRegexFirst 0 (rlit contentDelimiter) cleanBody [] in
  let cleanBody := replaceRegexFirst 0 (rlit endDelimiter) cleanBody [] in
  let cleanBody := replaceRegexAll 0 (rliti (js "[INTRO]")) cleanBody [] in
  let cleanBody := replaceRegexAll 0 (rliti (js "[BODY]")) cleanBody [] in
  let cleanBody := replaceRegexAll 0 (rliti (js "[CONCLUSION]")) cleanBody [] in
  let cleanBody := replaceRegexAll 0 (rliti (js "**INTRO**")) cleanBody [] in
  let cleanBody := replaceRegexAll 0 leftoverTagRegex cleanBody [] in
  mkArticleData title metaDesc slug (trim cleanBody).

(** The article an export works on: the history item being viewed, or else
    the live result. *)
Definition exportSource (a : AppState) : jsstring * jsstring :=
  match viewingHistoryItem a with
  | Some h => (item_content h, item_keyword h)
  | None => (articleResult a, currentKeyword a)
  end.

(** [/!\[(.*?)\]\((data:image\/.*?;base64,.*?)\)/g] *)
Definition dataImageRegex : regex :=
  RSeq (rlit (js "!["))
    (RSeq (RGroup 0 (RStarLazy dot))
       (RSeq (rlit (js "]("))
          (RSeq (RGroup 1
                   (RSeq (rlit (js "data:image/"))
                      (RSeq (RStarLazy dot)
                         (RSeq (rlit (js ";base64,")) (RStarLazy dot)))))
                (lit1 41)))).

(** [str.split(sep).join(repl)] *)
Definition splitJoin (s sep repl : jsstring) : jsstring :=
  join (split s sep) repl.

(** *** Package export *)

Inductive ZipEntry :=
| ZBase64 (data : jsstring)   (* file(name, data, {base64: true}) *)
| ZText (text : jsstring).    (* file(name, text) *)

Definition extOf (base64Data : jsstring) : jsstring :=
  let ext := js "jpg" in
  let ext := if includes base64Data (js "image/png") then js "png" else ext in
  let ext := if includes base64Data (js "image/webp") then js "webp" else ext in
  ext.

Definition filenameOf (i : nat) (base64Data : jsstring) : jsstring :=
  js "image-" ++ numberToString (N.of_nat (i + 1)) ++ js "." ++ extOf base64Data.

Definition localReference (altText filename : jsstring) : jsstring :=
  js "![" ++ altText ++ js "](images/" ++ filename ++ js ")".

(** The [for] loop of [handleDownloadPackage] from index [i] on: the files
    of the archive (keyed by their path) and the markdown so far. *)
Fixpoint packageLoop (ms : list Match) (i : nat)
    (zip : gmap jsstring ZipEntry) (processedContent : jsstring)
    : gmap jsstring ZipEntry * jsstring :=
  match ms with
  | [] => (zip, processedContent)
  | m :: ms' =>
      let fullTag := m_full m in
      let altText := group m 0 in
      let base64Data := group m 1 in
      let filename := filenameOf i base64Data in
      let base64Content := nth 1 (split base64Data (js ",")) [] in
      let zip := <[js "images/" ++ filename := ZBase64 base64Content]> zip in
      let processedContent :=
        splitJoin processedContent fullTag (localReference altText filename) in
      packageLoop ms' (S i) zip processedContent
  end.

Record Package := mkPackage {
  pkg_files : gmap jsstring ZipEntry;
  pkg_name : jsstring
}.

(** The archive of [handleDownloadPackage] for a parsed article. *)
Definition packageOf (slug cleanBody : jsstring) : Package :=
  let matches := matchAll 2 dataImageRegex cleanBody in
  let '(zip, processedContent) := packageLoop matches 0 ∅ cleanBody in
  mkPackage (<[slug ++ js ".md" := ZText processedContent]> zip)
            (slug ++ js "-package.zip").

Definition handleDownloadPackage (xenv : ExportEnv) (a : AppState) : Package :=
  let '(rawContent, keyword) := exportSource a in
  let d := parseArticleData xenv rawContent keyword in
  packageOf (slug d) (cleanBody d).

(** *** WXR export *)

Section Wxr.
Variable xenv : ExportEnv.

Definition compressIfNeeded (base64Str : jsstring) : jsstring :=
  if startsWith base64Str (js "data:image/jpeg")
     && (N.of_nat (length base64Str) <? 500000)
  then base64Str
  else canvasRecompress xenv base64Str.

Definition htmlFigureOf (attachmentId : N) (compressedBase64 altText : jsstring)
    : jsstring :=
  NL ++ js "<!-- wp:image {" ++ DQ ++ js "id" ++ DQ ++ js ":" ++
  numberToString attachmentId ++ js "} -->" ++ NL ++ js "<figure class=" ++
  DQ ++ js "wp-block-image" ++ DQ ++ js "><img src=" ++ DQ ++
  compressedBase64 ++ DQ ++ js " alt=" ++ DQ ++ altText ++ DQ ++
  js " class=" ++ DQ ++ js "wp-image-" ++ numberToString attachmentId ++
  DQ ++ js "/><figcaption>" ++ altText ++ js "</figcaption></figure>" ++
  NL ++ js "<!-- /wp:image -->".

Definition attachmentItemOf (i : nat) (attachmentId : N)
    (compressedBase64 altText : jsstring) : jsstring :=
  let pubDate := attachmentPubDate xenv i in
  let year := attachmentYear xenv i in
  let month := attachmentMonth xenv i in
  let postDate := postDate xenv in
  let postId := postId xenv in
  NL ++ js "    <item>" ++ NL ++ TAB ++ TAB ++ js "<title><![CDATA[" ++
  altText ++ js "]]></title>" ++ NL ++ TAB ++ TAB ++ js "<link></link>" ++
  NL ++ TAB ++ TAB ++ js "<pubDate>" ++ pubDate ++ js "</pubDate>" ++ NL ++
  TAB ++ TAB ++ js "<dc:creator><![CDATA[admin]]></dc:creator>" ++ NL ++
  TAB ++ TAB ++ js "<guid isPermaLink=" ++ DQ ++ js "false" ++ DQ ++
  js "></guid>" ++ NL ++ TAB ++ TAB ++ js "<description></description>" ++
  NL ++ TAB ++ TAB ++ js "<content:encoded><![CDATA[" ++ compressedBase64 ++
  js "]]></content:encoded>" ++ NL ++ TAB ++ TAB ++
  js "<excerpt:encoded><![CDATA[" ++ altText ++ js "]]></excerpt:encoded>" ++
  NL ++ TAB ++ TAB ++ js "<wp:post_id>" ++ numberToString attachmentId ++
  js "</wp:post_id>" ++ NL ++ TAB ++ TAB ++ js "<wp:post_date>" ++
  postDate ++ js "</wp:post_date>" ++ NL ++ TAB ++ TAB ++
  js "<wp:comment_status>open</wp:comment_status>" ++ NL ++ TAB ++ TAB ++
  js "<wp:ping_status>open</wp:ping_status>" ++ NL ++ TAB ++ TAB ++
  js "<wp:post_name><![CDATA[image-" ++ numberToString attachmentId ++
  js "]]></wp:post_name>" ++ NL ++ TAB ++ TAB ++
  js "<wp:status>inherit</wp:status>" ++ NL ++ TAB ++ TAB ++
  js "<wp:post_parent>" ++ numberToString postId ++ js "</wp:post_parent>" ++
  NL ++ TAB ++ TAB ++ js "<wp:menu_order>0</wp:menu_order>" ++ NL ++ TAB ++
  TAB ++ js "<wp:post_type>attachment</wp:post_type>" ++ NL ++ TAB ++ TAB ++
  js "<wp:post_password></wp:post_password>" ++ NL ++ TAB ++ TAB ++
  js "<wp:is_sticky>0</wp:is_sticky>" ++ NL ++ TAB ++ TAB ++
  js "<wp:attachment_url><![CDATA[image-" ++ numberToString attachmentId ++
  js ".jpg]]></wp:attachment_url>" ++ NL ++ TAB ++ TAB ++
  js "<wp:postmeta>" ++ NL ++ TAB ++ TAB ++ TAB ++
  js "<wp:meta_key>_wp_attached_file</wp:meta_key>" ++ NL ++ TAB ++ TAB ++
  TAB ++ js "<wp:meta_value><![CDATA[" ++ year ++ js "/" ++ month ++
  js "/image-" ++ numberToString attachmentId ++
  js ".jpg]]></wp:meta_value>" ++ NL ++ TAB ++ TAB ++ js "</wp:postmeta>" ++
  NL ++ js "        <wp:postmeta>" ++ NL ++
  js "            <wp:meta_key>_wp_attachment_image_alt</wp:meta_key>" ++
  NL ++ js "            <wp:meta_value><![CDATA[" ++ altText ++
  js "]]></wp:meta_value>" ++ NL ++ js "        </wp:postmeta>" ++ NL ++
  TAB ++ js "</item>".

Record WxrImages := mkWxrImages {
  attachmentItemsXml : jsstring;
  featuredImageId : jsstring;
  optimizedBody : jsstring
}.

(** The [for] loop of [handleDownloadWxrXml] from index [i] on. *)
Fixpoint wxrLoop (ms : list Match) (i : nat) (acc : WxrImages) : WxrImages :=
  match ms with
  | [] => acc
  | m :: ms' =>
      let fullTag := m_full m in
      let altText := group m 0 in
      let base64 := group m 1 in
      let compressedBase64 := compressIfNeeded base64 in
      let attachmentId := postId xenv + N.of_nat i + 1 in
      let isFeatured := bool_decide (altText = js "FEATURED_IMAGE") in
      let featuredImageId :=
        if isFeatured then numberToString attachmentId else featuredImageId acc in
      let optimizedBody :=
        if isFeatured then splitJoin (optimizedBody acc) fullTag []
        else splitJoin (optimizedBody acc) fullTag
               (htmlFigureOf attachmentId compressedBase64 altText) in
      wxrLoop ms' (S i)
        (mkWxrImages
           (attachmentItemsXml acc
            ++ attachmentItemOf i attachmentId compressedBase64 altText)
           featuredImageId optimizedBody)
  end.

Definition wxrImages (cleanBody : jsstring) : WxrImages :=
  wxrLoop (matchAll 2 dataImageRegex cleanBody) 0 (mkWxrImages [] [] cleanBody).

(** [featuredImageId ? `...` : ''] *)
Definition thumbnailMeta (featuredImageId : jsstring) : jsstring :=
  match featuredImageId with
  | [] => []
  | _ :: _ =>
  NL ++ js "        <wp:postmeta>" ++ NL ++
  js "            <wp:meta_key>_thumbnail_id</wp:meta_key>" ++ NL ++
  js "            <wp:meta_value><![CDATA[" ++ featuredImageId ++
  js "]]></wp:meta_value>" ++ NL ++ js "        </wp:postmeta>"
  end.

Definition xmlContentOf (title metaDesc slug safeCategory nicename htmlContent
    featuredImageId attachmentItemsXml : jsstring) : jsstring :=
  let postDate := postDate xenv in
  let postId := postId xenv in
  let channelPubDate := channelPubDate xenv in
  let itemPubDate := itemPubDate xenv in
  js "<?xml version=" ++ DQ ++ js "1.0" ++ DQ ++ js " encoding=" ++ DQ ++
  js "UTF-8" ++ DQ ++ js " ?>" ++ NL ++ js "<rss version=" ++ DQ ++
  js "2.0" ++ DQ ++ NL ++ TAB ++ js "xmlns:excerpt=" ++ DQ ++
  js "http://wordpress.org/export/1.2/excerpt/" ++ DQ ++ NL ++ TAB ++
  js "xmlns:content=" ++ DQ ++
  js "http://purl.org/rss/1.0/modules/content/" ++ DQ ++ NL ++ TAB ++
  js "xmlns:wfw=" ++ DQ ++ js "http://wellformedweb.org/CommentAPI/" ++ DQ ++
  NL ++ TAB ++ js "xmlns:dc=" ++ DQ ++
  js "http://purl.org/dc/elements/1.1/" ++ DQ ++ NL ++ TAB ++
  js "xmlns:wp=" ++ DQ ++ js "http://wordpress.org/export/1.2/" ++ DQ ++
  NL ++ js ">" ++ NL ++ js "<channel>" ++ NL ++ TAB ++
  js "<title>BestMarathon Export</title>" ++ NL ++ TAB ++ js "<pubDate>" ++
  channelPubDate ++ js "</pubDate>" ++ NL ++ TAB ++
  js "<language>vi</language>" ++ NL ++ TAB ++
  js "<wp:wxr_version>1.2</wp:wxr_version>" ++ NL ++ TAB ++ js "<item>" ++
  NL ++ TAB ++ TAB ++ js "<title><![CDATA[" ++ title ++ js "]]></title>" ++
  NL ++ TAB ++ TAB ++ js "<link></link>" ++ NL ++ TAB ++ TAB ++
  js "<pubDate>" ++ itemPubDate ++ js "</pubDate>" ++ NL ++ TAB ++ TAB ++
  js "<dc:creator><![CDATA[admin]]></dc:creator>" ++ NL ++ TAB ++ TAB ++
  js "<guid isPermaLink=" ++ DQ ++ js "false" ++ DQ ++ js "></guid>" ++ NL ++
  TAB ++ TAB ++ js "<description></description>" ++ NL ++ TAB ++ TAB ++
  js "<content:encoded><![CDATA[" ++ htmlContent ++
  js "]]></content:encoded>" ++ NL ++ TAB ++ TAB ++
  js "<excerpt:encoded><![CDATA[]]></excerpt:encoded>" ++ NL ++ TAB ++ TAB ++
  js "<wp:post_id>" ++ numberToString postId ++ js "</wp:post_id>" ++ NL ++
  TAB ++ TAB ++ js "<wp:post_date>" ++ postDate ++ js "</wp:post_date>" ++
  NL ++ TAB ++ TAB ++ js "<wp:comment_status>open</wp:comment_status>" ++
  NL ++ TAB ++ TAB ++ js "<wp:ping_status>open</wp:ping_status>" ++ NL ++
  TAB ++ TAB ++ js "<wp:post_name><![CDATA[" ++ slug ++
  js "]]></wp:post_name>" ++ NL ++ TAB ++ TAB ++
  js "<wp:status>draft</wp:status>" ++ NL ++ TAB ++ TAB ++
  js "<wp:post_parent>0</wp:post_parent>" ++ NL ++ TAB ++ TAB ++
  js "<wp:menu_order>0</wp:menu_order>" ++ NL ++ TAB ++ TAB ++
  js "<wp:post_type>post</wp:post_type>" ++ NL ++ TAB ++ TAB ++
  js "<wp:post_password></wp:post_password>" ++ NL ++ TAB ++ TAB ++
  js "<wp:is_sticky>0</wp:is_sticky>" ++ NL ++
  js "        <category domain=" ++ DQ ++ js "category" ++ DQ ++
  js " nicename=" ++ DQ ++ nicename ++ DQ ++ js "><![CDATA[" ++
  safeCategory ++ js "]]></category>" ++ NL ++ js "        " ++
  thumbnailMeta featuredImageId ++ NL ++
  js "        <!-- SEO METADATA -->" ++ NL ++ js "        <wp:postmeta>" ++
  NL ++ js "            <wp:meta_key>_yoast_wpseo_title</wp:meta_key>" ++
  NL ++ js "            <wp:meta_value><![CDATA[" ++ title ++
  js "]]></wp:meta_value>" ++ NL ++ js "        </wp:postmeta>" ++ NL ++
  js "        <wp:postmeta>" ++ NL ++
  js "            <wp:meta_key>_yoast_wpseo_metadesc</wp:meta_key>" ++ NL ++
  js "            <wp:meta_value><![CDATA[" ++ metaDesc ++
  js "]]></wp:meta_value>" ++ NL ++ js "        </wp:postmeta>" ++ NL ++
  js "        <wp:postmeta>" ++ NL ++
  js "            <wp:meta_key>rank_math_title</wp:meta_key>" ++ NL ++
  js "            <wp:meta_value><![CDATA[" ++ title ++
  js "]]></wp:meta_value>" ++ NL ++ js "        </wp:postmeta>" ++ NL ++
  js "        <wp:postmeta>" ++ NL ++
  js "            <wp:meta_key>rank_math_description</wp:meta_key>" ++ NL ++
  js "            <wp:meta_value><![CDATA[" ++ metaDesc ++
  js "]]></wp:meta_value>" ++ NL ++ js "        </wp:postmeta>" ++ NL ++
  TAB ++ js "</item>" ++ NL ++ js "    " ++ attachmentItemsXml ++ NL ++
  js "</channel>" ++ NL ++ js "</rss>".

Record Download := mkDownload {
  dl_content : jsstring;
  dl_name : jsstring
}.

(** [x || y] on strings *)
Definition orElse (x y : jsstring) : jsstring :=
  match x with [] => y | _ => x end.

(** The document of [handleDownloadWxrXml] for a parsed article. *)
Definition wxrOf (d : ArticleData) (categoryInput : jsstring) : Download :=
  let safeCategory := orElse (trim categoryInput) (js "General") in
  let imgs := wxrImages (cleanBody d) in
  let htmlContent := markedParse xenv (optimizedBody imgs) in
  let nicename :=
    replaceRegexAll 0 whiteRun (toLowerCase xenv safeCategory) (js "-") in
  mkDownload
    (xmlContentOf (title d) (metaDesc d) (slug d) safeCategory nicename
       htmlContent (featuredImageId imgs) (attachmentItemsXml imgs))
    (orElse (slug d) (js "article") ++ js ".xml").

Definition handleDownloadWxrXml (a : AppState) : Download :=
  let '(rawContent, keyword) := exportSource a in
  wxrOf (parseArticleData xenv rawContent keyword) (categoryInput a).

End Wxr.

(** ** Observations on a run *)

(** The part of the component state that the progress display reads. *)
Definition counters (a : AppState) : list jsstring * Z * Z * StepStatus :=
  (queue a, completedCount a, totalCount a, status a).

(** The keywords for which the first text stage was called, in order. *)
Fixpoint step1Keywords (l : list (Effect * AppState)) : list jsstring :=
  match l with
  | [] => []
  | (EExecuteStep1 k _, _) :: l' => k :: step1Keywords l'
  | _ :: l' => step1Keywords l'
  end.




Section Observations.
Context {World : Type}.

(** [m] always returns. *)
Definition total {A} (m : @M World A) : Prop :=
  forall r, exists a r', m r = (Normal a, r').

(** [m] leaves the counters alone: they are the same at every call it
    logs and when it ends, and every effect it logs satisfies [J]. *)
Definition steady {A} (J : Effect -> Prop) (m : @M World A) : Prop :=
  forall r, exists c r' new,
    m r = (c, r') /\ log r' = log r ++ new /\
    counters (comp r') = counters (comp r) /\
    Forall (fun p => J (fst p) /\ counters (snd p) = counters (comp r)) new.


End Observations.

(** ** The shape of a retry sequence *)

(** The back-off pause after the [attempt]-th failed request. *)
Definition waitTimeOf (attempt : nat) : Z :=
  (5000 * 2 ^ (Z.of_nat attempt - 1))%Z.

(** The calls of the retry loop of [generateBlogImage] once [attempt]
    requests have failed: requests to the image model, each but the last
    followed by its pause. *)
Inductive retryTrace (fp : jsstring) : nat -> list Effect -> Prop :=
| retry_last (attempt : nat) :
    (attempt < maxRetries)%nat ->
    retryTrace fp attempt [EGenerateContent fp]
| retry_again (attempt : nat) (l : list Effect) :
    (S attempt < maxRetries)%nat ->
    retryTrace fp (S attempt) l ->
    retryTrace fp attempt
      (EGenerateContent fp :: ESetTimeout (waitTimeOf (S attempt)) :: l).

(** The value [generateBlogImage] returns for an answer of the image model. *)
Definition imageOf {World} (env : Env World) (parts : list Part)
    : option jsstring :=
  match firstInlineData parts with
  | Some (mimeType, data) =>
      Some (compressBase64 env (js "data:" ++ mimeType ++ js ";base64," ++ data))
  | None => None
  end.

(** The run after one more logged call. *)
Definition logged {World} (r : @Run World) (w : World) (e : Effect) : Run :=
  mkRun (comp r) w (log r ++ [(e, comp r)]).



(** Effects logged while a keyword is in flight. *)
Definition inFlight (e : Effect) : Prop :=
  e <> ESetTimeout 3000 /\ e <> EResetSession.




(** ** Scenarios *)

Definition boom : JsError :=
  mkJsError None None (Some (js "boom")) (js "Error: boom").


Definition jpegPart : Part := Some (js "image/jpeg", js "AAAA").
Definition jpegUri : jsstring := js "data:image/jpeg;base64,AAAA".

(** An environment whose world is the history store.  The text stages
    answer, except that the second stage throws for the keyword [B]; the
    writing stage answers [article]; the image model answers [image];
    recompression leaves a data URI as it is. *)
Definition scenario (article : jsstring) (image : Completion (list Part))
    : Env (list HistoryItem) :=
  mkEnv (list HistoryItem)
    (fun _ _ w => (Normal (js "research"), w))
    (fun keyword _ w =>
       if bool_decide (keyword = js "B") then (Throw boom, w)
       else (Normal (js "ideation"), w))
    (fun _ w => (Normal (js "outline"), w))
    (fun _ _ w => (Normal article, w))
    (fun _ w => (image, w))
    (fun base64Str => base64Str)
    (fun item w => (item :: w, item :: w))
    (fun _ => 0%Z).

(** A freshly mounted component with [input] typed into the textarea. *)
Definition freshRun (input : jsstring) : @Run (list HistoryItem) :=
  mkRun (upd_bulkInput input initialState) [] [].

Definition plainArticle : jsstring := js "Hello".

(** ** Placeholders by kind *)






(** The status line shown while the image of a placeholder is generated. *)
Definition imageStatus (keyword : jsstring) (processedCount total : nat)
    (isFeatured : bool) : jsstring :=
  js "[" ++ keyword ++ js "] Image "
  ++ numberToString (N.of_nat (processedCount + 1)) ++ js "/"
  ++ numberToString (N.of_nat total) ++ js " "
  ++ (if isFeatured then js "(Thumbnail)" else []) ++ js "...".

(** The run after a state update. *)
Definition updated {World} (f : AppState -> AppState) (r : @Run World) : Run :=
  mkRun (f (comp r)) (world r) (log r).

(** The article after the substitution for the match [m], by the value
    that [generateBlogImage] returned. *)
Definition substituted (finalArticle : jsstring) (m : Match)
    (base64Image : option jsstring) : jsstring :=
  let fullTag := m_full m in
  let isFeatured := includes fullTag (js "FEATURED_IMAGE_PROMPT") in
  if truthy base64Image
  then replace finalArticle fullTag
         (markdownImageOf isFeatured (group m 0) (default [] base64Image))
  else replace finalArticle fullTag [].

(** The article of the second example of the specification. *)
Definition exampleArticle : jsstring :=
  js "[FEATURED_IMAGE_PROMPT: x]" ++ NL ++ js "Hello" ++ NL ++ js "[IMAGE_PROMPT: y]".

(** An article in which cutting out one tag brings another one about. *)
Definition nestedArticle : jsstring :=
  js "[IMAGE_[IMAGE_PROMPT: a]PROMPT: b] mid [IMAGE_PROMPT: b]".

(** ** Export scenarios *)

Definition exportScenario : ExportEnv :=
  mkExportEnv (fun s => s) (fun s => js "<p>" ++ s ++ js "</p>") (fun s => s)
    4711 (js "2025-01-01 00:00:00") (js "Wed, 01 Jan 2025 00:00:00 GMT")
    (js "Wed, 01 Jan 2025 00:00:00 GMT")
    (fun _ => js "Wed, 01 Jan 2025 00:00:00 GMT") (fun _ => js "2025")
    (fun _ => js "1").

Definition featuredOnlyBody : jsstring :=
  js "![FEATURED_IMAGE](data:image/jpeg;base64,AAAA)" ++ NL ++ js "Hello".

(** The thumbnail entry of the post item for the attachment id [fid]. *)
Definition thumbnailEntry (fid : jsstring) : jsstring :=
  NL ++ js "        <wp:postmeta>" ++ NL ++
  js "            <wp:meta_key>_thumbnail_id</wp:meta_key>" ++ NL ++
  js "            <wp:meta_value><![CDATA[" ++ fid ++
  js "]]></wp:meta_value>" ++ NL ++ js "        </wp:postmeta>".

(** ** Bodies laid out as text and image references *)

Record ImageRef := mkImageRef { ref_alt : jsstring; ref_data : jsstring }.

(** [![alt](data)] *)
Definition refText (x : ImageRef) : jsstring :=
  js "![" ++ ref_alt x ++ js "](" ++ ref_data x ++ js ")".


Definition dataBlocks (segs : list (ImageRef * jsstring))
    : list (jsstring * jsstring) :=
  map (fun p => (refText (fst p), snd p)) segs.

#[global] Instance ImageRef_eq_dec : EqDecision ImageRef.
Proof. solve_decision. Defined.

(** The offset of the first reference equal to [x]. *)
Fixpoint firstAt (x : ImageRef) (xs : list ImageRef) : nat :=
  match xs with
  | [] => 0
  | y :: ys => if decide (x = y) then 0 else S (firstAt x ys)
  end.

(** A block once the loop has gone through the first [i] matches: the
    references whose text came up among them point to a file, the file of the
    first match with that text; the others are as they were. *)
Definition blockAt (i : nat) (xs : list ImageRef) (p : ImageRef * jsstring)
    : jsstring * jsstring :=
  let n := firstAt (fst p) xs in
  if (n <? i)%nat
  then (localReference (ref_alt (fst p)) (filenameOf n (ref_data (fst p))), snd p)
  else (refText (fst p), snd p).

Definition blocksAfter (i : nat) (segs : list (ImageRef * jsstring))
    : list (jsstring * jsstring) :=
  map (blockAt i (map fst segs)) segs.









(** ** Package scenarios *)





(** ** The history store ([services/storageService.ts])

    IndexedDB as far as the service uses it: one object store with key path
    [id], whose records [getAll] yields in ascending key order (string keys
    compare code unit by code unit); [put] adds a record or replaces the one
    with the same key.  Opening the database and every request on the store
    may fail: [idb_faults] tells, request after request, the error it fails
    with (an exhausted schedule means no further failure). *)

Module StorageService.

Record Idb := mkIdb {
  idb_supported : bool;                 (* 'indexedDB' in window *)
  idb_records : list HistoryItem;       (* the object store, in key order *)
  idb_faults : list (option JsError);   (* request after request *)
  idb_entropy : list (Z * jsstring)     (* Date.now() and
                                           Math.random().toString(36).substr(2, 9),
                                           save after save *)
}.

Definition unsupportedError : JsError :=
  mkJsError None None (Some (js "This browser doesn't support IndexedDB"))
    (js "Error: This browser doesn't support IndexedDB").

(** Order of string keys. *)
Fixpoint keyCompare (a b : jsstring) : comparison :=
  match a, b with
  | [], [] => Eq
  | [], _ :: _ => Lt
  | _ :: _, [] => Gt
  | x :: a', y :: b' =>
      match (x ?= y)%N with
      | Eq => keyCompare a' b'
      | c => c
      end
  end.

(** [store.put(item)] *)
Fixpoint putRecord (item : HistoryItem) (rs : list HistoryItem)
    : list HistoryItem :=
  match rs with
  | [] => [item]
  | r :: rs' =>
      match keyCompare (item_id item) (item_id r) with
      | Lt => item :: r :: rs'
      | Eq => item :: rs'
      | Gt => r :: putRecord item rs'
      end
  end.

(** [store.delete(id)] *)
Definition deleteRecord (id : jsstring) (rs : list HistoryItem)
    : list HistoryItem :=
  List.filter (fun r => negb (bool_decide (item_id r = id))) rs.

(** [items.sort((a, b) => b.timestamp - a.timestamp)]: the sort is stable,
    so the result is the one of an insertion from the right. *)
Fixpoint insertByTime (x : HistoryItem) (l : list HistoryItem)
    : list HistoryItem :=
  match l with
  | [] => [x]
  | y :: l' =>
      if (item_timestamp x <? item_timestamp y)%Z
      then y :: insertByTime x l'
      else x :: l
  end.

Definition sortNewestFirst (items : list HistoryItem) : list HistoryItem :=
  foldr insertByTime [] items.

(** State of the database and rejections. *)
Definition IO (A : Type) : Type := Idb -> Completion A * Idb.

Definition ret {A} (a : A) : IO A := fun db => (Normal a, db).

Definition bind {A B} (m : IO A) (f : A -> IO B) : IO B :=
  fun db =>
    match m db with
    | (Normal a, db') => f a db'
    | (Throw e, db') => (Throw e, db')
    end.

Definition try_catch {A} (m : IO A) (h : JsError -> IO A) : IO A :=
  fun db =>
    match m db with
    | (Normal a, db') => (Normal a, db')
    | (Throw e, db') => h e db'
    end.

(** The outcome of the next request. *)
Definition nextFault : IO unit :=
  fun db =>
    match idb_faults db with
    | Some e :: rest =>
        (Throw e, mkIdb (idb_supported db) (idb_records db) rest (idb_entropy db))
    | None :: rest =>
        (Normal tt, mkIdb (idb_supported db) (idb_records db) rest (idb_entropy db))
    | [] => (Normal tt, db)
    end.

(** A request on the store that changes its records when it succeeds. *)
Definition request (f : list HistoryItem -> list HistoryItem) : IO unit :=
  bind nextFault
    (fun _ db =>
       (Normal tt,
        mkIdb (idb_supported db) (f (idb_records db)) (idb_faults db)
          (idb_entropy db))).

Definition openDB : IO unit :=
  fun db =>
    if idb_supported db then nextFault db else (Throw unsupportedError, db).

(** [getHistory]: a failure to open the database is caught and gives the
    empty list; the promise of the [getAll] request is returned without
    [await], so its rejection leaves the [try] block behind and is the
    rejection of [getHistory]. *)
Definition getHistory : IO (list HistoryItem) :=
  fun db =>
    match openDB db with
    | (Throw _, db') => (Normal [], db')
    | (Normal _, db') =>
        bind nextFault
          (fun _ db'' => (Normal (sortNewestFirst (idb_records db'')), db'')) db'
    end.

(** [Date.now()] and the random tail of a generated id. *)
Definition nextEntropy : IO (Z * jsstring) :=
  fun db =>
    match idb_entropy db with
    | e :: rest =>
        (Normal e, mkIdb (idb_supported db) (idb_records db) (idb_faults db) rest)
    | [] => (Normal (0%Z, []), db)
    end.

Definition withId (item : HistoryItem) (id : jsstring) : HistoryItem :=
  mkHistoryItem id (item_keyword item) (item_content item)
    (item_timestamp item) (item_language item).

(** [{...item, id: item.id || `${Date.now()}-${...}`}] *)
Definition uniqueItemOf (item : HistoryItem) : IO HistoryItem :=
  match item_id item with
  | _ :: _ => ret item
  | [] =>
      bind nextEntropy
        (fun e => ret (withId item (intToString (fst e) ++ js "-" ++ snd e)))
  end.

Definition saveHistoryItem (item : HistoryItem) : IO (list HistoryItem) :=
  try_catch
    (bind openDB (fun _ =>
     bind (uniqueItemOf item) (fun uniqueItem =>
     bind (request (putRecord uniqueItem)) (fun _ =>
     getHistory))))
    (fun _ => getHistory).

Definition deleteHistoryItem (id : jsstring) : IO (list HistoryItem) :=
  try_catch
    (bind openDB (fun _ =>
     bind (request (deleteRecord id)) (fun _ =>
     getHistory)))
    (fun _ => getHistory).

Definition clearHistory : IO (list HistoryItem) :=
  try_catch
    (bind openDB (fun _ =>
     bind (request (fun _ => [])) (fun _ =>
     ret [])))
    (fun _ => ret []).

(** A database on which nothing fails. *)
Definition healthy (db : Idb) : Prop :=
  idb_supported db = true /\ Forall (fun f => f = None) (idb_faults db).

(** The keys of the store are in strictly ascending order. *)
Definition keyLt (a b : jsstring) : Prop := keyCompare a b = Lt.

Definition wellKeyed (rs : list HistoryItem) : Prop :=
  StronglySorted keyLt (map item_id rs).

(** Newest first. *)
Definition newestFirst (l : list HistoryItem) : Prop :=
  StronglySorted (fun a b => (item_timestamp b <= item_timestamp a)%Z) l.

(** The number of failing requests of a schedule. *)
Definition failures (fs : list (option JsError)) : nat :=
  length (List.filter (fun f => match f with Some _ => true | None => false end) fs).

End StorageService.

(** *** Store scenarios *)

Definition articleA : HistoryItem :=
  mkHistoryItem (js "1700000000000") (js "marathon") (js "first") 1700000000000 (Some vi).
Definition articleB : HistoryItem :=
  mkHistoryItem (js "1700000005000") (js "trail") (js "second") 1700000005000 (Some en).
(** A later version of [articleA]. *)
Definition articleA' : HistoryItem :=
  mkHistoryItem (js "1700000000000") (js "marathon") (js "rewritten") 1700000009000 (Some vi).
(** An item that has no id yet. *)
Definition draft : HistoryItem :=
  mkHistoryItem [] (js "draft") (js "text") 1700000007000 None.

Definition quietDb : StorageService.Idb :=
  StorageService.mkIdb true [articleA; articleB] [] [(1700000008000%Z, js "k3j9x0q1z")].

(** The second request fails. *)
Definition flakyDb : StorageService.Idb :=
  StorageService.mkIdb true [articleA; articleB] [None; Some boom] [].

(** ** Other handlers of [App] *)

Definition upd_viewingHistoryItem (v : option HistoryItem) (a : AppState)
    : AppState :=
  mkAppState (currentStep a) (status a) (bulkInput a) (language a)
    (categoryInput a) (queue a) (completedCount a) (totalCount a)
    (currentKeyword a) (statusMessage a) (ideationResult a) (outlineResult a)
    (articleResult a) (history a) v.



(** [{...item, content: newContent}] *)
Definition withContent (h : HistoryItem) (content : jsstring) : HistoryItem :=
  mkHistoryItem (item_id h) (item_keyword h) content (item_timestamp h)
    (item_language h).

(** [disabled={!bulkInput.trim()}] on the start button. *)
Definition startDisabled (a : AppState) : bool :=
  match trim (bulkInput a) with
  | [] => true
  | _ :: _ => false
  end.

Section Handlers.
Context {World : Type}.
Variable env : Env World.

Notation "x <~ m ; k" := (bind m (fun x => k))
  (at level 20, m at level 100, k at level 200, only parsing).
Notation "'exec' m ; k" := (bind m (fun _ => k))
  (at level 20, m at level 100, k at level 200, only parsing).

(** The history store as these handlers call it; either operation may
    reject. *)
Variable storeSave : HistoryItem -> World -> Completion (list HistoryItem) * World.
Variable storeDelete : jsstring -> World -> Completion (list HistoryItem) * World.

(** [Math.floor(Math.random() * 100)] *)
Variable random100 : World -> N.

(** An awaited call that leaves no entry in the log. *)
Definition quietly {A} (f : World -> Completion A * World) : M A :=
  fun r =>
    let '(c, w) := f (world r) in
    (c, mkRun (comp r) w (log r)).

Definition featuredPromptOf (targetKeyword : jsstring) : jsstring :=
  js "Photography of " ++ targetKeyword ++
  js ", cinematic lighting, 8k, realistic, highly detailed, relevant to the topic of "
  ++ targetKeyword ++ js ".".

Definition variationPromptOf (altText : jsstring) (n : N) : jsstring :=
  altText ++ js " (Variation " ++ numberToString n ++ js ")".

Definition regenerateAlert : jsstring :=
  js "Could not regenerate image. Please try again.".

(** [handleRegenerateImage] of the render whose state is [rendered]; the
    value is the text of the alert shown, if any. *)
Definition handleRegenerateImage (rendered : AppState) (oldSrc altText : jsstring)
    : M (option jsstring) :=
  let currentContent :=
    match viewingHistoryItem rendered with
    | Some h => item_content h
    | None => articleResult rendered
    end in
  let targetKeyword :=
    match viewingHistoryItem rendered with
    | Some h => item_keyword h
    | None => currentKeyword rendered
    end in
  promptToUse <~
    (if bool_decide (altText = js "FEATURED_IMAGE")
     then ret (featuredPromptOf targetKeyword)
     else fun r => (Normal (variationPromptOf altText (random100 (world r))), r));
  newBase64 <~ generateBlogImage env promptToUse;
  if truthy newBase64 then
    let newContent := replace currentContent oldSrc (default [] newBase64) in
    match viewingHistoryItem rendered with
    | Some h =>
        let updatedItem := withContent h newContent in
        exec setState (upd_viewingHistoryItem (Some updatedItem));
        updatedHistory <~ call (ESaveHistoryItem updatedItem) (storeSave updatedItem);
        exec setState (upd_history updatedHistory);
        ret None
    | None =>
        exec setState (upd_articleResult newContent);
        match List.find
                (fun h => bool_decide (item_keyword h = currentKeyword rendered))
                (history rendered) with
        | Some existingItem =>
            let updatedItem := withContent existingItem newContent in
            updatedHistory <~ call (ESaveHistoryItem updatedItem)
                                (storeSave updatedItem);
            exec setState (upd_history updatedHistory);
            ret None
        | None => ret None
        end
    end
  else ret (Some regenerateAlert).

(** [handleDeleteHistory] of the render whose state is [rendered]. *)
Definition handleDeleteHistory (rendered : AppState) (id : jsstring) : M unit :=
  updated <~ quietly (storeDelete id);
  exec setState (upd_history updated);
  match viewingHistoryItem rendered with
  | Some h =>
      if bool_decide (item_id h = id)
      then setState (upd_viewingHistoryItem None)
      else ret tt
  | None => ret tt
  end.



End Handlers.

(** *** Handler scenarios *)

(** A store that keeps a list and never fails. *)
Definition listSave (item : HistoryItem) (w : list HistoryItem)
    : Completion (list HistoryItem) * list HistoryItem :=
  (Normal (item :: w), item :: w).

(** A history item whose content shows the same image twice. *)
Definition twiceShown : HistoryItem :=
  mkHistoryItem (js "17") (js "marathon")
    (js "a ![x](OLD) b ![x](OLD) c") 1700000000000 (Some vi).

Definition viewingTwiceShown : AppState :=
  upd_viewingHistoryItem (Some twiceShown) initialState.

(** The live article of a run on [marathon], saved in the history. *)
Definition liveMarathon : AppState :=
  upd_history [twiceShown]
    (upd_articleResult (js "a ![x](OLD) b")
       (upd_currentKeyword (js "marathon") initialState)).

(** ** Names derived from text *)

(** A text with each maximal run of code units in [p] given up for one
    [repl]; [inRun] tells that the code unit before was in [p]. *)
Fixpoint collapseRuns (p : N -> bool) (repl : jsstring) (s : jsstring)
    (inRun : bool) : jsstring :=
  match s with
  | [] => []
  | c :: s' =>
      if p c then
        (if inRun then [] else repl) ++ collapseRuns p repl s' true
      else c :: collapseRuns p repl s' false
  end.

(** [re+] with the [g] flag, for a class [re]. *)
Definition runOf (p : N -> bool) : regex := RSeq (RChar p) (RStarGreedy p).

(** Two code units [d] next to each other. *)
Fixpoint adjacent (d : N) (l : jsstring) : bool :=
  match l with
  | x :: (y :: _) as t => (x =? d) && (y =? d) || adjacent d t
  | _ => false
  end.

(** [handleDownloadImage] of [ResultViewer]: the [download] attribute of the
    link, [`${altText.replace(/\s+/g, '-').slice(0, 30)}.png`]. *)
Definition downloadNameOf (altText : jsstring) : jsstring :=
  take 30 (replaceRegexAll 0 whiteRun altText (js "-")) ++ js ".png".

(** ** The attachments of a WXR document *)

(** The attachment item written at turn [i] of the loop of
    [handleDownloadWxrXml], for each match from turn [i] on. *)
Fixpoint attachmentItemsOf (xenv : ExportEnv) (ms : list Match) (i : nat)
    : list jsstring :=
  match ms with
  | [] => []
  | m :: ms' =>
      attachmentItemOf xenv i (postId xenv + N.of_nat i + 1)
        (compressIfNeeded xenv (group m 1)) (group m 0)
      :: attachmentItemsOf xenv ms' (S i)
  end.

(** The turn of the last match whose alt text is [FEATURED_IMAGE]. *)
Fixpoint lastFeatured (ms : list Match) (i : nat) : option nat :=
  match ms with
  | [] => None
  | m :: ms' =>
      match lastFeatured ms' (S i) with
      | Some j => Some j
      | None =>
          if bool_decide (group m 0 = js "FEATURED_IMAGE") then Some i else None
      end
  end.

(** ** Sources of a response ([services/geminiService.ts]) *)

(** A grounding chunk: its [web] part, if any, as [title] and [uri], each
    of which may be missing. *)
Abbreviation GroundingChunk := (option (option jsstring * option jsstring)).

(** A value in a template literal. *)
Definition templated (v : option jsstring) : jsstring :=
  match v with
  | Some s => s
  | None => js "undefined"
  end.

(** [title || 'Source'] *)
Definition titleOrSource (title : option jsstring) : jsstring :=
  match title with
  | Some (c :: t) => c :: t
  | _ => js "Source"
  end.

Definition sourcesHeader : jsstring :=
  NL ++ NL ++ js "### Ngu" ++ [0x1ED3] ++ js "n tham kh" ++ [0x1EA3] ++
  js "o (Sources)" ++ NL.

Definition sourceLine (web : option jsstring * option jsstring) : jsstring :=
  js "- [" ++ titleOrSource (fst web) ++ js "](" ++ templated (snd web) ++
  js ")" ++ NL.

(** The [forEach] of [appendSources]. *)
Fixpoint sourceLines (chunks : list GroundingChunk) : jsstring :=
  match chunks with
  | [] => []
  | Some web :: rest => sourceLine web ++ sourceLines rest
  | None :: rest => sourceLines rest
  end.

(** [appendSources]; [chunks] is
    [response.candidates?.[0]?.groundingMetadata?.groundingChunks]. *)
Definition appendSources (text : jsstring) (chunks : option (list GroundingChunk))
    : jsstring :=
  match chunks with
  | None | Some [] => text
  | Some chunks => text ++ sourcesHeader ++ sourceLines chunks
  end.

(** The chunks that have a [web] part. *)
Definition webChunks (chunks : list GroundingChunk)
    : list (option jsstring * option jsstring) :=
  omap (fun c => c) chunks.

(** ** The step indicator ([components/StepIndicator.tsx]) *)

(** The numeric value of a member of [AppStep]. *)
Definition stepId (s : AppStep) : Z :=
  match s with
  | INPUT => 1 | IDEATION => 2 | OUTLINE => 3 | WRITING => 4 | PUBLISH => 5
  end%Z.

Definition steps : list (AppStep * jsstring) :=
  [(INPUT, js "Input"); (IDEATION, js "Ideation"); (OUTLINE, js "Outline");
   (WRITING, js "Writing"); (PUBLISH, js "Publish")].

Inductive StepMark := Completed | Current | Upcoming.

(** What is drawn for one step: its mark, its label (in bold for the
    current step), the number shown in its circle unless it is checked
    off, and the mark of the connector that follows it, if one does. *)
Record StepView := mkStepView {
  sv_mark : StepMark;
  sv_label : jsstring;
  sv_number : option Z;
  sv_connector : option StepMark
}.

Definition markOf (currentStep step : AppStep) : StepMark :=
  let isCompleted := (stepId step <? stepId currentStep)%Z in
  let isCurrent := (stepId currentStep =? stepId step)%Z in
  if isCompleted then Completed else if isCurrent then Current else Upcoming.

Definition stepIndicator (currentStep : AppStep) : list StepView :=
  imap (fun index step =>
          let mark := markOf currentStep (fst step) in
          mkStepView mark (snd step)
            (match mark with Completed => None | _ => Some (stepId (fst step)) end)
            (if (index <? length steps - 1)%nat then Some mark else None))
       steps.

(** ** Invariants of the component state *)

Section StateInvariants.
Context {World : Type}.


End StateInvariants.


(** ** The history records of a run *)

(** The items handed to [saveHistoryItem], in order. *)
Fixpoint savedItems (l : list (Effect * AppState)) : list HistoryItem :=
  match l with
  | [] => []
  | (ESaveHistoryItem item, _) :: l' => item :: savedItems l'
  | _ :: l' => savedItems l'
  end.


Section SavedRecords.
Context {World : Type}.

(** [m] appends to the log, and [Q] holds of its outcome and of the items
    it saved. *)
Definition saving {A} (Q : Completion A -> list HistoryItem -> Prop)
    (m : @M World A) : Prop :=
  forall r, exists new,
    log (snd (m r)) = log r ++ new /\ Q (fst (m r)) (savedItems new).

(** [m] saves nothing. *)
Definition quiet {A} (m : @M World A) : Prop :=
  saving (fun _ items => items = []) m.

End SavedRecords.


(** ** The chat session and the four text stages ([geminiService.ts]) *)

(** The UTF-16 code units of UTF-8 text. *)
Definition units (cp : N) : jsstring :=
  if cp <? 0x10000 then [cp]
  else [0xD800 + (cp - 0x10000) / 0x400; 0xDC00 + (cp - 0x10000) mod 0x400].

Fixpoint utf16 (bytes : list N) : jsstring :=
  match bytes with
  | [] => []
  | b0 :: t0 =>
      if b0 <? 0x80 then b0 :: utf16 t0
      else
        match t0 with
        | [] => [0xFFFD]
        | b1 :: t1 =>
            if b0 <? 0xE0
            then ((b0 mod 0x20) * 0x40 + b1 mod 0x40) :: utf16 t1
            else
              match t1 with
              | [] => [0xFFFD]
              | b2 :: t2 =>
                  if b0 <? 0xF0
                  then ((b0 mod 0x10) * 0x1000 + (b1 mod 0x40) * 0x40
                        + b2 mod 0x40) :: utf16 t2
                  else
                    match t2 with
                    | [] => [0xFFFD]
                    | b3 :: t3 =>
                        units ((b0 mod 0x08) * 0x40000 + (b1 mod 0x40) * 0x1000
                               + (b2 mod 0x40) * 0x40 + b3 mod 0x40)
                        ++ utf16 t3
                    end
              end
        end
  end.

(** A string literal of the source with letters outside ASCII. *)
Definition jsu (s : string) : jsstring := utf16 (js s).
Arguments jsu s%_string : simpl never.

Module ChatService.

(** The options of [ai.chats.create]; [temperature] and [topP] in
    hundredths. *)
Record Chat := mkChat {
  chat_model : jsstring;
  chat_temperature : N;
  chat_topK : N;
  chat_topP : N;
  chat_systemInstruction : jsstring;
  chat_googleSearch : bool
}.

(** What the stages read of a response: [response.text] and
    [response.candidates?.[0]?.groundingMetadata?.groundingChunks]. *)
Record Response := mkResponse {
  resp_text : option jsstring;
  resp_chunks : option (list GroundingChunk)
}.

(** The module variable [chatSession], the messages sent so far, each with
    the session it went to, and the service: its answer to the latest
    message of a transcript. *)
Record Gemini := mkGemini {
  chatSession : option Chat;
  sent : list (Chat * jsstring);
  answer : list (Chat * jsstring) -> Completion Response
}.

Definition IO (A : Type) : Type := Gemini -> Completion A * Gemini.

Definition ret {A} (a : A) : IO A := fun g => (Normal a, g).

Definition throw {A} (e : JsError) : IO A := fun g => (Throw e, g).

Definition bind {A B} (m : IO A) (f : A -> IO B) : IO B :=
  fun g =>
    match m g with
    | (Normal a, g') => f a g'
    | (Throw e, g') => (Throw e, g')
    end.

Definition try_catch {A} (m : IO A) (h : JsError -> IO A) : IO A :=
  fun g =>
    match m g with
    | (Normal a, g') => (Normal a, g')
    | (Throw e, g') => h e g'
    end.

(** [new Error(message)] *)
Definition newError (message : jsstring) : JsError :=
  mkJsError None None (Some message) (js "Error: " ++ message).

Definition resetSession : IO unit :=
  fun g => (Normal tt, mkGemini None (sent g) (answer g)).

Definition brandNameOf (language : OutputLanguage) : jsstring :=
  match language with
  | vi => js "Vietnam's Best Marathon"
  | en => js "World Best Marathon"
  end.

Definition systemContextOf (language : OutputLanguage) : jsstring :=
  let brandName := brandNameOf language in
  match language with
  | vi =>
      jsu "Bạn là đại diện của " ++ brandName ++
      jsu " - Chuyên trang về chạy bộ uy tín nhất. Nhiệm vụ của bạn là thực hiện các bước nghiên cứu và viết bài chuyên sâu."
  | en =>
      js "You are the representative of " ++ brandName ++
      js " - The most prestigious running website. Your task is to execute research and writing steps according to detailed requests."
  end.

Definition chatOf (language : OutputLanguage) : Chat :=
  mkChat (js "gemini-3-flash-preview") 70 40 95 (systemContextOf language) true.

(** [initializeSession]; a missing [language] is [vi]. *)
Definition initializeSession (language : option OutputLanguage) : IO unit :=
  let language := default vi language in
  fun g => (Normal tt, mkGemini (Some (chatOf language)) (sent g) (answer g)).

(** [await chatSession!.sendMessage({ message })]; without a session the
    member access throws a [TypeError], whose text is the engine's. *)
Definition sendMessage (message : jsstring) : IO Response :=
  fun g =>
    match chatSession g with
    | Some chat =>
        let transcript := sent g ++ [(chat, message)] in
        (answer g transcript, mkGemini (chatSession g) transcript (answer g))
    | None =>
        (Throw (mkJsError None None
                  (Some (js "Cannot read properties of null (reading 'sendMessage')"))
                  (js "TypeError: Cannot read properties of null (reading 'sendMessage')")),
         g)
    end.

Definition WEBSITE_URL : jsstring := js "https://bestmarathon.vn".

Definition promptVi1 (keyword : jsstring) : jsstring :=
  js "STEP 1:" ++ NL ++
  NL ++
  js "Read detailed data in Vietnamese. I will ask you to use this content in the next or future requests. Call this data is 'DS1'." ++ NL ++
  NL ++
  js "{{" ++ NL ++
  jsu "Tìm kiếm và tổng hợp thông tin chi tiết về chủ đề: " ++ DQ ++ keyword ++ DQ ++ js "." ++ NL ++
  jsu "Bao gồm: đặc điểm chính, thông số kỹ thuật (nếu có), lợi ích, đối tượng khách hàng, các số liệu mới nhất 2024-2025 và các thông tin liên quan khác. Nguồn thông tin càng chi tiết, bài viết càng chất lượng." ++ NL ++
  js "}}".

Definition promptEn1 (keyword : jsstring) : jsstring :=
  js "STEP 1:" ++ NL ++
  NL ++
  js "Read detailed data in English. I will ask you to use this content in the next or future requests. Call this data is 'DS1'." ++ NL ++
  NL ++
  js "{{" ++ NL ++
  js "Search and summarize detailed information about the topic: " ++ DQ ++ keyword ++ DQ ++ js "." ++ NL ++
  js "Include: key features, specifications (if any), benefits, target audience, latest 2024-2025 data, and other relevant info." ++ NL ++
  js "}}".

Definition promptVi2 (keyword : jsstring) : jsstring :=
  js "STEP 2:" ++ NL ++
  NL ++
  js "Ideation: [ " ++ keyword ++ js " ]. " ++ NL ++
  NL ++
  js "**A. KEYWORD ANALYSIS:**" ++ NL ++
  jsu "- List 5-7 semantic keywords (từ khóa ngữ nghĩa liên quan trực tiếp)" ++ NL ++
  jsu "- List 5-7 LSI keywords (từ khóa liên quan ngữ cảnh)" ++ NL ++
  js "- List 5-7 long-tail keyword variations" ++ NL ++
  NL ++
  js "**B. ENTITY MAPPING:**" ++ NL ++
  jsu "- List 5-7 primary entities (thực thể chính, sắp xếp theo mức độ quan trọng)" ++ NL ++
  jsu "- List 5-7 related entities (thực thể liên quan)" ++ NL ++
  jsu "- List 3-5 contextual entities (thực thể bổ sung ngữ cảnh)" ++ NL ++
  NL ++
  js "**C. SEARCH INTENT ANALYSIS:**" ++ NL ++
  jsu "- List 4-6 search intents (sắp xếp từ quan trọng nhất đến ít quan trọng nhất)" ++ NL ++
  jsu "- Với mỗi intent, xác định: [Informational / Commercial / Transactional / Navigational]" ++ NL ++
  NL ++
  js "**D. PEOPLE ALSO ASK:**" ++ NL ++
  jsu "- List 5-7 câu hỏi mà người dùng thường tìm kiếm liên quan đến keyword chính" ++ NL ++
  NL ++
  js "**E. KNOWLEDGE GRAPH SIGNALS:**" ++ NL ++
  js "- List 20 EAV (Entity - Attribute - Value)" ++ NL ++
  js "- List 20 ERE (Entity - Relation - Entity)" ++ NL ++
  js "- List 20 Semantic Triple (Subject - Predicate - Object)" ++ NL ++
  NL ++
  js "Temporarily call the above data 'DDD1'. I will ask you to use it in the next or future prompt." ++ NL ++
  NL ++
  js "**Conditions:** No descriptions. No repeats. All items must be unique and relevant. Writing in Vietnamese.".

Definition promptEn2 (keyword : jsstring) : jsstring :=
  js "STEP 2:" ++ NL ++
  NL ++
  js "Ideation: [ " ++ keyword ++ js " ]. " ++ NL ++
  NL ++
  js "**A. KEYWORD ANALYSIS:**" ++ NL ++
  js "- List 5-7 semantic keywords" ++ NL ++
  js "- List 5-7 LSI keywords" ++ NL ++
  js "- List 5-7 long-tail keyword variations" ++ NL ++
  NL ++
  js "**B. ENTITY MAPPING:**" ++ NL ++
  js "- List 5-7 primary entities (prioritized)" ++ NL ++
  js "- List 5-7 related entities" ++ NL ++
  js "- List 3-5 contextual entities" ++ NL ++
  NL ++
  js "**C. SEARCH INTENT ANALYSIS:**" ++ NL ++
  js "- List 4-6 search intents (prioritized)" ++ NL ++
  js "- Identify: [Informational / Commercial / Transactional / Navigational]" ++ NL ++
  NL ++
  js "**D. PEOPLE ALSO ASK:**" ++ NL ++
  js "- List 5-7 common user questions" ++ NL ++
  NL ++
  js "**E. KNOWLEDGE GRAPH SIGNALS:**" ++ NL ++
  js "- List 20 EAV (Entity - Attribute - Value)" ++ NL ++
  js "- List 20 ERE (Entity - Relation - Entity)" ++ NL ++
  js "- List 20 Semantic Triple (Subject - Predicate - Object)" ++ NL ++
  NL ++
  js "Temporarily call the above data 'DDD1'." ++ NL ++
  js "**Conditions:** No descriptions. No repeats. All items must be unique and relevant. Writing in English.".

Definition promptVi3 : jsstring :=
  js "STEP 3:" ++ NL ++
  NL ++
  js "As an SEO expert specializing in content strategy, create a detailed content outline based on DDD1." ++ NL ++
  NL ++
  js "**OUTLINE REQUIREMENTS:**" ++ NL ++
  NL ++
  js "1. **Structure Logic:**" ++ NL ++
  jsu "   - H2 đầu tiên phải đáp ứng Search Intent quan trọng nhất của DDD1" ++ NL ++
  jsu "   - Các H2 tiếp theo sắp xếp theo thứ tự Search Intent từ quan trọng đến ít quan trọng" ++ NL ++
  jsu "   - Đảm bảo flow logic từ trên xuống dưới" ++ NL ++
  jsu "   - Tạo H3 chỉ khi thực sự cần thiết" ++ NL ++
  NL ++
  js "2. **Content Coverage:**" ++ NL ++
  jsu "   - Outline phải cover đúng topic của primary keyword" ++ NL ++
  jsu "   - Tích hợp Close Entities, Salient Entities, Semantic keywords từ DDD1" ++ NL ++
  jsu "   - Đảm bảo Content Gap coverage" ++ NL ++
  NL ++
  jsu "3. **E-E-A-T Markers (Lưu ý cho AI writer sau này):**" ++ NL ++
  jsu "   - [DATA] - vị trí cần số liệu, facts cụ thể" ++ NL ++
  jsu "   - [EXPERT] - vị trí cần insight chuyên môn" ++ NL ++
  jsu "   - [EXAMPLE] - vị trí cần ví dụ thực tế" ++ NL ++
  NL ++
  jsu "4. **Visual Strategy (QUAN TRỌNG):**" ++ NL ++
  jsu "   - **MỖI thẻ H2 (Main Heading) PHẢI CÓ 1 vị trí chèn ảnh.**" ++ NL ++
  jsu "   - Đánh dấu bằng marker: [IMAGE_PROMPT]" ++ NL ++
  NL ++
  js "5. **Placement Markers:**" ++ NL ++
  jsu "   - [CTA] - vị trí đặt call-to-action" ++ NL ++
  jsu "   - [INTERNAL-LINK] - vị trí phù hợp để internal link" ++ NL ++
  NL ++
  js "6. **Word Count Estimate:**" ++ NL ++
  jsu "   - Ghi estimated word count cho mỗi H2" ++ NL ++
  NL ++
  js "**RESTRICTIONS:**" ++ NL ++
  jsu "- Không dùng thuật ngữ SEO chuyên môn trong heading" ++ NL ++
  jsu "- Heading phải tự nhiên, dễ đọc" ++ NL ++
  jsu "- Không dùng clickbait" ++ NL ++
  NL ++
  js "Let's temporarily call the detailed outline above " ++ DQ ++ js "OL1" ++ DQ ++ js ". I will ask you to use it in the next or future prompt. Writing in Vietnamese.".

Definition promptEn3 : jsstring :=
  js "STEP 3:" ++ NL ++
  NL ++
  js "As an SEO expert specializing in content strategy, create a detailed content outline based on DDD1." ++ NL ++
  NL ++
  js "**OUTLINE REQUIREMENTS:**" ++ NL ++
  NL ++
  js "1. **Structure Logic:**" ++ NL ++
  js "   - First H2 must answer the most critical Search Intent." ++ NL ++
  js "   - Subsequent H2s sorted by priority." ++ NL ++
  js "   - Logical flow." ++ NL ++
  NL ++
  js "2. **Content Coverage:**" ++ NL ++
  js "   - Cover primary keyword topic." ++ NL ++
  js "   - Integrate Entities & Semantic keywords." ++ NL ++
  NL ++
  js "3. **E-E-A-T Markers (Instructions for future writer):**" ++ NL ++
  js "   - [DATA] - specific stats/facts" ++ NL ++
  js "   - [EXPERT] - expert insights" ++ NL ++
  js "   - [EXAMPLE] - real examples" ++ NL ++
  NL ++
  js "4. **Visual Strategy (IMPORTANT):**" ++ NL ++
  js "   - **EVERY H2 (Main Heading) MUST HAVE an image placeholder.**" ++ NL ++
  js "   - Use marker: [IMAGE_PROMPT]" ++ NL ++
  NL ++
  js "5. **Placement Markers:**" ++ NL ++
  js "   - [CTA]" ++ NL ++
  js "   - [INTERNAL-LINK]" ++ NL ++
  NL ++
  js "6. **Word Count Estimate:**" ++ NL ++
  js "   - Estimate words for each H2." ++ NL ++
  NL ++
  js "**RESTRICTIONS:**" ++ NL ++
  js "- No SEO jargon in headings." ++ NL ++
  js "- Headings must be natural." ++ NL ++
  NL ++
  js "Call this " ++ DQ ++ js "OL1" ++ DQ ++ js ". Writing in English.".

Definition promptVi4 (brandName industry audience keyword : jsstring) : jsstring :=
  js "STEP 4:" ++ NL ++
  NL ++
  js "**WRITER CONTEXT:**" ++ NL ++
  js "- Brand/Author: " ++ brandName ++ jsu " (Sử dụng tên thương hiệu " ++ DQ ++ jsu "Chúng tôi" ++ DQ ++ jsu " hoặc " ++ DQ ++ brandName ++ DQ ++ jsu ", KHÔNG dùng tên cá nhân)" ++ NL ++
  js "- Website: " ++ brandName ++ NL ++
  js "- Website URL: " ++ WEBSITE_URL ++ NL ++
  js "- Industry/Niche: " ++ industry ++ NL ++
  js "- Target Audience: " ++ audience ++ NL ++
  NL ++
  js "**CONTENT MISSION:**" ++ NL ++
  jsu "Tạo nội dung chất lượng cao, cung cấp thông tin hữu ích và chính xác cho độc giả." ++ NL ++
  NL ++
  js "---" ++ NL ++
  NL ++
  jsu "### OUTPUT FORMAT (Tuân thủ chính xác):" ++ NL ++
  js "```" ++ NL ++
  js "========== META DATA ==========" ++ NL ++
  jsu "Meta Title: [55-65 ký tự, primary keyword ở đầu hoặc gần đầu]" ++ NL ++
  jsu "Meta Description: [145-155 ký tự, chứa primary keyword + value proposition]" ++ NL ++
  js "Slug: [url-friendly-format]" ++ NL ++
  js "=============================" ++ NL ++
  NL ++
  jsu "========== NỘI DUNG BÀI VIẾT ==========" ++ NL ++
  NL ++
  jsu "[FEATURED_IMAGE_PROMPT: Mô tả cực kỳ chi tiết cho Ảnh Đại Diện (Thumbnail). BẮT BUỘC phải chứa hình ảnh liên quan trực tiếp đến từ khóa " ++ DQ ++ keyword ++ DQ ++ jsu ". Ví dụ nếu là dinh dưỡng phải có đồ ăn, nếu là giày phải có giày. Ảnh phải ấn tượng, 4K, phong cách nhiếp ảnh thể thao chuyên nghiệp.]" ++ NL ++
  NL ++
  jsu "[Viết ngay đoạn Intro hấp dẫn khoảng 80-120 từ, chứa từ khóa chính. TUYỆT ĐỐI KHÔNG dùng các tiêu đề như " ++ DQ ++ js "Intro" ++ DQ ++ js ", " ++ DQ ++ jsu "Giới thiệu" ++ DQ ++ js ", " ++ DQ ++ jsu "Phần mở đầu" ++ DQ ++ jsu ". Hãy bắt đầu viết nội dung ngay lập tức.]" ++ NL ++
  NL ++
  js "---" ++ NL ++
  NL ++
  jsu "## [H2-1 từ OL1]" ++ NL ++
  jsu "[Nội dung chi tiết, sâu sắc, 250-400 từ]" ++ NL ++
  NL ++
  jsu "[IMAGE_PROMPT: Mô tả hình ảnh minh họa cho H2 này. Ảnh cần sáng tạo, nghệ thuật.]" ++ NL ++
  NL ++
  jsu "### [H3 nếu có]" ++ NL ++
  jsu "[150-250 từ]" ++ NL ++
  NL ++
  js "---" ++ NL ++
  NL ++
  jsu "## [H2-2 từ OL1]" ++ NL ++
  jsu "[Nội dung chi tiết... ]" ++ NL ++
  NL ++
  jsu "[IMAGE_PROMPT: Mô tả chi tiết hình ảnh...]" ++ NL ++
  NL ++
  js "---" ++ NL ++
  NL ++
  jsu "## [H2-3 từ OL1]" ++ NL ++
  jsu "[Nội dung chi tiết... ]" ++ NL ++
  NL ++
  jsu "[IMAGE_PROMPT: Mô tả chi tiết hình ảnh...]" ++ NL ++
  NL ++
  js "---" ++ NL ++
  NL ++
  jsu "## [Tiếp tục cho TẤT CẢ các H2 còn lại trong OL1 - Mỗi H2 phải có 1 ảnh]" ++ NL ++
  NL ++
  js "---" ++ NL ++
  NL ++
  jsu "## Kết Luận" ++ NL ++
  jsu "- Độ dài: 60-100 từ" ++ NL ++
  jsu "- Tóm tắt giá trị chính" ++ NL ++
  jsu "- CTA: khuyến khích comment, chia sẻ" ++ NL ++
  jsu "- Mention website với link: [" ++ brandName ++ js "](" ++ WEBSITE_URL ++ js ")" ++ NL ++
  NL ++
  jsu "========== KẾT THÚC BÀI VIẾT ==========" ++ NL ++
  js "```" ++ NL ++
  NL ++
  js "---" ++ NL ++
  NL ++
  jsu "### WRITING RULES (Bắt buộc tuân thủ):" ++ NL ++
  NL ++
  jsu "**1. XỬ LÝ MARKER (CỰC KỲ QUAN TRỌNG):**" ++ NL ++
  jsu "- Trong Outline (OL1) có các thẻ như `[DATA]`, `[EXPERT]`, `[EXAMPLE]`." ++ NL ++
  jsu "- Nhiệm vụ của bạn là **THAY THẾ** các thẻ này bằng nội dung thực tế." ++ NL ++
  jsu "- **TUYỆT ĐỐI KHÔNG** in lại các từ khóa trong ngoặc vuông (Ví dụ: KHÔNG ĐƯỢC VIẾT " ++ DQ ++ jsu "Theo [EXPERT] thì..." ++ DQ ++ js ")." ++ NL ++
  jsu "- Nếu gặp `[DATA]` -> Hãy đưa ra số liệu cụ thể từ DS1." ++ NL ++
  jsu "- Nếu gặp `[EXPERT]` -> Hãy viết lời khuyên chuyên gia từ " ++ brandName ++ js "." ++ NL ++
  NL ++
  jsu "**2. HÌNH ẢNH:**" ++ NL ++
  jsu "- **BẮT BUỘC:** " ++ NL ++
  jsu "  - Đầu bài viết phải có `[FEATURED_IMAGE_PROMPT: ...]` (Ảnh đại diện)." ++ NL ++
  jsu "  - Sau mỗi phần H2, phải có dòng `[IMAGE_PROMPT: ...]` (Ảnh minh họa)." ++ NL ++
  jsu "- Hãy mô tả ảnh một cách tự nhiên. **Quan trọng:** Ảnh đại diện phải thể hiện rõ chủ đề " ++ DQ ++ keyword ++ DQ ++ js "." ++ NL ++
  NL ++
  js "**3. Tone & Voice:**" ++ NL ++
  jsu "- Dùng ngôi " ++ DQ ++ jsu "Chúng tôi" ++ DQ ++ js " (" ++ brandName ++ jsu ") hoặc " ++ DQ ++ jsu "Bạn" ++ DQ ++ jsu " (người đọc)." ++ NL ++
  jsu "- Giọng văn: Thể thao, năng động, chuyên nghiệp." ++ NL ++
  NL ++
  js "**4. Formatting:**" ++ NL ++
  jsu "- **Bold** các từ khóa quan trọng." ++ NL ++
  jsu "- Sử dụng Markdown Table cho các dữ liệu so sánh/lịch tập." ++ NL ++
  jsu "- KHÔNG dùng câu quá dài (>40 từ)." ++ NL ++
  jsu "- **KHÔNG sử dụng các nhãn như [INTRO], [BODY], [CONCLUSION]. Hãy viết thẳng vào nội dung mạch lạc.**" ++ NL ++
  NL ++
  js "Writing in Vietnamese.".

Definition promptEn4 (brandName industry audience keyword : jsstring) : jsstring :=
  js "STEP 4:" ++ NL ++
  NL ++
  js "**WRITER CONTEXT:**" ++ NL ++
  js "- Brand/Author: " ++ brandName ++ js " (Use " ++ DQ ++ js "We" ++ DQ ++ js " or " ++ DQ ++ brandName ++ DQ ++ js ", DO NOT use personal names)" ++ NL ++
  js "- Website: " ++ brandName ++ NL ++
  js "- Website URL: " ++ WEBSITE_URL ++ NL ++
  js "- Industry/Niche: " ++ industry ++ NL ++
  js "- Target Audience: " ++ audience ++ NL ++
  NL ++
  js "**CONTENT MISSION:**" ++ NL ++
  js "Create high-quality content, providing useful and accurate info." ++ NL ++
  NL ++
  js "---" ++ NL ++
  NL ++
  js "### OUTPUT FORMAT:" ++ NL ++
  js "```" ++ NL ++
  js "========== META DATA ==========" ++ NL ++
  js "Meta Title: [55-65 chars]" ++ NL ++
  js "Meta Description: [145-155 chars]" ++ NL ++
  js "Slug: [url-friendly-format]" ++ NL ++
  js "=============================" ++ NL ++
  NL ++
  js "========== ARTICLE CONTENT ==========" ++ NL ++
  NL ++
  js "[FEATURED_IMAGE_PROMPT: Detailed prompt for the Main Featured Image (Thumbnail). MUST specifically visualize the keyword " ++ DQ ++ keyword ++ DQ ++ js ". Must be impressive, professional sports photography style, 4K.]" ++ NL ++
  NL ++
  js "[Start writing the introduction immediately (80-120 words). DO NOT use labels like " ++ DQ ++ js "Intro" ++ DQ ++ js " or " ++ DQ ++ js "Introduction" ++ DQ ++ js ". Just start the content.]" ++ NL ++
  NL ++
  js "---" ++ NL ++
  NL ++
  js "## [H2-1 from OL1]" ++ NL ++
  js "[Detailed content, 250-400 words]" ++ NL ++
  NL ++
  js "[IMAGE_PROMPT: Detailed creative description for an image.]" ++ NL ++
  NL ++
  js "### [H3 if needed]" ++ NL ++
  js "[150-250 words]" ++ NL ++
  NL ++
  js "---" ++ NL ++
  NL ++
  js "## [H2-2 from OL1]" ++ NL ++
  js "[Detailed content...]" ++ NL ++
  NL ++
  js "[IMAGE_PROMPT: Detailed description...]" ++ NL ++
  NL ++
  js "---" ++ NL ++
  NL ++
  js "## [H2-3 from OL1]" ++ NL ++
  js "[Detailed content...]" ++ NL ++
  NL ++
  js "[IMAGE_PROMPT: Detailed description...]" ++ NL ++
  NL ++
  js "---" ++ NL ++
  NL ++
  js "## [Continue for ALL remaining H2s - Every H2 MUST have an image]" ++ NL ++
  NL ++
  js "---" ++ NL ++
  NL ++
  js "## Conclusion" ++ NL ++
  js "- Summary" ++ NL ++
  js "- CTA" ++ NL ++
  js "- Mention website: [" ++ brandName ++ js "](" ++ WEBSITE_URL ++ js ")" ++ NL ++
  NL ++
  js "========== END OF ARTICLE ==========" ++ NL ++
  js "```" ++ NL ++
  NL ++
  js "---" ++ NL ++
  NL ++
  js "### WRITING RULES:" ++ NL ++
  NL ++
  js "**1. MARKER HANDLING (CRITICAL):**" ++ NL ++
  js "- The Outline (OL1) contains markers like `[DATA]`, `[EXPERT]`, `[EXAMPLE]`." ++ NL ++
  js "- You MUST **REPLACE** these markers with actual content." ++ NL ++
  js "- **DO NOT** output the bracketed tags in the final text." ++ NL ++
  js "- If you see `[DATA]` -> Write specific stats from DS1." ++ NL ++
  js "- If you see `[EXPERT]` -> Write expert advice from " ++ brandName ++ js "." ++ NL ++
  NL ++
  js "**2. IMAGES:**" ++ NL ++
  js "- **MANDATORY:** " ++ NL ++
  js "  - First line of content must be `[FEATURED_IMAGE_PROMPT: ...]`." ++ NL ++
  js "  - After every H2 section, include `[IMAGE_PROMPT: ...]`." ++ NL ++
  js "- Describe images naturally. **Important:** The Featured Image must clearly depict " ++ DQ ++ keyword ++ DQ ++ js "." ++ NL ++
  NL ++
  js "**3. Tone & Voice:**" ++ NL ++
  js "- Use " ++ DQ ++ js "We" ++ DQ ++ js " (" ++ brandName ++ js ") and " ++ DQ ++ js "You" ++ DQ ++ js "." ++ NL ++
  js "- Professional, energetic." ++ NL ++
  NL ++
  js "**4. Formatting:**" ++ NL ++
  js "- **Bold** key terms." ++ NL ++
  js "- Use Markdown Tables for data." ++ NL ++
  js "- No sentences >40 words." ++ NL ++
  js "- **DO NOT use labels like [INTRO], [BODY], [CONCLUSION]. Write the content directly.**" ++ NL ++
  NL ++
  js "Writing in English.".


Definition industryOf (language : OutputLanguage) : jsstring :=
  match language with
  | vi => jsu "Chạy bộ, Marathon, Dinh dưỡng thể thao"
  | en => js "Running, Marathon, Sports Nutrition"
  end.

Definition audienceOf (language : OutputLanguage) : jsstring :=
  match language with
  | vi => jsu "Runner Việt Nam (từ beginner đến elite)"
  | en => js "Runners (beginner to elite)"
  end.

(** [if (!chatSession) initializeSession(language)] *)
Definition ensureSession (language : OutputLanguage) : IO unit :=
  fun g =>
    match chatSession g with
    | Some _ => (Normal tt, g)
    | None => initializeSession (Some language) g
    end.

(** [if (!chatSession) throw new Error("Session not initialized")] *)
Definition requireSession : IO unit :=
  fun g =>
    match chatSession g with
    | Some _ => (Normal tt, g)
    | None => (Throw (newError (js "Session not initialized")), g)
    end.

(** The [try] block shared by the stages: send the prompt, take the text of
    the answer or [fallback], append the sources; the [catch] logs the
    error and throws it again. *)
Definition converse (prompt fallback : jsstring) : IO jsstring :=
  try_catch
    (bind (sendMessage prompt) (fun response =>
       let text := orElse (default [] (resp_text response)) fallback in
       ret (appendSources text (resp_chunks response))))
    (fun error => throw error).

Definition executeStep1 (keyword : jsstring) (language : OutputLanguage)
    : IO jsstring :=
  bind (ensureSession language) (fun _ =>
    let prompt :=
      match language with vi => promptVi1 keyword | en => promptEn1 keyword end in
    converse prompt (js "Data DS1 processed.")).

Definition executeStep2 (keyword : jsstring) (language : OutputLanguage)
    : IO jsstring :=
  bind (ensureSession language) (fun _ =>
    let prompt :=
      match language with vi => promptVi2 keyword | en => promptEn2 keyword end in
    converse prompt []).

Definition executeStep3 (language : OutputLanguage) : IO jsstring :=
  bind requireSession (fun _ =>
    let prompt := match language with vi => promptVi3 | en => promptEn3 end in
    converse prompt []).

Definition executeStep4 (keyword : jsstring) (language : OutputLanguage)
    : IO jsstring :=
  bind requireSession (fun _ =>
    let brandName := brandNameOf language in
    let industry := industryOf language in
    let audience := audienceOf language in
    let prompt :=
      match language with
      | vi => promptVi4 brandName industry audience keyword
      | en => promptEn4 brandName industry audience keyword
      end in
    converse prompt []).

(** The stages, the message each one sends and the text it falls back
    on. *)
Inductive Stage := Step1 | Step2 | Step3 | Step4.

Definition execute (stage : Stage) (keyword : jsstring)
    (language : OutputLanguage) : IO jsstring :=
  match stage with
  | Step1 => executeStep1 keyword language
  | Step2 => executeStep2 keyword language
  | Step3 => executeStep3 language
  | Step4 => executeStep4 keyword language
  end.

Definition promptOf (stage : Stage) (keyword : jsstring)
    (language : OutputLanguage) : jsstring :=
  match stage, language with
  | Step1, vi => promptVi1 keyword
  | Step1, en => promptEn1 keyword
  | Step2, vi => promptVi2 keyword
  | Step2, en => promptEn2 keyword
  | Step3, vi => promptVi3
  | Step3, en => promptEn3
  | Step4, vi =>
      promptVi4 (brandNameOf vi) (industryOf vi) (audienceOf vi) keyword
  | Step4, en =>
      promptEn4 (brandNameOf en) (industryOf en) (audienceOf en) keyword
  end.

Definition fallbackOf (stage : Stage) : jsstring :=
  match stage with
  | Step1 => js "Data DS1 processed."
  | _ => []
  end.

(** What a stage makes of the answer to its message. *)
Definition outcomeOf (stage : Stage) (c : Completion Response)
    : Completion jsstring :=
  match c with
  | Normal response =>
      Normal (appendSources
                (orElse (default [] (resp_text response)) (fallbackOf stage))
                (resp_chunks response))
  | Throw error => Throw error
  end.

(** A stage that makes a session when there is none. *)
Definition opensSession (stage : Stage) : bool :=
  match stage with
  | Step1 | Step2 => true
  | _ => false
  end.

(** The text stages of one keyword, as [processNextKeyword] calls them
    after [resetSession]. *)
Definition textStages (keyword : jsstring) (language : OutputLanguage)
    : IO jsstring :=
  bind resetSession (fun _ =>
  bind (executeStep1 keyword language) (fun _ =>
  bind (executeStep2 keyword language) (fun ideation =>
  bind (executeStep3 language) (fun outline =>
  executeStep4 keyword language)))).

End ChatService.

(** *** Chat scenarios *)

(** A service that answers every message with its number. *)
Definition countingService (transcript : list (ChatService.Chat * jsstring))
    : Completion ChatService.Response :=
  Normal (ChatService.mkResponse
            (Some (numberToString (N.of_nat (length transcript)))) None).

(** A service that fails from the third message on. *)
Definition tiringService (transcript : list (ChatService.Chat * jsstring))
    : Completion ChatService.Response :=
  if (length transcript <? 3)%nat then countingService transcript
  else Throw (ChatService.newError (js "503")).

Definition noSession : ChatService.Gemini :=
  ChatService.mkGemini None [] countingService.

Definition vietnameseSession : ChatService.Gemini :=
  ChatService.mkGemini (Some (ChatService.chatOf vi)) [] countingService.

(** * Properties *)

(** ** Strings *)

Lemma isPrefix_app (p t : jsstring) : isPrefix p (p ++ t) = true.
Proof. induction p as [|a p IH]; simpl; [done|]. by rewrite N.eqb_refl. Qed.

Lemma isPrefix_true (p s : jsstring) :
  isPrefix p s = true -> exists t, s = p ++ t.
Proof.
  revert s. induction p as [|a p IH]; intros s H; simpl in *.
  - by exists s.
  - destruct s as [|b s]; [done|].
    apply andb_true_iff in H as [Hab Hp]. apply N.eqb_eq in Hab as ->.
    destruct (IH _ Hp) as [t ->]. by exists t.
Qed.

Lemma isPrefix_false (p s t : jsstring) :
  isPrefix p s = false -> s <> p ++ t.
Proof. intros H ->. by rewrite isPrefix_app in H. Qed.

(** The offset found by [indexOf] is that of an occurrence, and no
    occurrence starts before it. *)
Lemma indexOf_Some (pat s : jsstring) (i : nat) :
  indexOf pat s = Some i ->
  s = take i s ++ pat ++ drop (i + length pat) s /\
  (forall j, (j < i)%nat -> isPrefix pat (drop j s) = false).
Proof.
  revert i. induction s as [|c s IH]; intros i H; simpl in H.
  - destruct (isPrefix pat []) eqn:E; [|done].
    injection H as <-. apply isPrefix_true in E as [t E].
    symmetry in E. apply app_eq_nil in E as [-> ->]. split; [done|intros; lia].
  - destruct (isPrefix pat (c :: s)) eqn:E.
    + injection H as <-. apply isPrefix_true in E as [t E]. split; [|intros; lia].
      simpl. rewrite E at 1. rewrite E, drop_app_length. done.
    + destruct (indexOf pat s) as [k|] eqn:Ek; [|done]. injection H as <-.
      destruct (IH k eq_refl) as [H1 H2]. split.
      * simpl. by rewrite <- H1.
      * intros [|j] Hj; simpl; [done|]. apply H2. lia.
Qed.

Lemma indexOf_None (pat s : jsstring) (j : nat) :
  indexOf pat s = None -> isPrefix pat (drop j s) = false.
Proof.
  revert j. induction s as [|c s IH]; intros j H; simpl in H.
  - destruct (isPrefix pat []) eqn:E; [done|]. by rewrite drop_nil.
  - destruct (isPrefix pat (c :: s)) eqn:E; [done|].
    destruct (indexOf pat s) eqn:Ek; [done|].
    destruct j as [|j]; simpl; [done|]. by apply IH.
Qed.

Lemma indexOf_lt (pat s : jsstring) (i : nat) :
  indexOf pat s = Some i -> (i + length pat <= length s)%nat.
Proof.
  revert i. induction s as [|c s IH]; intros i H; simpl in H.
  - destruct (isPrefix pat []) eqn:E; [|done]. injection H as <-.
    apply isPrefix_true in E as [t E]. symmetry in E.
    apply app_eq_nil in E as [-> ->]. simpl. lia.
  - destruct (isPrefix pat (c :: s)) eqn:E.
    + injection H as <-. apply isPrefix_true in E as [t E].
      rewrite E, length_app. lia.
    + destruct (indexOf pat s) as [k|] eqn:Ek; [|done]. injection H as <-.
      specialize (IH k eq_refl). simpl. lia.
Qed.

Lemma getSubstitution_nil (matched before after : jsstring) :
  getSubstitution matched before after [] = [].
Proof. done. Qed.

(** A replacement without a dollar sign stands for itself. *)
Lemma getSubstitution_plain (matched before after repl : jsstring) :
  Forall (fun c => c <> 36) repl ->
  getSubstitution matched before after repl = repl.
Proof.
  induction 1 as [|c r Hc _ IH]; simpl; [done|].
  destruct (N.eqb_spec c 36); [done|]. by rewrite IH.
Qed.

(** *** [trim] *)

Lemma trimStart_spec (s : jsstring) :
  exists a, s = a ++ trimStart s /\ Forall (fun c => isWhiteSpace c = true) a.
Proof.
  induction s as [|c s (a & IH1 & IH2)]; simpl.
  - by exists [].
  - destruct (isWhiteSpace c) eqn:E.
    + exists (c :: a). split; [simpl; congruence|by constructor].
    + by exists [].
Qed.

Lemma trimStart_head (s : jsstring) (c : N) :
  head (trimStart s) = Some c -> isWhiteSpace c = false.
Proof.
  induction s as [|d s IH]; simpl; [done|].
  destruct (isWhiteSpace d) eqn:E; [done|]. simpl. by intros [= <-].
Qed.

Lemma trimStart_white (s : jsstring) :
  Forall (fun c => isWhiteSpace c = true) s -> trimStart s = [].
Proof. induction 1 as [|c s Hc _ IH]; simpl; [done|]. by rewrite Hc. Qed.

Lemma trimStart_nil_white (s : jsstring) :
  trimStart s = [] -> Forall (fun c => isWhiteSpace c = true) s.
Proof.
  destruct (trimStart_spec s) as (a & H1 & H2). intros E.
  rewrite E, app_nil_r in H1. by subst.
Qed.

Lemma trimStart_app_keep (s t : jsstring) (c : N) :
  head (trimStart s) = Some c -> trimStart (s ++ t) = trimStart s ++ t.
Proof.
  induction s as [|d s IH]; simpl; [done|].
  destruct (isWhiteSpace d) eqn:E; [done|]. done.
Qed.

Lemma trimEnd_spec (s : jsstring) :
  exists b, s = trimEnd s ++ b /\ Forall (fun c => isWhiteSpace c = true) b.
Proof.
  unfold trimEnd. destruct (trimStart_spec (reverse s)) as (a & H1 & H2).
  exists (reverse a). split.
  - rewrite <- reverse_app, <- H1. by rewrite reverse_involutive.
  - by apply Forall_reverse.
Qed.

Lemma trimEnd_last (s : jsstring) (c : N) :
  last (trimEnd s) = Some c -> isWhiteSpace c = false.
Proof.
  unfold trimEnd. rewrite last_reverse. apply trimStart_head.
Qed.

Lemma trimEnd_nil : trimEnd [] = [].
Proof. done. Qed.

(** [trim] removes a run of white space at either end and nothing else, and
    what is left neither starts nor ends with white space. *)
Lemma trim_spec (s : jsstring) :
  exists a b,
    s = a ++ trim s ++ b /\
    Forall (fun c => isWhiteSpace c = true) a /\
    Forall (fun c => isWhiteSpace c = true) b /\
    (forall c, head (trim s) = Some c -> isWhiteSpace c = false) /\
    (forall c, last (trim s) = Some c -> isWhiteSpace c = false).
Proof.
  unfold trim. destruct (trimStart_spec s) as (a & Ha & Hwa).
  destruct (trimEnd_spec (trimStart s)) as (b & Hb & Hwb).
  exists a, b. repeat split; try done.
  - by rewrite <- Hb.
  - intros c Hc. apply (trimStart_head s). rewrite Hb.
    destruct (trimEnd (trimStart s)); simplify_eq/=. done.
  - apply trimEnd_last.
Qed.

Lemma trim_nil_iff (s : jsstring) :
  trim s = [] <-> Forall (fun c => isWhiteSpace c = true) s.
Proof.
  split.
  - intros E. destruct (trim_spec s) as (a & b & H & Ha & Hb & _).
    rewrite E in H. subst s. by apply Forall_app.
  - intros H. unfold trim. by rewrite (trimStart_white _ H).
Qed.

(** *** [split] and [join] *)

Lemma split_fuel_nonempty (fuel : nat) (sep s : jsstring) :
  split_fuel fuel sep s <> [].
Proof. destruct fuel; simpl; [done|]. by destruct (indexOf sep s). Qed.

Lemma join_cons (p : jsstring) (ps : list jsstring) (sep : jsstring) :
  ps <> [] -> join (p :: ps) sep = p ++ sep ++ join ps sep.
Proof. by destruct ps. Qed.

(** Joining the pieces with the separator gives the string back. *)
Lemma split_fuel_join (fuel : nat) (sep s : jsstring) :
  join (split_fuel fuel sep s) sep = s.
Proof.
  revert s. induction fuel as [|fuel IH]; intros s; simpl; [done|].
  destruct (indexOf sep s) as [i|] eqn:E; [|done].
  rewrite join_cons by apply split_fuel_nonempty.
  rewrite IH. by apply indexOf_Some in E as [<- _].
Qed.

Lemma indexOf_None_intro (pat s : jsstring) :
  (forall j, isPrefix pat (drop j s) = false) -> indexOf pat s = None.
Proof.
  induction s as [|c s IH]; intros H; simpl.
  - pose proof (H 0%nat) as H0. simpl in H0. by rewrite H0.
  - pose proof (H 0%nat) as H0. simpl in H0. rewrite H0.
    rewrite IH; [done|]. intros j. apply (H (S j)).
Qed.

Lemma isPrefix_take (pat s : jsstring) (n : nat) :
  isPrefix pat (take n s) = true -> isPrefix pat s = true.
Proof.
  intros H. apply isPrefix_true in H as [t H].
  rewrite <- (take_drop n s), H, <- app_assoc. apply isPrefix_app.
Qed.

(** No separator is left in the text before the leftmost occurrence. *)
Lemma indexOf_take (pat s : jsstring) (i : nat) :
  pat <> [] -> indexOf pat s = Some i -> indexOf pat (take i s) = None.
Proof.
  intros Hne E. apply indexOf_None_intro. intros j.
  destruct (isPrefix pat (drop j (take i s))) eqn:P; [|done]. exfalso.
  destruct (decide (j < i)%nat) as [Hj|Hj].
  - pose proof (indexOf_lt _ _ _ E) as Hi.
    apply indexOf_Some in E as [_ Hmin]. specialize (Hmin j Hj).
    assert (drop j s = drop j (take i s) ++ drop i s) as Hd.
    { rewrite <- (take_drop i s) at 1.
      rewrite drop_app_le; [done|rewrite length_take; lia]. }
    apply isPrefix_true in P as [t P].
    rewrite Hd, P, <- app_assoc, isPrefix_app in Hmin. done.
  - rewrite drop_ge in P by (rewrite length_take; lia).
    destruct pat; done.
Qed.

(** With fuel for every code unit, no piece contains the separator. *)
Lemma split_fuel_pieces (fuel : nat) (sep s : jsstring) :
  sep <> [] -> (length s <= fuel)%nat ->
  Forall (fun p => indexOf sep p = None) (split_fuel fuel sep s).
Proof.
  intros Hne. revert s. induction fuel as [|fuel IH]; intros s Hlen; simpl.
  - destruct s; [|simpl in Hlen; lia]. constructor; [|done].
    destruct sep; done.
  - destruct (indexOf sep s) as [i|] eqn:E; [|by repeat constructor].
    constructor; [by apply indexOf_take|]. apply IH.
    rewrite length_drop. pose proof (indexOf_lt _ _ _ E).
    destruct sep; [done|]. simpl in *. lia.
Qed.

Lemma indexOf_single_None (c : N) (s : jsstring) :
  indexOf [c] s = None <-> c ∉ s.
Proof.
  induction s as [|d s IH]; simpl.
  - split; [intros _; apply not_elem_of_nil|done].
  - destruct (N.eqb_spec c d) as [->|Hne]; simpl.
    + split; [done|]. intros H. exfalso. apply H. left.
    + destruct (indexOf [c] s) eqn:E; simpl.
      * split; [done|]. intros H. exfalso. apply not_elem_of_cons in H as [_ H].
        by apply IH in H.
      * split; [|done]. intros _. apply not_elem_of_cons. split; [done|].
        by apply IH.
Qed.

(** The lines of a text: cut at every line feed. *)
Lemma split_lines (s : jsstring) :
  join (split s NL) NL = s /\ Forall (fun l => 10 ∉ l) (split s NL).
Proof.
  split; [apply split_fuel_join|].
  eapply Forall_impl; [apply split_fuel_pieces; [done|unfold split; lia]|].
  intros l. apply indexOf_single_None.
Qed.

(** *** The keyword list *)


Lemma keywordsOf_blank (bulkInput : jsstring) :
  Forall (Forall (fun c => isWhiteSpace c = true)) (split bulkInput NL) ->
  keywordsOf bulkInput = [].
Proof.
  unfold keywordsOf. induction 1 as [|l ls Hl _ IH]; simpl; [done|].
  apply trim_nil_iff in Hl as ->. done.
Qed.

(** ** The run monad *)

Section MonadFacts.
Context {World : Type}.
Implicit Types (r : @Run World).

Lemma total_ret {A} (a : A) : total (World:=World) (ret a).
Proof. intros r. by eexists _, _. Qed.

Lemma total_bind {A B} (m : M A) (f : A -> @M World B) :
  total m -> (forall a, total (f a)) -> total (bind m f).
Proof.
  intros Hm Hf r. unfold bind. destruct (Hm r) as (a & r1 & ->). apply Hf.
Qed.

Lemma total_try_catch {A} (m : @M World A) (h : JsError -> M A) :
  (forall e, total (h e)) -> total (try_catch m h).
Proof.
  intros Hh r. unfold try_catch. destruct (m r) as [[a|e] r1].
  - by eexists _, _.
  - apply Hh.
Qed.

Lemma total_detached (m : @M World unit) : total (detached m).
Proof.
  intros r. unfold detached. destruct (m r) as [[a|e] r1]; by eexists _, _.
Qed.

Lemma total_setState (f : AppState -> AppState) : total (World:=World) (setState f).
Proof. intros r. by eexists _, _. Qed.

Lemma total_record (e : Effect) : total (World:=World) (record e).
Proof. intros r. by eexists _, _. Qed.

Lemma total_sleep (ms : Z) : total (World:=World) (sleep ms).
Proof. apply total_record. Qed.

Lemma total_callTotal {A} (e : Effect) (f : World -> A * World) :
  total (callTotal e f).
Proof.
  intros r. unfold callTotal. destruct (f (world r)) as [a w]. by eexists _, _.
Qed.

Lemma total_now (env : Env World) : total (now env).
Proof. intros r. by eexists _, _. Qed.

Lemma steady_ret {A} J (a : A) : steady (World:=World) J (ret a).
Proof.
  intros r. exists (Normal a), r, []. by rewrite app_nil_r.
Qed.

Lemma steady_bind {A B} J (m : M A) (f : A -> @M World B) :
  steady J m -> (forall a, steady J (f a)) -> steady J (bind m f).
Proof.
  intros Hm Hf r. unfold bind.
  destruct (Hm r) as (c & r1 & new1 & -> & Hl1 & Hc1 & Hn1).
  destruct c as [a|e].
  - destruct (Hf a r1) as (c2 & r2 & new2 & -> & Hl2 & Hc2 & Hn2).
    exists c2, r2, (new1 ++ new2). repeat split.
    + by rewrite Hl2, Hl1, app_assoc.
    + congruence.
    + apply Forall_app. split; [done|].
      eapply Forall_impl; [exact Hn2|]. intros p [? ?]. split; congruence.
  - by exists (Throw e), r1, new1.
Qed.

Lemma steady_try_catch {A} J (m : @M World A) (h : JsError -> M A) :
  steady J m -> (forall e, steady J (h e)) -> steady J (try_catch m h).
Proof.
  intros Hm Hh r. unfold try_catch.
  destruct (Hm r) as (c & r1 & new1 & -> & Hl1 & Hc1 & Hn1).
  destruct c as [a|e].
  - by exists (Normal a), r1, new1.
  - destruct (Hh e r1) as (c2 & r2 & new2 & -> & Hl2 & Hc2 & Hn2).
    exists c2, r2, (new1 ++ new2). repeat split.
    + by rewrite Hl2, Hl1, app_assoc.
    + congruence.
    + apply Forall_app. split; [done|].
      eapply Forall_impl; [exact Hn2|]. intros p [? ?]. split; congruence.
Qed.

Lemma steady_setState J (f : AppState -> AppState) :
  (forall a, counters (f a) = counters a) ->
  steady (World:=World) J (setState f).
Proof.
  intros Hf r. exists (Normal tt), (mkRun (f (comp r)) (world r) (log r)), [].
  simpl. by rewrite app_nil_r.
Qed.

Lemma steady_record (J : Effect -> Prop) (e : Effect) :
  J e -> steady (World:=World) J (record e).
Proof.
  intros He r. eexists _, _, [(e, comp r)]. repeat split; simpl; try done.
  by repeat constructor.
Qed.

Lemma steady_call {A} (J : Effect -> Prop) (e : Effect)
    (f : World -> Completion A * World) :
  J e -> steady J (call e f).
Proof.
  intros He r. unfold call. destruct (f (world r)) as [c w].
  eexists _, _, [(e, comp r)]. repeat split; simpl; try done.
  by repeat constructor.
Qed.

Lemma steady_callTotal {A} (J : Effect -> Prop) (e : Effect)
    (f : World -> A * World) :
  J e -> steady J (callTotal e f).
Proof.
  intros He r. unfold callTotal. destruct (f (world r)) as [c w].
  eexists _, _, [(e, comp r)]. repeat split; simpl; try done.
  by repeat constructor.
Qed.

Lemma steady_now J (env : Env World) : steady J (now env).
Proof. intros r. exists (Normal (dateNow env (world r))), r, []. by rewrite app_nil_r. Qed.


End MonadFacts.

(** ** The image retry wrapper *)

Section RetryFacts.
Context {World : Type} (env : Env World).
Implicit Types (r : @Run World).

Lemma generateBlogImage_while_total (fuel attempt : nat) (prompt : jsstring) :
  total (generateBlogImage_while env fuel attempt prompt).
Proof.
  revert attempt. induction fuel as [|fuel IH]; intros attempt; simpl.
  - apply total_ret.
  - destruct (attempt <? maxRetries)%nat; [|apply total_ret].
    apply total_try_catch. intros e.
    destruct (isRateLimit e); [|apply total_ret].
    destruct (S attempt <? maxRetries)%nat; [|apply total_ret].
    apply total_bind; [apply total_sleep|]. intros _. apply IH.
Qed.

Lemma generateBlogImage_total (prompt : jsstring) :
  total (generateBlogImage env prompt).
Proof.
  apply total_bind; [apply total_record|]. intros _.
  apply generateBlogImage_while_total.
Qed.

(** One turn of the loop, by the answer of the image model. *)
Lemma generateBlogImage_while_step (fuel attempt : nat) (prompt : jsstring) r :
  (attempt < maxRetries)%nat ->
  generateBlogImage_while env (S fuel) attempt prompt r =
  let fp := finalPromptOf prompt in
  let '(c, w) := generateContent env fp (world r) in
  let r1 := logged r w (EGenerateContent fp) in
  match c with
  | Normal parts => (Normal (imageOf env parts), r1)
  | Throw error =>
      if isRateLimit error then
        if (S attempt <? maxRetries)%nat then
          generateBlogImage_while env fuel (S attempt) prompt
            (logged r1 w (ESetTimeout (waitTimeOf (S attempt))))
        else (Normal None, r1)
      else (Normal None, r1)
  end.
Proof.
  intros Ha. simpl. apply Nat.ltb_lt in Ha as ->.
  unfold try_catch, bind, call, imageOf, logged. simpl.
  destruct (generateContent env (finalPromptOf prompt) (world r)) as [[parts|e] w].
  - by destruct (firstInlineData parts) as [[mimeType data]|].
  - destruct (isRateLimit e); [|done].
    destruct (S attempt <? maxRetries)%nat; done.
Qed.

(** [maxRetries] turns of fuel are as good as any larger amount. *)
Lemma generateBlogImage_fuel (fuel attempt : nat) (prompt : jsstring) r :
  (maxRetries - attempt <= fuel)%nat ->
  generateBlogImage_while env (S fuel) attempt prompt r =
  generateBlogImage_while env fuel attempt prompt r.
Proof.
  revert attempt r. induction fuel as [|fuel IH]; intros attempt r Hf.
  - simpl. destruct (Nat.ltb_spec attempt maxRetries); [lia|done].
  - destruct (Nat.ltb_spec attempt maxRetries) as [Ha|Ha].
    + rewrite !generateBlogImage_while_step by done. cbv zeta.
      destruct (generateContent env (finalPromptOf prompt) (world r)) as [[parts|e] w];
        [done|].
      destruct (isRateLimit e); [|done].
      destruct (Nat.ltb_spec (S attempt) maxRetries); [|done].
      apply IH. lia.
    + simpl. destruct (Nat.ltb_spec attempt maxRetries); [lia|done].
Qed.

Lemma generateBlogImage_while_shape (fuel attempt : nat) (prompt : jsstring) r :
  (attempt < maxRetries)%nat -> (maxRetries - attempt <= fuel)%nat ->
  exists v r' l,
    generateBlogImage_while env fuel attempt prompt r = (Normal v, r') /\
    map fst (log r') = map fst (log r) ++ l /\
    retryTrace (finalPromptOf prompt) attempt l.
Proof.
  revert attempt r. induction fuel as [|fuel IH]; intros attempt r Ha Hf; [lia|].
  rewrite generateBlogImage_while_step by done. cbv zeta.
  destruct (generateContent env (finalPromptOf prompt) (world r)) as [[parts|e] w].
  - eexists _, _, _. split; [done|]. simpl. rewrite map_app. split; [done|].
    by constructor.
  - destruct (isRateLimit e).
    + destruct (Nat.ltb_spec (S attempt) maxRetries) as [Hs|Hs].
      * edestruct (IH (S attempt)) as (v & r' & l & -> & Hl & Ht); [done|lia|].
        eexists _, _, _. split; [done|]. split.
        { rewrite Hl. simpl. rewrite !map_app. simpl.
          rewrite <- !app_assoc. simpl. reflexivity. }
        by apply retry_again.
      * eexists _, _, _. split; [done|]. simpl. rewrite map_app.
        split; [done|]. by constructor.
    + eexists _, _, _. split; [done|]. simpl. rewrite map_app. split; [done|].
      by constructor.
Qed.



Lemma waitTimeOf_ge (attempt : nat) :
  (1 <= attempt)%nat -> (5000 <= waitTimeOf attempt)%Z.
Proof.
  intros H. unfold waitTimeOf.
  assert (0 < 2 ^ (Z.of_nat attempt - 1))%Z by (apply Z.pow_pos_nonneg; lia).
  lia.
Qed.

Lemma retryTrace_J (J : Effect -> Prop) (fp : jsstring) (attempt : nat)
    (l : list Effect) :
  J (EGenerateContent fp) ->
  (forall ms, (5000 <= ms)%Z -> J (ESetTimeout ms)) ->
  retryTrace fp attempt l -> Forall J l.
Proof.
  intros H1 H2. induction 1; repeat constructor; try done.
  apply H2, waitTimeOf_ge. lia.
Qed.

End RetryFacts.

(** ** The queue *)

Section QueueFacts.
Context {World : Type} (env : Env World).
Implicit Types (r : @Run World).

Lemma steady_generateBlogImage_while (J : Effect -> Prop)
    (fuel attempt : nat) (prompt : jsstring) :
  J (EGenerateContent (finalPromptOf prompt)) ->
  (forall ms, (5000 <= ms)%Z -> J (ESetTimeout ms)) ->
  steady J (generateBlogImage_while env fuel attempt prompt).
Proof.
  intros H1 H2. revert attempt.
  induction fuel as [|fuel IH]; intros attempt; simpl; [apply steady_ret|].
  destruct (attempt <? maxRetries)%nat; [|apply steady_ret].
  apply steady_try_catch.
  - apply steady_bind; [by apply steady_call|]. intros parts.
    destruct (firstInlineData parts) as [[? ?]|]; apply steady_ret.
  - intros e. destruct (isRateLimit e); [|apply steady_ret].
    destruct (S attempt <? maxRetries)%nat; [|apply steady_ret].
    apply steady_bind; [|intros _; apply IH].
    apply steady_record, H2, (waitTimeOf_ge (S attempt)). lia.
Qed.

Lemma steady_generateBlogImage (J : Effect -> Prop) (prompt : jsstring) :
  J (EGenerateBlogImage prompt) ->
  J (EGenerateContent (finalPromptOf prompt)) ->
  (forall ms, (5000 <= ms)%Z -> J (ESetTimeout ms)) ->
  steady J (generateBlogImage env prompt).
Proof.
  intros H0 H1 H2. apply steady_bind; [by apply steady_record|]. intros _.
  by apply steady_generateBlogImage_while.
Qed.


Lemma total_resolveImages (keyword : jsstring) (total_ : nat) (ms : list Match)
    (finalArticle : jsstring) (n : nat) :
  total (resolveImages env keyword total_ ms finalArticle n).
Proof.
  revert finalArticle n.
  induction ms as [|m ms IH]; intros finalArticle n; simpl; [apply total_ret|].
  apply total_bind; [apply total_setState|]. intros _.
  apply total_bind; [apply generateBlogImage_total|]. intros v.
  apply total_bind; [apply total_setState|]. intros _.
  apply total_bind; [|intros _; apply IH].
  destruct (S n <? total_)%nat; [apply total_sleep|apply total_ret].
Qed.




Lemma steady_recoverKeyword (keyword : jsstring) (selectedLang : OutputLanguage)
    (error : JsError) :
  steady inFlight (recoverKeyword env keyword selectedLang error).
Proof.
  unfold recoverKeyword.
  repeat first
    [ apply steady_bind; [|intros ?]
    | by apply steady_setState
    | by apply steady_callTotal
    | apply steady_now
    | by apply steady_record ].
Qed.

Lemma total_recoverKeyword (keyword : jsstring) (selectedLang : OutputLanguage)
    (error : JsError) :
  total (recoverKeyword env keyword selectedLang error).
Proof.
  unfold recoverKeyword.
  repeat first
    [ apply total_bind; [|intros ?]
    | apply total_setState
    | apply total_callTotal
    | apply total_now
    | apply total_record ].
Qed.

End QueueFacts.





Section RunFacts.
Context {World : Type} (env : Env World).
Implicit Types (r : @Run World).




End RunFacts.

(** ** Claims on the queue *)



Section QueueClaims.
Context {World : Type}.
Implicit Types (env : Env World) (r : @Run World).






End QueueClaims.



(** C1, the code at the failing input.  The list [A], [B] is processed by
    a freshly mounted component whose stages go through for [A] and throw
    for [B]: the run ends in [COMPLETE] with [totalCount] 2 and
    [completedCount] -1.  Were the closure to read the run's own total, the
    run would end with [completedCount] 1: the [catch] branch does not
    raise the counter. *)
Theorem bulk_AB_completed_count :
  let env := scenario plainArticle (Normal [jpegPart]) in
  let input := js "A" ++ NL ++ js "B" in
  (let a := comp (snd (clickStart env (freshRun input))) in
   status a = COMPLETE /\ queue a = [] /\ totalCount a = 2%Z /\
   completedCount a = (-1)%Z) /\
  (let a := comp (snd (processNextKeyword env 2 [js "A"; js "B"] vi
                        (snd (startRun [js "A"; js "B"] (freshRun input))))) in
   status a = COMPLETE /\ queue a = [] /\ totalCount a = 2%Z /\
   completedCount a = 1%Z).
Proof. vm_compute. repeat split. Qed.


(** ** Claims on the retry wrapper and on the keyword list *)

Lemma isRateLimit_iff (error : JsError) :
  isRateLimit error = true <->
  err_status error = Some 429%Z \/ err_code error = Some 429%Z \/
  exists msg, err_message error = Some msg /\
              (includes msg (js "429") = true \/ includes msg (js "quota") = true).
Proof.
  unfold isRateLimit. rewrite !orb_true_iff. split.
  - intros [[H|H]|H].
    + left. destruct (err_status error) as [[|[p|p|]|]|]; try done.
      repeat (destruct p as [p|p|]; try done).
    + right; left. destruct (err_code error) as [[|[p|p|]|]|]; try done.
      repeat (destruct p as [p|p|]; try done).
    + right; right. destruct (err_message error) as [msg|]; [|done].
      exists msg. split; [done|]. by apply orb_true_iff.
  - intros [H|[H|(msg & H & Hm)]].
    + left; left. by rewrite H.
    + left; right. by rewrite H.
    + right. rewrite H. by apply orb_true_iff.
Qed.

Section RetryClaims.
Context {World : Type} (env : Env World).
Implicit Types (r : @Run World).



End RetryClaims.



(** ** The matcher *)








(** ** Substitution at a known place *)

Lemma indexOf_here (pat s : jsstring) : indexOf pat (pat ++ s) = Some 0%nat.
Proof. destruct pat; simpl; [by destruct s|]. by rewrite N.eqb_refl, isPrefix_app. Qed.

Lemma indexOf_cons_miss (pat : jsstring) (c : N) (s : jsstring) :
  isPrefix pat (c :: s) = false ->
  indexOf pat (c :: s) = S <$> indexOf pat s.
Proof. intros H. simpl indexOf. by rewrite H. Qed.

(** Code units other than the first of the pattern are passed over. *)
Lemma indexOf_skip (c : N) (pat pre s : jsstring) :
  Forall (fun x => x <> c) pre ->
  indexOf (c :: pat) (pre ++ s) = (fun i => length pre + i)%nat <$> indexOf (c :: pat) s.
Proof.
  induction 1 as [|x pre Hx _ IH]; simpl app.
  - by destruct (indexOf (c :: pat) s).
  - rewrite indexOf_cons_miss.
    + rewrite IH. by destruct (indexOf (c :: pat) s).
    + simpl. apply N.eqb_neq in Hx. rewrite N.eqb_sym in Hx. by rewrite Hx.
Qed.

Lemma replace_at (pre tag post repl : jsstring) :
  indexOf tag (pre ++ tag ++ post) = Some (length pre) ->
  replace (pre ++ tag ++ post) tag repl =
  pre ++ getSubstitution tag pre post repl ++ post.
Proof.
  intros H. unfold replace. rewrite H.
  rewrite take_app_length.
  replace (drop (length pre + length tag) (pre ++ tag ++ post)) with post.
  - done.
  - rewrite app_assoc. rewrite <- length_app. by rewrite drop_app_length.
Qed.

(** ** Export *)



Lemma numberToString_nonempty (n : N) : numberToString n <> [].
Proof.
  unfold numberToString, NilZero.string_of_uint.
  destruct (N.to_uint n) as [|d|d|d|d|d|d|d|d|d|d]; done.
Qed.

(** ** Replacing every occurrence *)








(** ** The package loop *)
















Lemma blocksAfter_0 (segs : list (ImageRef * jsstring)) :
  blocksAfter 0 segs = dataBlocks segs.
Proof. done. Qed.






(** ** The image loop *)



Section ImageLoop.
Context {World : Type} (env : Env World).
Implicit Types (r : @Run World).

Lemma generateBlogImage_shape (prompt : jsstring) r :
  exists v r' l,
    generateBlogImage env prompt r = (Normal v, r') /\
    map fst (log r') = map fst (log r) ++ EGenerateBlogImage prompt :: l /\
    retryTrace (finalPromptOf prompt) 0 l.
Proof.
  unfold generateBlogImage, bind, record.
  edestruct (generateBlogImage_while_shape env maxRetries 0 prompt)
    as (v & r' & l & -> & Hl & Ht); [unfold maxRetries; lia|lia|].
  exists v, r', l. split; [done|]. split; [|done].
  rewrite Hl. simpl. rewrite map_app. simpl. by rewrite <- app_assoc.
Qed.

(** An image model that answers: one request, no pause. *)
Lemma generateBlogImage_answer (prompt : jsstring) r (parts : list Part) (w : World) :
  generateContent env (finalPromptOf prompt) (world r) = (Normal parts, w) ->
  generateBlogImage env prompt r =
  (Normal (imageOf env parts),
   mkRun (comp r) w
     (log r ++ [(EGenerateBlogImage prompt, comp r);
                (EGenerateContent (finalPromptOf prompt), comp r)])).
Proof.
  intros H. unfold generateBlogImage, bind, record.
  change maxRetries with 5%nat.
  rewrite generateBlogImage_while_step by (unfold maxRetries; lia).
  cbv zeta. cbn [world]. rewrite H. unfold logged. cbn [comp log].
  by rewrite <- app_assoc.
Qed.

(** One turn of the [for] loop over the matches. *)
Lemma resolveImages_step (keyword : jsstring) (total : nat) (m : Match)
    (ms : list Match) (finalArticle : jsstring) (n : nat) r :
  resolveImages env keyword total (m :: ms) finalArticle n r =
  let isFeatured := includes (m_full m) (js "FEATURED_IMAGE_PROMPT") in
  let r0 := updated (upd_statusMessage (imageStatus keyword n total isFeatured)) r in
  match generateBlogImage env (group m 0) r0 with
  | (Normal v, r1) =>
      let article := substituted finalArticle m v in
      let r2 := updated (upd_articleResult article) r1 in
      resolveImages env keyword total ms article (S n)
        (if (S n <? total)%nat then logged r2 (world r2) (ESetTimeout 6000)
         else r2)
  | (Throw e, r1) => (Throw e, r1)
  end.
Proof.
  cbn [resolveImages]. cbv zeta.
  unfold bind, setState, updated, substituted, imageStatus, logged, sleep,
    record, ret.
  cbn [comp world log].
  destruct (generateBlogImage env (group m 0) _) as [[v|e] r1]; [|done].
  destruct (truthy v); destruct (S n <? total)%nat; reflexivity.
Qed.


End ImageLoop.

(** ** Placeholder tags in any letter case *)





Lemma starGreedy_run {R : Type} (p : N -> bool) (k : jsstring -> option R)
    (pre post : jsstring) (x : R) :
  Forall (fun c => p c = true) pre ->
  (forall c, head post = Some c -> p c = false) ->
  k post = Some x ->
  starGreedy p k (pre ++ post) = Some x.
Proof.
  intros Hpre Hpost Hk. induction Hpre as [|c pre Hc _ IH]; simpl.
  - destruct post as [|c post]; simpl; [done|]. by rewrite (Hpost c eq_refl).
  - by rewrite Hc, IH.
Qed.


Lemma take_app_sub {A} (a b : list A) :
  take (length (a ++ b) - length b) (a ++ b) = a.
Proof.
  rewrite length_app, Nat.add_sub. apply take_app_length.
Qed.


(** ** What the package export extracts *)

Lemma rmatch_rlit {R : Type} (pat s : jsstring) (caps : captures)
    (k : jsstring -> captures -> option R) :
  rmatch (rlit pat) s caps k =
  if isPrefix pat s then k (drop (length pat) s) caps else None.
Proof.
  revert s. induction pat as [|c pat IH]; intros s; [done|].
  destruct pat as [|c2 pat].
  - destruct s as [|x s]; simpl; [done|]. destruct (c =? x); [|done].
    by rewrite drop_0.
  - change (rlit (c :: c2 :: pat)) with (RSeq (lit1 c) (rlit (c2 :: pat))).
    destruct s as [|x s]; [done|]. cbn [rmatch lit1].
    cbn [isPrefix]. destruct (c =? x); [|done]. cbn [andb]. by rewrite IH.
Qed.










(** ** The extension of a file and the declared type *)




(** ** Claims on the image loop *)




(** C7, as amended.  When the image of a placeholder is not generated, the
    substitution cuts the leftmost occurrence of the placeholder's text out
    of the article as it stands and leaves every other code unit where it
    is; an article that no longer holds the text is left as it is. *)
Theorem failed_image_cuts_leftmost_tag (World : Type) (env : Env World)
    (keyword : jsstring) (total : nat) (m : Match) (ms : list Match)
    (article : jsstring) (n : nat) (r r1 : Run) (v : option jsstring) :
  generateBlogImage env (group m 0)
    (updated (upd_statusMessage
                (imageStatus keyword n total
                   (includes (m_full m) (js "FEATURED_IMAGE_PROMPT")))) r)
  = (Normal v, r1) ->
  truthy v = false ->
  exists article' r2,
    resolveImages env keyword total (m :: ms) article n r =
    resolveImages env keyword total ms article' (S n) r2 /\
    articleResult (comp r2) = article' /\
    match indexOf (m_full m) article with
    | None => article' = article
    | Some i =>
        article = take i article ++ m_full m ++ drop (i + length (m_full m)) article /\
        article' = take i article ++ drop (i + length (m_full m)) article /\
        (forall j, (j < i)%nat -> isPrefix (m_full m) (drop j article) = false)
    end.
Proof.
  intros Hgen Hv. rewrite resolveImages_step. cbv zeta. rewrite Hgen.
  eexists _, _. split; [reflexivity|]. split.
  { by destruct (S n <? total)%nat. }
  unfold substituted. cbv zeta. rewrite Hv. unfold replace.
  destruct (indexOf (m_full m) article) as [i|] eqn:E; [|done].
  apply indexOf_Some in E as [H1 H2]. by rewrite getSubstitution_nil.
Qed.

Lemma failed_image_cuts_leftmost_tag_witness :
  exists r2,
    resolveImages (scenario plainArticle (Normal [])) (js "A") 1
      (matchAll 1 imageRegex (js "one [IMAGE_PROMPT: y] two"))
      (js "one [IMAGE_PROMPT: y] two") 0 (freshRun [])
    = (Normal (js "one  two"), r2).
Proof.
  destruct (failed_image_cuts_leftmost_tag _
              (scenario plainArticle (Normal [])) (js "A") 1
              (mkMatch 4 (js "[IMAGE_PROMPT: y]") [Some (js "y")]) []
              (js "one [IMAGE_PROMPT: y] two") 0 (freshRun [])
              (snd (generateBlogImage (scenario plainArticle (Normal [])) (js "y")
                      (updated (upd_statusMessage
                                  (imageStatus (js "A") 0 1 false)) (freshRun []))))
              None)
    as (article' & r2 & Hrun & _ & Hcut).
  - vm_compute. reflexivity.
  - reflexivity.
  - exists r2.
    change (matchAll 1 imageRegex (js "one [IMAGE_PROMPT: y] two"))
      with [mkMatch 4 (js "[IMAGE_PROMPT: y]") [Some (js "y")]].
    rewrite Hrun.
    change (indexOf (js "[IMAGE_PROMPT: y]") (js "one [IMAGE_PROMPT: y] two"))
      with (Some 4%nat) in Hcut.
    destruct Hcut as (_ & -> & _). reflexivity.
Defined.

(** C7 fails as stated.  No image is generated for the two placeholders of
    [nestedArticle].  Cutting the two matched spans out of it leaves
    [[IMAGE_PROMPT: b] mid ]; the loop leaves [ mid [IMAGE_PROMPT: b]]: the
    second substitution removes text that surrounded the first placeholder
    and keeps the span that was matched. *)
Lemma failed_image_cuts_other_text :
  let ms := matchAll 1 imageRegex nestedArticle in
  map m_index ms = [7; 39]%nat /\
  map m_full ms = [js "[IMAGE_PROMPT: a]"; js "[IMAGE_PROMPT: b]"] /\
  spliceMatches nestedArticle 0 ms [] = js "[IMAGE_PROMPT: b] mid " /\
  fst (resolveImages (scenario nestedArticle (Normal [])) (js "A") 2 ms
         nestedArticle 0 (freshRun []))
  = Normal (js " mid [IMAGE_PROMPT: b]") /\
  js " mid [IMAGE_PROMPT: b]" <> js "[IMAGE_PROMPT: b] mid ".
Proof. vm_compute. repeat split. discriminate. Qed.

Section ExampleArticle.
Context {World : Type} (env : Env World).

(** C2, as amended.  Every image request answers with the data URI
    [uri], a text without dollar sign and opening bracket.  The article
    [[FEATURED_IMAGE_PROMPT: x]], line feed, [Hello], line feed,
    [[IMAGE_PROMPT: y]] then becomes: line feed, [![FEATURED_IMAGE](uri)],
    two line feeds, [Hello], three line feeds, [![y](uri)], line feed.
    The two images are requested with 6000 ms between them. *)
Theorem example_article_substitution (uri keyword : jsstring) (r : @Run World) :
  (forall fp w, exists parts w',
      generateContent env fp w = (Normal parts, w') /\
      imageOf env parts = Some uri) ->
  uri <> [] ->
  Forall (fun c => c <> 36 /\ c <> 91) uri ->
  let ms := matchAll 1 imageRegex exampleArticle in
  exists r',
    resolveImages env keyword (length ms) ms exampleArticle 0 r =
    (Normal (NL ++ js "![FEATURED_IMAGE](" ++ uri ++ js ")" ++ NL ++ NL
             ++ js "Hello" ++ NL ++ NL ++ NL
             ++ js "![y](" ++ uri ++ js ")" ++ NL), r') /\
    map fst (log r') =
    map fst (log r) ++
    [EGenerateBlogImage (js "x"); EGenerateContent (finalPromptOf (js "x"));
     ESetTimeout 6000;
     EGenerateBlogImage (js "y"); EGenerateContent (finalPromptOf (js "y"))].
Proof.
  intros Hgen Hne Huri ms.
  assert (Forall (fun c => c <> 36) uri) as Hdollar
    by (eapply Forall_impl; [exact Huri|]; by intros c [? _]).
  assert (Forall (fun c => c <> 91) uri) as Hbracket
    by (eapply Forall_impl; [exact Huri|]; by intros c [_ ?]).
  assert (truthy (Some uri) = true) as Htruthy by (by destruct uri).
  change ms with [mkMatch 0 (js "[FEATURED_IMAGE_PROMPT: x]") [Some (js "x")];
                  mkMatch 33 (js "[IMAGE_PROMPT: y]") [Some (js "y")]].
  cbn [length].
  (* the featured placeholder *)
  rewrite resolveImages_step. cbv zeta.
  match goal with
  | |- context [generateBlogImage env ?p ?x] =>
      destruct (Hgen (finalPromptOf p) (world x)) as (parts1 & w1 & Hc1 & Hi1);
      rewrite (generateBlogImage_answer env p x parts1 w1 Hc1), Hi1
  end.
  cbv zeta. cbn [Nat.ltb Nat.leb].
  (* the illustration placeholder *)
  rewrite resolveImages_step. cbv zeta.
  match goal with
  | |- context [generateBlogImage env ?p ?x] =>
      destruct (Hgen (finalPromptOf p) (world x)) as (parts2 & w2 & Hc2 & Hi2);
      rewrite (generateBlogImage_answer env p x parts2 w2 Hc2), Hi2
  end.
  cbv zeta. cbn [Nat.ltb Nat.leb resolveImages]. unfold ret.
  eexists. split.
  - f_equal. f_equal. unfold substituted. cbv zeta. rewrite !Htruthy.
    cbn [m_full group m_groups default]. 
    change (includes (js "[FEATURED_IMAGE_PROMPT: x]") (js "FEATURED_IMAGE_PROMPT"))
      with true.
    change (includes (js "[IMAGE_PROMPT: y]") (js "FEATURED_IMAGE_PROMPT"))
      with false.
    change (group (mkMatch 0 (js "[FEATURED_IMAGE_PROMPT: x]") [Some (js "x")]) 0)
      with (js "x").
    change (group (mkMatch 33 (js "[IMAGE_PROMPT: y]") [Some (js "y")]) 0)
      with (js "y").
    unfold markdownImageOf. cbn [default]. unfold id.
    (* first substitution: the tag opens the article *)
    change exampleArticle
      with ([] ++ js "[FEATURED_IMAGE_PROMPT: x]"
               ++ (NL ++ js "Hello" ++ NL ++ js "[IMAGE_PROMPT: y]")).
    rewrite replace_at by (cbn [List.app length]; apply indexOf_here).
    rewrite getSubstitution_plain.
    2:{ repeat (apply Forall_app; split); try done;
          unfold NL, js; simpl; repeat constructor; discriminate. }
    cbn [List.app].
    (* second substitution: the tag closes the article *)
    set (pre := NL ++ js "![FEATURED_IMAGE](" ++ uri ++ js ")" ++ NL
                ++ NL ++ js "Hello" ++ NL).
    replace ((NL ++ js "![FEATURED_IMAGE](" ++ uri ++ js ")" ++ NL)
             ++ NL ++ js "Hello" ++ NL ++ js "[IMAGE_PROMPT: y]")
      with (pre ++ js "[IMAGE_PROMPT: y]" ++ [])
      by (unfold pre; rewrite <- !app_assoc, app_nil_r; reflexivity).
    rewrite replace_at.
    + rewrite getSubstitution_plain.
      2:{ repeat (apply Forall_app; split); try done;
            unfold NL, js; simpl; repeat constructor; discriminate. }
      unfold pre. rewrite <- !app_assoc, app_nil_r. reflexivity.
    + unfold pre.
      change (NL ++ js "![FEATURED_IMAGE](" ++ uri ++ js ")" ++ NL ++ NL ++ js "Hello" ++ NL)
        with ([10; 33] ++ 91 :: (js "FEATURED_IMAGE](" ++ uri ++ js ")" ++ NL ++ NL ++ js "Hello" ++ NL)).
      change (js "[IMAGE_PROMPT: y]") with (91 :: js "IMAGE_PROMPT: y]").
      rewrite <- !app_assoc.
      rewrite indexOf_skip by (repeat constructor; discriminate).
      cbn [List.app].
      rewrite indexOf_cons_miss by reflexivity.
      rewrite !app_assoc.
      rewrite indexOf_skip.
      2:{ repeat (apply Forall_app; split); try done;
            unfold NL, js; simpl; repeat constructor; discriminate. }
      change (91 :: js "IMAGE_PROMPT: y]" ++ [])
        with ((91 :: js "IMAGE_PROMPT: y]") ++ []).
      rewrite indexOf_here. cbv [fmap option_fmap option_map].
      f_equal. cbn [length]. rewrite !length_app. lia.
  - unfold logged, updated. cbn [log comp world]. rewrite !map_app.
    cbn [map fst]. rewrite <- !app_assoc. reflexivity.
Qed.

End ExampleArticle.

Lemma example_article_substitution_witness :
  fst (resolveImages (scenario exampleArticle (Normal [jpegPart])) (js "A") 2
         (matchAll 1 imageRegex exampleArticle) exampleArticle 0 (freshRun []))
  = Normal (NL ++ js "![FEATURED_IMAGE](data:image/jpeg;base64,AAAA)" ++ NL ++ NL
            ++ js "Hello" ++ NL ++ NL ++ NL
            ++ js "![y](data:image/jpeg;base64,AAAA)" ++ NL).
Proof.
  destruct (example_article_substitution
              (scenario exampleArticle (Normal [jpegPart])) jpegUri (js "A")
              (freshRun [])) as (r' & Hrun & _).
  - intros fp w. exists [jpegPart], w. split; reflexivity.
  - discriminate.
  - unfold jpegUri, js. simpl. repeat constructor; discriminate.
  - change (length (matchAll 1 imageRegex exampleArticle)) with 2%nat in Hrun.
    rewrite Hrun. reflexivity.
Defined.

(** C2 fails as stated: with the data URI [data:image/jpeg;base64,AAAA] for
    both images the article does not become the text of the claim, which
    lacks the line feed before the featured image and one of the two line
    feeds after it. *)
Lemma example_article_not_as_claimed :
  fst (resolveImages (scenario exampleArticle (Normal [jpegPart])) (js "A") 2
         (matchAll 1 imageRegex exampleArticle) exampleArticle 0 (freshRun []))
  <> Normal (js "![FEATURED_IMAGE](data:image/jpeg;base64,AAAA)" ++ NL
             ++ js "Hello" ++ NL ++ NL ++ NL
             ++ js "![y](data:image/jpeg;base64,AAAA)" ++ NL).
Proof. vm_compute. discriminate. Qed.

(** ** Claims on the WXR export *)



(** ** Package export *)





(** * Further properties *)

From Stdlib Require Import DecimalN.

(** ** The history store ([services/storageService.ts]) *)

Module StorageFacts.
Import StorageService.

Lemma insertByTime_perm (x : HistoryItem) (l : list HistoryItem) :
  insertByTime x l ≡ₚ x :: l.
Proof.
  induction l as [|y l IH]; simpl; [done|].
  destruct (item_timestamp x <? item_timestamp y)%Z; [|done].
  rewrite IH. apply Permutation_swap.
Qed.

Lemma sortNewestFirst_perm (l : list HistoryItem) : sortNewestFirst l ≡ₚ l.
Proof.
  induction l as [|x l IH]; simpl; [done|].
  by rewrite insertByTime_perm, IH.
Qed.

Lemma insertByTime_sorted (x : HistoryItem) (l : list HistoryItem) :
  newestFirst l -> newestFirst (insertByTime x l).
Proof.
  unfold newestFirst. induction 1 as [|y l Hl IH Hy]; simpl.
  - by repeat constructor.
  - destruct (Z.ltb_spec (item_timestamp x) (item_timestamp y)).
    + constructor; [done|].
      rewrite (insertByTime_perm x l). constructor; [lia|done].
    + constructor; [by constructor|]. constructor; [lia|].
      eapply Forall_impl; [exact Hy|]. simpl. intros; lia.
Qed.

Lemma sortNewestFirst_sorted (l : list HistoryItem) :
  newestFirst (sortNewestFirst l).
Proof.
  induction l as [|x l IH]; simpl; [constructor|].
  by apply insertByTime_sorted.
Qed.

Lemma sortNewestFirst_elem (r : HistoryItem) (l : list HistoryItem) :
  r ∈ sortNewestFirst l <-> r ∈ l.
Proof. by rewrite sortNewestFirst_perm. Qed.

(** *** Keys *)

Lemma keyCompare_eq (a b : jsstring) : keyCompare a b = Eq <-> a = b.
Proof.
  revert b. induction a as [|x a IH]; intros [|y b]; simpl; try done.
  destruct (N.compare_spec x y) as [->|H|H].
  - rewrite IH. split; [by intros ->|by intros [= ->]].
  - split; [done|]. intros [= -> _]. lia.
  - split; [done|]. intros [= -> _]. lia.
Qed.

Lemma keyCompare_refl (a : jsstring) : keyCompare a a = Eq.
Proof. by apply keyCompare_eq. Qed.

Lemma keyLt_trans (a b c : jsstring) : keyLt a b -> keyLt b c -> keyLt a c.
Proof.
  unfold keyLt. revert b c.
  induction a as [|x a IH]; intros [|y b] [|z c]; simpl; try done.
  destruct (N.compare_spec x y) as [->|Hxy|Hxy]; [| |done].
  - destruct (N.compare_spec y z) as [->|Hyz|Hyz]; [|done|done].
    apply IH.
  - intros _. destruct (N.compare_spec y z) as [->|Hyz|Hyz]; [| |done].
    + intros _. destruct (N.compare_spec x z); [lia|done|lia].
    + intros _. destruct (N.compare_spec x z); [lia|done|lia].
Qed.

Lemma keyLt_neq (a b : jsstring) : keyLt a b -> a <> b.
Proof. unfold keyLt. intros H ->. by rewrite keyCompare_refl in H. Qed.

Lemma keyCompare_Gt (a b : jsstring) : keyCompare a b = Gt -> keyLt b a.
Proof.
  unfold keyLt. revert b. induction a as [|x a IH]; intros [|y b]; simpl; try done.
  rewrite (N.compare_antisym x y).
  destruct (N.compare_spec x y); simpl; try done. apply IH.
Qed.

(** *** Records *)

Lemma putRecord_wellKeyed (item : HistoryItem) (rs : list HistoryItem) :
  wellKeyed rs -> wellKeyed (putRecord item rs) /\
  forall k, Forall (keyLt k) (map item_id rs) -> keyLt k (item_id item) ->
            Forall (keyLt k) (map item_id (putRecord item rs)).
Proof.
  unfold wellKeyed. induction rs as [|r rs IH]; intros Hs; simpl.
  - split; [by repeat constructor|]. intros k _ Hk. by repeat constructor.
  - apply StronglySorted_inv in Hs as [Hs Hr].
    destruct (keyCompare (item_id item) (item_id r)) eqn:E; simpl.
    + apply keyCompare_eq in E. rewrite E. split; [by constructor|].
      intros k Hk _. done.
    + split.
      * constructor; [by constructor|]. constructor; [done|].
        eapply Forall_impl; [exact Hr|]. intros k. by apply keyLt_trans.
      * intros k Hk Hki. by constructor.
    + destruct (IH Hs) as [IH1 IH2]. apply keyCompare_Gt in E. split.
      * constructor; [done|]. by apply IH2.
      * intros k Hk Hki. apply Forall_cons in Hk as [Hkr Hk].
        constructor; [done|]. by apply IH2.
Qed.

Lemma putRecord_elem (item r : HistoryItem) (rs : list HistoryItem) :
  wellKeyed rs ->
  r ∈ putRecord item rs <->
  r = item \/ (r ∈ rs /\ item_id r <> item_id item).
Proof.
  unfold wellKeyed. induction rs as [|r0 rs IH]; intros Hs; simpl.
  - rewrite list_elem_of_singleton. split; [by left|].
    intros [->|[H _]]; [done|]. by apply elem_of_nil in H.
  - apply StronglySorted_inv in Hs as [Hs Hr0].
    assert (forall x, x ∈ rs -> keyLt (item_id r0) (item_id x)) as Hafter.
    { intros x Hx. rewrite Forall_forall in Hr0. apply Hr0.
      by apply (list_elem_of_fmap_2 item_id). }
    destruct (keyCompare (item_id item) (item_id r0)) eqn:E.
    + apply keyCompare_eq in E. rewrite !elem_of_cons. split.
      * intros [->|Hin]; [by left|]. right. split; [by right|].
        rewrite E. symmetry. by apply keyLt_neq, Hafter.
      * intros [->|[[->|Hin] Hne]]; [by left|done|by right].
    + rewrite !elem_of_cons. split.
      * intros [->|[->|Hin]]; [by left| |].
        -- right. split; [by left|]. symmetry. by apply keyLt_neq.
        -- right. split; [by right|]. symmetry. apply keyLt_neq.
           eapply keyLt_trans; [exact E|]. by apply Hafter.
      * intros [->|[[->|Hin] Hne]]; [by left|right; by left|right; by right].
    + apply keyCompare_Gt in E. rewrite !elem_of_cons, (IH Hs). split.
      * intros [->|[->|[Hin Hne]]]; [|by left|].
        -- right. split; [by left|]. by apply keyLt_neq.
        -- right. split; [by right|done].
      * intros [->|[[->|Hin] Hne]]; [right; by left|by left|].
        right. right. done.
Qed.

Lemma deleteRecord_elem (id : jsstring) (r : HistoryItem) (rs : list HistoryItem) :
  r ∈ deleteRecord id rs <-> r ∈ rs /\ item_id r <> id.
Proof.
  unfold deleteRecord. rewrite !list_elem_of_In, filter_In, negb_true_iff.
  by rewrite bool_decide_eq_false.
Qed.

Lemma deleteRecord_absent (id : jsstring) (rs : list HistoryItem) :
  (forall r, r ∈ rs -> item_id r <> id) -> deleteRecord id rs = rs.
Proof.
  unfold deleteRecord. induction rs as [|r rs IH]; intros H; simpl; [done|].
  rewrite bool_decide_false by (apply H; by left). simpl. f_equal.
  apply IH. intros x Hx. apply H. by right.
Qed.

Lemma deleteRecord_wellKeyed (id : jsstring) (rs : list HistoryItem) :
  wellKeyed rs -> wellKeyed (deleteRecord id rs).
Proof.
  unfold wellKeyed, deleteRecord. induction rs as [|r rs IH]; intros Hs; simpl; [done|].
  apply StronglySorted_inv in Hs as [Hs Hr].
  destruct (bool_decide (item_id r = id)); simpl; [by apply IH|].
  constructor; [by apply IH|].
  rewrite Forall_forall in *. intros k Hk. apply Hr.
  apply list_elem_of_fmap in Hk as (x & -> & Hx).
  apply (list_elem_of_fmap_2 item_id).
  rewrite list_elem_of_In in Hx. apply filter_In in Hx as [Hx _].
  by apply list_elem_of_In.
Qed.

Lemma deleteRecord_putRecord (item : HistoryItem) (rs : list HistoryItem) :
  wellKeyed rs ->
  deleteRecord (item_id item) (putRecord item rs) = deleteRecord (item_id item) rs.
Proof.
  unfold wellKeyed. induction rs as [|r rs IH]; intros Hs; simpl.
  - unfold deleteRecord. simpl. by rewrite bool_decide_true.
  - apply StronglySorted_inv in Hs as [Hs Hr].
    destruct (keyCompare (item_id item) (item_id r)) eqn:E.
    + apply keyCompare_eq in E. unfold deleteRecord. simpl.
      rewrite !bool_decide_true by done. done.
    + unfold deleteRecord. simpl. rewrite bool_decide_true by done. done.
    + unfold deleteRecord in *. simpl. rewrite IH by done. done.
Qed.

Lemma putRecord_twice (item : HistoryItem) (rs : list HistoryItem) :
  putRecord item (putRecord item rs) = putRecord item rs.
Proof.
  induction rs as [|r rs IH]; simpl.
  - by rewrite keyCompare_refl.
  - destruct (keyCompare (item_id item) (item_id r)) eqn:E; simpl.
    + by rewrite keyCompare_refl.
    + by rewrite keyCompare_refl.
    + by rewrite E, IH.
Qed.

(** *** Requests on a healthy database *)

Lemma nextFault_healthy (db : Idb) :
  healthy db ->
  exists db', nextFault db = (Normal tt, db') /\ healthy db' /\
              idb_records db' = idb_records db /\
              idb_entropy db' = idb_entropy db.
Proof.
  intros [Hs Hf]. unfold nextFault. destruct db as [s rs fs en]. simpl in *.
  destruct Hf as [|f fs -> Hf]; by eexists.
Qed.

Lemma openDB_healthy (db : Idb) :
  healthy db ->
  exists db', openDB db = (Normal tt, db') /\ healthy db' /\
              idb_records db' = idb_records db /\
              idb_entropy db' = idb_entropy db.
Proof.
  intros H. unfold openDB. rewrite (proj1 H). by apply nextFault_healthy.
Qed.

Lemma request_healthy (f : list HistoryItem -> list HistoryItem) (db : Idb) :
  healthy db ->
  exists db', request f db = (Normal tt, db') /\ healthy db' /\
              idb_records db' = f (idb_records db) /\
              idb_entropy db' = idb_entropy db.
Proof.
  intros H. unfold request, bind.
  destruct (nextFault_healthy db H) as (db' & -> & [Hs Hf] & Hr & He).
  eexists. split; [done|]. simpl. rewrite Hr. done.
Qed.

Lemma getHistory_healthy (db : Idb) :
  healthy db ->
  exists db', getHistory db = (Normal (sortNewestFirst (idb_records db)), db') /\
              healthy db' /\ idb_records db' = idb_records db /\
              idb_entropy db' = idb_entropy db.
Proof.
  intros H. unfold getHistory.
  destruct (openDB_healthy db H) as (db1 & -> & H1 & Hr1 & He1).
  unfold bind.
  destruct (nextFault_healthy db1 H1) as (db2 & -> & H2 & Hr2 & He2).
  exists db2. rewrite Hr2, Hr1. split; [done|]. split; [done|].
  split; [done|]. congruence.
Qed.

Lemma nextFault_records (db : Idb) :
  idb_records (snd (nextFault db)) = idb_records db /\
  idb_supported (snd (nextFault db)) = idb_supported db.
Proof. unfold nextFault. by destruct (idb_faults db) as [|[e|] fs]. Qed.

Lemma nextFault_failures (db : Idb) :
  match fst (nextFault db) with
  | Normal _ => failures (idb_faults (snd (nextFault db))) = failures (idb_faults db)
  | Throw _ => S (failures (idb_faults (snd (nextFault db)))) = failures (idb_faults db)
  end.
Proof.
  unfold nextFault. destruct db as [s rs fs en]. simpl.
  destruct fs as [|[e|] fs]; simpl; done.
Qed.

(** X1: [getHistory] never changes the store.  When it answers, the list is
    newest first, and it is either empty or holds the stored records, each
    one once; on a database on which nothing fails it holds them all.  It
    rejects only where IndexedDB is there and a request has failed. *)
Theorem getHistory_newest_first (db : Idb) :
  idb_records (snd (getHistory db)) = idb_records db /\
  match fst (getHistory db) with
  | Normal l => newestFirst l /\ (l = [] \/ l ≡ₚ idb_records db)
  | Throw _ => idb_supported db = true /\ (1 <= failures (idb_faults db))%nat
  end /\
  (healthy db -> fst (getHistory db) = Normal (sortNewestFirst (idb_records db))).
Proof.
  split; [|split].
  - destruct db as [s rs fs en]. unfold getHistory, openDB, bind, nextFault.
    destruct s; [|done].
    destruct fs as [|[e|] [|[e2|] fs]]; done.
  - destruct db as [s rs fs en]. unfold getHistory, openDB, bind, nextFault.
    destruct s; [|by split; [constructor|left]].
    destruct fs as [|[e|] [|[e2|] fs]]; cbn;
      try (split; [apply sortNewestFirst_sorted|right; apply sortNewestFirst_perm]);
      try (split; [constructor|by left]).
    split; [done|]. unfold failures. simpl. lia.
  - intros H. by destruct (getHistory_healthy db H) as (db' & -> & _).
Qed.

Lemma getHistory_newest_first_witness :
  fst (getHistory quietDb) = Normal [articleB; articleA].
Proof.
  apply (getHistory_newest_first quietDb). split; [done|]. constructor.
Defined.

(** X2: on a database on which nothing fails, saving an item that has an
    id stores it under that id in place of any record with the same id:
    the answer is the whole store newest first, it holds the item, no other
    record of that id, and every record of another id that was there
    before, and nothing else. *)
Theorem saveHistoryItem_upsert (item : HistoryItem) (db : Idb) :
  healthy db -> wellKeyed (idb_records db) -> item_id item <> [] ->
  exists l db',
    saveHistoryItem item db = (Normal l, db') /\
    healthy db' /\ wellKeyed (idb_records db') /\
    l ≡ₚ idb_records db' /\ newestFirst l /\
    item ∈ l /\
    (forall r, r ∈ l -> item_id r = item_id item -> r = item) /\
    (forall r, item_id r <> item_id item -> (r ∈ l <-> r ∈ idb_records db)).
Proof.
  intros H Hk Hid. unfold saveHistoryItem, try_catch, bind.
  destruct (openDB_healthy db H) as (db1 & -> & H1 & Hr1 & He1).
  assert (uniqueItemOf item = ret item) as ->.
  { unfold uniqueItemOf. by destruct (item_id item). }
  unfold ret.
  destruct (request_healthy (putRecord item) db1 H1) as (db2 & -> & H2 & Hr2 & He2).
  destruct (getHistory_healthy db2 H2) as (db3 & -> & H3 & Hr3 & He3).
  exists (sortNewestFirst (idb_records db2)), db3.
  rewrite Hr3, Hr2, Hr1.
  split; [done|]. split; [done|].
  split; [by apply putRecord_wellKeyed|].
  split; [apply sortNewestFirst_perm|].
  split; [apply sortNewestFirst_sorted|].
  split; [|split].
  - rewrite sortNewestFirst_elem, putRecord_elem by done. by left.
  - intros r Hr Hsame. rewrite sortNewestFirst_elem, putRecord_elem in Hr by done.
    destruct Hr as [->|[_ Hne]]; done.
  - intros r Hne. rewrite sortNewestFirst_elem, putRecord_elem by done.
    split; [|by right]. intros [->|[Hin _]]; done.
Qed.

Lemma quietDb_healthy : healthy quietDb.
Proof. split; [done|constructor]. Qed.

Lemma quietDb_wellKeyed : wellKeyed (idb_records quietDb).
Proof. unfold wellKeyed. simpl. repeat constructor. Qed.

Lemma saveHistoryItem_upsert_witness :
  exists l db',
    saveHistoryItem articleA' quietDb = (Normal l, db') /\
    healthy db' /\ wellKeyed (idb_records db') /\
    l ≡ₚ idb_records db' /\ newestFirst l /\
    articleA' ∈ l /\
    (forall r, r ∈ l -> item_id r = item_id articleA' -> r = articleA') /\
    (forall r, item_id r <> item_id articleA' -> (r ∈ l <-> r ∈ idb_records quietDb)).
Proof.
  apply (saveHistoryItem_upsert articleA' quietDb).
  - exact quietDb_healthy.
  - exact quietDb_wellKeyed.
  - done.
Defined.

(** X3: an item saved without id is stored under the id
    [<Date.now()>-<random tail>], which is not empty; the other fields are
    the item's.  The store then holds that record in addition to those of
    other ids. *)
Theorem saveHistoryItem_generates_id (item : HistoryItem) (db : Idb)
    (now : Z) (tail : jsstring) (rest : list (Z * jsstring)) :
  healthy db -> wellKeyed (idb_records db) ->
  item_id item = [] -> idb_entropy db = (now, tail) :: rest ->
  let stored := withId item (intToString now ++ js "-" ++ tail) in
  exists l db',
    saveHistoryItem item db = (Normal l, db') /\
    idb_records db' = putRecord stored (idb_records db) /\
    idb_entropy db' = rest /\
    item_id stored <> [] /\
    stored ∈ l /\
    (forall r, item_id r <> item_id stored -> (r ∈ l <-> r ∈ idb_records db)).
Proof.
  intros H Hk Hid Hen stored. unfold saveHistoryItem, try_catch, bind.
  destruct (openDB_healthy db H) as (db1 & -> & H1 & Hr1 & He1).
  unfold uniqueItemOf. rewrite Hid. unfold bind, nextEntropy, ret.
  rewrite He1, Hen. cbn [fst snd]. fold stored.
  set (db1' := mkIdb (idb_supported db1) (idb_records db1) (idb_faults db1) rest).
  assert (healthy db1') as H1' by (destruct H1; by split).
  destruct (request_healthy (putRecord stored) db1' H1') as (db2 & -> & H2 & Hr2 & He2).
  destruct (getHistory_healthy db2 H2) as (db3 & -> & H3 & Hr3 & He3).
  exists (sortNewestFirst (idb_records db2)), db3.
  rewrite Hr3, Hr2. simpl. rewrite Hr1.
  split; [done|]. split; [done|]. split; [by rewrite He3, He2|].
  split.
  { simpl. intros E. apply (f_equal (@length N)) in E.
    rewrite length_app in E. simpl in E. lia. }
  split.
  - rewrite sortNewestFirst_elem, putRecord_elem by done. by left.
  - intros r Hne. rewrite sortNewestFirst_elem, putRecord_elem by done.
    split; [|by right]. intros [->|[Hin _]]; done.
Qed.

Lemma saveHistoryItem_generates_id_witness :
  let stored := withId draft (js "1700000008000-k3j9x0q1z") in
  exists l db',
    saveHistoryItem draft quietDb = (Normal l, db') /\
    idb_records db' = putRecord stored (idb_records quietDb) /\
    idb_entropy db' = [] /\
    item_id stored <> [] /\
    stored ∈ l /\
    (forall r, item_id r <> item_id stored -> (r ∈ l <-> r ∈ idb_records quietDb)).
Proof.
  apply (saveHistoryItem_generates_id draft quietDb 1700000008000 (js "k3j9x0q1z") []).
  - exact quietDb_healthy.
  - exact quietDb_wellKeyed.
  - done.
  - done.
Defined.

(** X4: deleting by id, on a database on which nothing fails: the answer is
    what is left of the store, newest first; it has no record of that id
    and every record of another id; when no record has the id, the store
    is left as it was. *)
Theorem deleteHistoryItem_removes (id : jsstring) (db : Idb) :
  healthy db -> wellKeyed (idb_records db) ->
  exists l db',
    deleteHistoryItem id db = (Normal l, db') /\
    healthy db' /\ wellKeyed (idb_records db') /\
    l ≡ₚ idb_records db' /\ newestFirst l /\
    (forall r, r ∈ l <-> r ∈ idb_records db /\ item_id r <> id) /\
    ((forall r, r ∈ idb_records db -> item_id r <> id) ->
     idb_records db' = idb_records db).
Proof.
  intros H Hk. unfold deleteHistoryItem, try_catch, bind.
  destruct (openDB_healthy db H) as (db1 & -> & H1 & Hr1 & He1).
  destruct (request_healthy (deleteRecord id) db1 H1) as (db2 & -> & H2 & Hr2 & He2).
  destruct (getHistory_healthy db2 H2) as (db3 & -> & H3 & Hr3 & He3).
  exists (sortNewestFirst (idb_records db2)), db3.
  rewrite Hr3, Hr2, Hr1.
  split; [done|]. split; [done|].
  split; [by apply deleteRecord_wellKeyed|].
  split; [apply sortNewestFirst_perm|].
  split; [apply sortNewestFirst_sorted|]. split.
  - intros r. by rewrite sortNewestFirst_elem, deleteRecord_elem.
  - apply deleteRecord_absent.
Qed.

Lemma deleteHistoryItem_removes_witness :
  exists l db',
    deleteHistoryItem (js "1700000000000") quietDb = (Normal l, db') /\
    healthy db' /\ wellKeyed (idb_records db') /\
    l ≡ₚ idb_records db' /\ newestFirst l /\
    (forall r, r ∈ l <-> r ∈ idb_records quietDb /\ item_id r <> js "1700000000000") /\
    ((forall r, r ∈ idb_records quietDb -> item_id r <> js "1700000000000") ->
     idb_records db' = idb_records quietDb).
Proof.
  apply (deleteHistoryItem_removes (js "1700000000000") quietDb).
  - exact quietDb_healthy.
  - exact quietDb_wellKeyed.
Defined.

Ltac sick :=
  intros [_ ?]; simpl in *;
  repeat match goal with
         | H : Forall _ (_ :: _) |- _ => apply Forall_cons in H as [? H]
         end; done.

(** X5: [clearHistory] answers the empty list whatever happens, and never
    rejects.  The store is empty afterwards when the database opened and
    the request went through; otherwise every record is still there, and
    the answer was the empty list all the same. *)
Theorem clearHistory_always_empty (db : Idb) :
  fst (clearHistory db) = Normal [] /\
  (idb_records (snd (clearHistory db)) = [] \/
   idb_records (snd (clearHistory db)) = idb_records db /\ ~ healthy db) /\
  (healthy db -> idb_records (snd (clearHistory db)) = []).
Proof.
  destruct db as [s rs fs en].
  unfold clearHistory, try_catch, bind, openDB, request, bind, nextFault, ret.
  destruct s.
  - destruct fs as [|[e|] [|[e2|] fs]]; cbn; (split; [done|]);
      (split; [first [by left | right; split; [done|]; sick] | first [done | sick]]).
  - cbn. split; [done|]. split; [|by intros [? _]].
    right. split; [done|]. by intros [? _].
Qed.

Lemma clearHistory_always_empty_witness :
  idb_records (snd (clearHistory quietDb)) = [].
Proof. apply (clearHistory_always_empty quietDb), quietDb_healthy. Defined.

(** X6: where the browser has no IndexedDB, every operation of the service
    answers the empty list, stores nothing and rejects nothing: a save is
    lost without a sign. *)
Theorem unsupported_answers_empty (db : Idb) (item : HistoryItem) (id : jsstring) :
  idb_supported db = false ->
  getHistory db = (Normal [], db) /\
  saveHistoryItem item db = (Normal [], db) /\
  deleteHistoryItem id db = (Normal [], db) /\
  clearHistory db = (Normal [], db).
Proof.
  intros Hs.
  unfold saveHistoryItem, deleteHistoryItem, clearHistory, getHistory,
    try_catch, bind, openDB, ret.
  rewrite Hs. cbn. rewrite Hs. done.
Qed.

Lemma unsupported_answers_empty_witness :
  let db := mkIdb false [articleA] [] [] in
  getHistory db = (Normal [], db) /\
  saveHistoryItem articleB db = (Normal [], db) /\
  deleteHistoryItem (item_id articleA) db = (Normal [], db) /\
  clearHistory db = (Normal [], db).
Proof.
  apply (unsupported_answers_empty (mkIdb false [articleA] [] []) articleB
           (item_id articleA)).
  reflexivity.
Defined.

Lemma saveHistoryItem_healthy (item : HistoryItem) (db : Idb) :
  healthy db -> item_id item <> [] ->
  exists db',
    saveHistoryItem item db
    = (Normal (sortNewestFirst (putRecord item (idb_records db))), db') /\
    healthy db' /\ idb_records db' = putRecord item (idb_records db).
Proof.
  intros H Hid. unfold saveHistoryItem, try_catch, bind.
  destruct (openDB_healthy db H) as (db1 & -> & H1 & Hr1 & He1).
  assert (uniqueItemOf item = ret item) as ->.
  { unfold uniqueItemOf. by destruct (item_id item). }
  unfold ret.
  destruct (request_healthy (putRecord item) db1 H1) as (db2 & -> & H2 & Hr2 & He2).
  destruct (getHistory_healthy db2 H2) as (db3 & -> & H3 & Hr3 & He3).
  exists db3. rewrite Hr3, Hr2, Hr1. done.
Qed.

Lemma deleteHistoryItem_healthy (id : jsstring) (db : Idb) :
  healthy db ->
  exists db',
    deleteHistoryItem id db
    = (Normal (sortNewestFirst (deleteRecord id (idb_records db))), db') /\
    healthy db' /\ idb_records db' = deleteRecord id (idb_records db).
Proof.
  intros H. unfold deleteHistoryItem, try_catch, bind.
  destruct (openDB_healthy db H) as (db1 & -> & H1 & Hr1 & He1).
  destruct (request_healthy (deleteRecord id) db1 H1) as (db2 & -> & H2 & Hr2 & He2).
  destruct (getHistory_healthy db2 H2) as (db3 & -> & H3 & Hr3 & He3).
  exists db3. rewrite Hr3, Hr2, Hr1. done.
Qed.

(** X7: saving an item under a new id and deleting that id again leaves
    the store as it was, and the second answer is the history as it was
    before the save. *)
Theorem save_then_delete (item : HistoryItem) (db : Idb) :
  healthy db -> wellKeyed (idb_records db) -> item_id item <> [] ->
  (forall r, r ∈ idb_records db -> item_id r <> item_id item) ->
  exists l1 db1 db2,
    saveHistoryItem item db = (Normal l1, db1) /\
    deleteHistoryItem (item_id item) db1
    = (Normal (sortNewestFirst (idb_records db)), db2) /\
    idb_records db2 = idb_records db.
Proof.
  intros H Hk Hid Hfresh.
  destruct (saveHistoryItem_healthy item db H Hid) as (db1 & Hsave & H1 & Hr1).
  destruct (deleteHistoryItem_healthy (item_id item) db1 H1) as (db2 & Hdel & H2 & Hr2).
  assert (deleteRecord (item_id item) (idb_records db1) = idb_records db) as E.
  { rewrite Hr1, deleteRecord_putRecord by done. by apply deleteRecord_absent. }
  rewrite E in Hdel, Hr2. by eexists _, db1, db2.
Qed.

Lemma save_then_delete_witness :
  exists l1 db1 db2,
    saveHistoryItem articleB (mkIdb true [articleA] [] []) = (Normal l1, db1) /\
    deleteHistoryItem (item_id articleB) db1 = (Normal [articleA], db2) /\
    idb_records db2 = [articleA].
Proof.
  apply (save_then_delete articleB (mkIdb true [articleA] [] [])).
  - split; [done|constructor].
  - unfold wellKeyed. simpl. repeat constructor.
  - done.
  - intros r Hr. apply list_elem_of_singleton in Hr as ->. done.
Defined.

(** X8: saving the same item a second time changes nothing: the store and
    the answer are those of the first save. *)
Theorem save_twice (item : HistoryItem) (db : Idb) :
  healthy db -> item_id item <> [] ->
  exists l db1 db2,
    saveHistoryItem item db = (Normal l, db1) /\
    saveHistoryItem item db1 = (Normal l, db2) /\
    idb_records db2 = idb_records db1.
Proof.
  intros H Hid.
  destruct (saveHistoryItem_healthy item db H Hid) as (db1 & Hsave & H1 & Hr1).
  destruct (saveHistoryItem_healthy item db1 H1 Hid) as (db2 & Hsave2 & H2 & Hr2).
  rewrite Hr1, putRecord_twice in Hsave2, Hr2.
  eexists _, db1, db2. rewrite Hr1. done.
Qed.

Lemma save_twice_witness :
  exists l db1 db2,
    saveHistoryItem articleA' quietDb = (Normal l, db1) /\
    saveHistoryItem articleA' db1 = (Normal l, db2) /\
    idb_records db2 = idb_records db1.
Proof.
  apply (save_twice articleA' quietDb); [exact quietDb_healthy|done].
Defined.

(** X9: a save whose opening of the database or whose [put] fails, nothing
    failing after that, answers as [getHistory] would: with the history
    as it was, the item not in it unless it was there before; the store is
    unchanged and nothing is thrown. *)
Theorem failed_save_is_silent (item : HistoryItem) (db : Idb) (e : JsError)
    (fs : list (option JsError)) :
  idb_supported db = true ->
  idb_faults db = Some e :: fs \/ idb_faults db = None :: Some e :: fs ->
  Forall (fun f => f = None) fs ->
  exists db',
    saveHistoryItem item db = (Normal (sortNewestFirst (idb_records db)), db') /\
    idb_records db' = idb_records db.
Proof.
  intros Hs Hf Hfs. destruct db as [s rs faults en]. simpl in *. subst s.
  unfold saveHistoryItem, try_catch, bind, openDB, request, bind, nextFault.
  destruct Hf as [-> | ->]; cbn.
  - destruct (getHistory_healthy (mkIdb true rs fs en)) as (db' & -> & _ & Hr & _);
      [by split|]. by exists db'.
  - unfold uniqueItemOf, bind, nextEntropy, ret.
    destruct (item_id item); [destruct en as [|[now tail] en]|]; cbn;
      match goal with
      | |- context [getHistory ?d] =>
          destruct (getHistory_healthy d) as (db' & -> & _ & Hr & _);
            [by split|]; by exists db'
      end.
Qed.

Lemma failed_save_is_silent_witness :
  exists db',
    saveHistoryItem articleA' flakyDb = (Normal [articleB; articleA], db') /\
    idb_records db' = [articleA; articleB].
Proof.
  apply (failed_save_is_silent articleA' flakyDb boom []).
  - done.
  - by right.
  - constructor.
Defined.

Ltac split_faults fs :=
  destruct fs as [|[?|] [|[?|] [|[?|] [|[?|] [|[?|] [|[?|] ?]]]]]].

(** X10: with at most one failing request, [saveHistoryItem] and
    [deleteHistoryItem] answer (newest first) and do not reject; with two
    failing requests a save can reject. *)
Theorem one_failure_is_absorbed (item : HistoryItem) (id : jsstring) (db : Idb) :
  (failures (idb_faults db) <= 1)%nat ->
  (exists l db', saveHistoryItem item db = (Normal l, db') /\ newestFirst l) /\
  (exists l db', deleteHistoryItem id db = (Normal l, db') /\ newestFirst l) /\
  (exists db2 e, failures (idb_faults db2) = 2%nat /\
                 fst (saveHistoryItem item db2) = Throw e).
Proof.
  intros Hf. destruct db as [s rs fs en]. simpl in Hf.
  split; [|split].
  - unfold saveHistoryItem, getHistory, uniqueItemOf,
      nextEntropy, try_catch, bind, openDB, request, bind, nextFault, ret.
    destruct s; [|cbn; eexists _, _; (split; [reflexivity|constructor])].
    destruct (item_id item); [destruct en as [|[now tail] en]|];
      split_faults fs; unfold failures in Hf; simpl in Hf; try lia; cbn;
      eexists _, _; (split; [reflexivity|]);
      first [apply sortNewestFirst_sorted | constructor].
  - unfold deleteHistoryItem, getHistory,
      try_catch, bind, openDB, request, bind, nextFault, ret.
    destruct s; [|cbn; eexists _, _; (split; [reflexivity|constructor])].
    split_faults fs; unfold failures in Hf; simpl in Hf; try lia; cbn;
      eexists _, _; (split; [reflexivity|]);
      first [apply sortNewestFirst_sorted | constructor].
  - exists (mkIdb true [] [None; None; None; Some boom; None; Some boom] []), boom.
    split; [done|].
    unfold saveHistoryItem, getHistory, uniqueItemOf,
      nextEntropy, try_catch, bind, openDB, request, bind, nextFault, ret.
    by destruct (item_id item).
Qed.

Lemma one_failure_is_absorbed_witness :
  exists l db', saveHistoryItem articleA' flakyDb = (Normal l, db') /\ newestFirst l.
Proof.
  apply (one_failure_is_absorbed articleA' (js "x") flakyDb).
  unfold failures. simpl. lia.
Defined.
End StorageFacts.

(** ** The start button and what a user can reach ([App.tsx]) *)

Lemma join_Forall (P : N -> Prop) (ps : list jsstring) (sep : jsstring) :
  Forall P sep ->
  (Forall P (join ps sep) <-> Forall (Forall P) ps).
Proof.
  intros Hsep. induction ps as [|p ps IH]; [by split; constructor|].
  destruct ps as [|q ps].
  - simpl. split; [intros H; by repeat constructor|].
    intros H. by apply Forall_cons in H as [H _].
  - rewrite join_cons by done. rewrite !Forall_app, IH, (Forall_cons _ p).
    tauto.
Qed.

Lemma keywordsOf_nil_iff (bulkInput : jsstring) :
  keywordsOf bulkInput = [] <->
  Forall (Forall (fun c => isWhiteSpace c = true)) (split bulkInput NL).
Proof.
  split; [|apply keywordsOf_blank].
  unfold keywordsOf. induction (split bulkInput NL) as [|l ls IH]; [done|].
  simpl. destruct (trim l) as [|c t] eqn:E; simpl; [|done].
  intros H. constructor; [by apply trim_nil_iff|by apply IH].
Qed.

(** X11: the start button is disabled exactly when the input has no
    keyword: [handleStartBulk] returns without starting a run only on
    inputs for which the button cannot be clicked. *)
Theorem start_button_guards_the_run (a : AppState) :
  startDisabled a = true <-> keywordsOf (bulkInput a) = [].
Proof.
  rewrite keywordsOf_nil_iff.
  rewrite <- (join_Forall _ _ NL) by (by repeat constructor).
  rewrite (proj1 (split_lines (bulkInput a))).
  rewrite <- trim_nil_iff. unfold startDisabled.
  by destruct (trim (bulkInput a)).
Qed.

Section HandlerFacts.
Context {World : Type}.
Variable env : Env World.
Variable storeSave : HistoryItem -> World -> Completion (list HistoryItem) * World.
Variable storeDelete : jsstring -> World -> Completion (list HistoryItem) * World.
Variable random100 : World -> N.
Implicit Types (r : @Run World).

(** The retry wrapper answers and leaves the component state alone. *)
Lemma generateBlogImage_while_keeps (fuel attempt : nat) (prompt : jsstring) r :
  exists v r', generateBlogImage_while env fuel attempt prompt r = (Normal v, r') /\
               comp r' = comp r.
Proof.
  revert attempt r. induction fuel as [|fuel IH]; intros attempt r.
  - by exists None, r.
  - destruct (Nat.ltb_spec attempt maxRetries) as [Ha|Ha].
    + rewrite generateBlogImage_while_step by done. cbv zeta.
      destruct (generateContent env (finalPromptOf prompt) (world r)) as [[parts|e] w].
      * by eexists _, _.
      * destruct (isRateLimit e); [|by eexists _, _].
        destruct (S attempt <? maxRetries)%nat; [|by eexists _, _].
        edestruct IH as (v & r' & -> & Hc). by exists v, r'.
    + simpl. destruct (Nat.ltb_spec attempt maxRetries); [lia|]. by exists None, r.
Qed.

Lemma generateBlogImage_keeps (prompt : jsstring) r :
  exists v r', generateBlogImage env prompt r = (Normal v, r') /\ comp r' = comp r.
Proof.
  unfold generateBlogImage, bind, record.
  edestruct generateBlogImage_while_keeps as (v & r' & -> & Hc). by exists v, r'.
Qed.




(** X13: when the image model gives no image, [handleRegenerateImage]
    shows its alert and changes nothing: the component state is as it was
    and the store is not called.  The prompt is built from the keyword of
    the article for the featured image, from the alt text and a random
    variation number for any other image. *)
Theorem regenerate_failure_changes_nothing (rendered : AppState)
    (oldSrc altText : jsstring) r (v : option jsstring) r1 :
  let targetKeyword := snd (exportSource rendered) in
  let prompt :=
    if bool_decide (altText = js "FEATURED_IMAGE")
    then featuredPromptOf targetKeyword
    else variationPromptOf altText (random100 (world r)) in
  generateBlogImage env prompt r = (Normal v, r1) ->
  truthy v = false ->
  handleRegenerateImage env storeSave random100 rendered oldSrc altText r
  = (Normal (Some regenerateAlert), r1) /\
  comp r1 = comp r /\
  Forall (fun p => forall item, fst p <> ESaveHistoryItem item)
    (drop (length (log r)) (log r1)).
Proof.
  intros targetKeyword prompt Hgen Hv.
  assert (targetKeyword =
          match viewingHistoryItem rendered with
          | Some h => item_keyword h
          | None => currentKeyword rendered
          end) as Hk.
  { unfold targetKeyword, exportSource. by destruct (viewingHistoryItem rendered). }
  split; [|split].
  - unfold handleRegenerateImage, bind at 1. rewrite <- Hk.
    subst prompt. destruct (bool_decide (altText = js "FEATURED_IMAGE"));
      unfold ret; unfold bind at 1; rewrite Hgen, Hv; done.
  - destruct (generateBlogImage_keeps prompt r) as (v' & r' & E & Hc). congruence.
  - destruct (generateBlogImage_shape env prompt r) as (v' & r' & l & E & Hl & Ht).
    rewrite Hgen in E. injection E as <- <-.
    assert (map fst (drop (length (log r)) (log r1)) = EGenerateBlogImage prompt :: l) as Hd.
    { rewrite <- skipn_map. rewrite Hl, <- (length_map fst), drop_app_length. done. }
    apply Forall_forall. intros p Hp item Hitem.
    assert (fst p ∈ EGenerateBlogImage prompt :: l) as Hin.
    { rewrite <- Hd. by apply (list_elem_of_fmap_2 fst). }
    rewrite Hitem in Hin. apply elem_of_cons in Hin as [Hin|Hin]; [done|].
    assert (Forall (fun e => forall i, e <> ESaveHistoryItem i) l) as HJ.
    { eapply (retryTrace_J (fun e => forall i, e <> ESaveHistoryItem i)); [| |exact Ht]; done. }
    rewrite Forall_forall in HJ. by apply (HJ _ Hin item).
Qed.

(** X14: regenerating an image of the history item being viewed puts the
    new data URI in the place of the first occurrence of the old one in
    the item's content (in no place when the old one does not occur; later
    occurrences stay), shows the updated item, saves it under the id,
    keyword and time stamp it had, and shows the history the store answers
    with.  The live article is not touched. *)
Theorem regenerate_updates_viewed_item (rendered : AppState) (h : HistoryItem)
    (oldSrc altText uri : jsstring) r r1 (l : list HistoryItem) (w : World) :
  let prompt :=
    if bool_decide (altText = js "FEATURED_IMAGE")
    then featuredPromptOf (item_keyword h)
    else variationPromptOf altText (random100 (world r)) in
  let newContent := replace (item_content h) oldSrc uri in
  viewingHistoryItem rendered = Some h ->
  generateBlogImage env prompt r = (Normal (Some uri), r1) ->
  uri <> [] ->
  storeSave (withContent h newContent) (world r1) = (Normal l, w) ->
  exists r',
    handleRegenerateImage env storeSave random100 rendered oldSrc altText r
    = (Normal None, r') /\
    world r' = w /\
    viewingHistoryItem (comp r') = Some (withContent h newContent) /\
    history (comp r') = l /\
    articleResult (comp r') = articleResult (comp r) /\
    (indexOf oldSrc (item_content h) = None -> newContent = item_content h) /\
    (forall pre post,
       item_content h = pre ++ oldSrc ++ post ->
       indexOf oldSrc (item_content h) = Some (length pre) ->
       Forall (fun c => c <> 36) uri ->
       newContent = pre ++ uri ++ post).
Proof.
  intros prompt newContent Hview Hgen Huri Hsave.
  destruct (generateBlogImage_keeps prompt r) as (v' & r'' & E & Hc).
  rewrite Hgen in E. injection E as <- <-.
  unfold handleRegenerateImage, bind at 1. rewrite Hview.
  subst prompt. destruct (bool_decide (altText = js "FEATURED_IMAGE"));
    unfold ret; unfold bind at 1; rewrite Hgen;
    (assert (truthy (Some uri) = true) as -> by (by destruct uri));
    change (default [] (Some uri)) with uri; fold newContent;
    unfold bind, setState, call, ret; cbn [comp world log]; rewrite Hsave;
    (eexists; split; [reflexivity|]); cbn; rewrite Hc;
    (repeat split; try done).
  all: try (intros E; unfold newContent, replace; by rewrite E).
  all: intros pre post Hcont Hidx Hplain; unfold newContent;
    rewrite Hcont in *; rewrite replace_at by done;
    by rewrite getSubstitution_plain.
Qed.

(** X15: regenerating an image of the live article puts the new data URI
    in the article of the render that made the handler, and saves the
    change to the first history item that has the current keyword, under
    that item's id; when the history has no such item, nothing is saved
    and the history stays as it is. *)
Theorem regenerate_updates_live_article (rendered : AppState)
    (oldSrc altText uri : jsstring) r r1 :
  let prompt :=
    if bool_decide (altText = js "FEATURED_IMAGE")
    then featuredPromptOf (currentKeyword rendered)
    else variationPromptOf altText (random100 (world r)) in
  let newContent := replace (articleResult rendered) oldSrc uri in
  viewingHistoryItem rendered = None ->
  generateBlogImage env prompt r = (Normal (Some uri), r1) ->
  uri <> [] ->
  match List.find (fun h => bool_decide (item_keyword h = currentKeyword rendered))
          (history rendered) with
  | Some h =>
      item_keyword h = currentKeyword rendered /\
      forall l w, storeSave (withContent h newContent) (world r1) = (Normal l, w) ->
        exists r',
          handleRegenerateImage env storeSave random100 rendered oldSrc altText r
          = (Normal None, r') /\
          world r' = w /\ articleResult (comp r') = newContent /\
          history (comp r') = l /\
          viewingHistoryItem (comp r') = viewingHistoryItem (comp r)
  | None =>
      exists r',
        handleRegenerateImage env storeSave random100 rendered oldSrc altText r
        = (Normal None, r') /\
        world r' = world r1 /\ articleResult (comp r') = newContent /\
        history (comp r') = history (comp r) /\
        log r' = log r1
  end.
Proof.
  intros prompt newContent Hview Hgen Huri.
  destruct (generateBlogImage_keeps prompt r) as (v' & r'' & E & Hc).
  rewrite Hgen in E. injection E as <- <-.
  assert (truthy (Some uri) = true) as Ht by (by destruct uri).
  destruct (find _ _) as [h|] eqn:Hfind.
  - split.
    { apply find_some in Hfind as [_ Hk]. by apply bool_decide_eq_true in Hk. }
    intros l w Hsave.
    unfold handleRegenerateImage, bind at 1. rewrite Hview, Hfind.
    subst prompt. destruct (bool_decide (altText = js "FEATURED_IMAGE"));
      unfold ret; unfold bind at 1; rewrite Hgen, Ht;
      change (default [] (Some uri)) with uri; fold newContent;
      unfold bind, setState, call, ret; cbn [comp world log]; rewrite Hsave;
      (eexists; split; [reflexivity|]); cbn; by rewrite Hc.
  - unfold handleRegenerateImage, bind at 1. rewrite Hview, Hfind.
    subst prompt. destruct (bool_decide (altText = js "FEATURED_IMAGE"));
      unfold ret; unfold bind at 1; rewrite Hgen, Ht;
      change (default [] (Some uri)) with uri; fold newContent;
      unfold bind, setState, ret;
      (eexists; split; [reflexivity|]); cbn; by rewrite Hc.
Qed.

End HandlerFacts.


Lemma regenerate_failure_changes_nothing_witness :
  let env := scenario plainArticle (Normal []) in
  let r := freshRun [] in
  let r1 := snd (generateBlogImage env (featuredPromptOf []) r) in
  handleRegenerateImage env listSave (fun _ => 7) initialState (js "OLD")
    (js "FEATURED_IMAGE") r
  = (Normal (Some regenerateAlert), r1) /\
  comp r1 = comp r /\
  Forall (fun p => forall item, fst p <> ESaveHistoryItem item)
    (drop (length (log r)) (log r1)).
Proof.
  intros env r r1.
  apply (regenerate_failure_changes_nothing env listSave (fun _ => 7)
           initialState (js "OLD") (js "FEATURED_IMAGE") r None r1);
    reflexivity.
Defined.

Lemma regenerate_updates_viewed_item_witness :
  let env := scenario plainArticle (Normal [jpegPart]) in
  let r := mkRun viewingTwiceShown [] [] in
  exists r',
    handleRegenerateImage env listSave (fun _ => 7) viewingTwiceShown (js "OLD")
      (js "x") r
    = (Normal None, r') /\
    viewingHistoryItem (comp r')
    = Some (withContent twiceShown
              (js "a ![x](data:image/jpeg;base64,AAAA) b ![x](OLD) c")).
Proof.
  intros env r.
  destruct (regenerate_updates_viewed_item env listSave (fun _ => 7)
              viewingTwiceShown twiceShown (js "OLD") (js "x") jpegUri r
              (snd (generateBlogImage env (variationPromptOf (js "x") 7) r))
              [withContent twiceShown (replace (item_content twiceShown) (js "OLD") jpegUri)]
              [withContent twiceShown (replace (item_content twiceShown) (js "OLD") jpegUri)])
    as (r' & E & _ & Hv & _); try reflexivity; [done|].
  exists r'. split; [exact E|]. exact Hv.
Defined.

Lemma regenerate_updates_live_article_witness :
  let env := scenario plainArticle (Normal [jpegPart]) in
  let r := mkRun liveMarathon [] [] in
  exists r',
    handleRegenerateImage env listSave (fun _ => 7) liveMarathon (js "OLD")
      (js "x") r
    = (Normal None, r') /\
    articleResult (comp r') = js "a ![x](data:image/jpeg;base64,AAAA) b" /\
    history (comp r')
    = [withContent twiceShown (js "a ![x](data:image/jpeg;base64,AAAA) b")].
Proof.
  intros env r.
  pose proof (regenerate_updates_live_article env listSave (fun _ => 7)
                liveMarathon (js "OLD") (js "x") jpegUri r
                (snd (generateBlogImage env (variationPromptOf (js "x") 7) r))
                eq_refl eq_refl) as H.
  cbv zeta in H. simpl find in H.
  destruct H as [_ H]; [done|].
  destruct (H _ _ eq_refl) as (r' & E & _ & Ha & Hh & _).
  exists r'. split; [exact E|]. split; [exact Ha|exact Hh].
Defined.

(** ** Deleting from the history ([App.tsx] on [storageService.ts]) *)

(** X16: with the history store of the service, on a database on which
    nothing fails, [handleDeleteHistory] leaves in the history shown
    exactly the stored records of another id, newest first, and closes the
    viewer when the item viewed is the one deleted: what the viewer shows
    afterwards is never the deleted item. *)
Theorem deleted_item_is_gone (id : jsstring)
    (r : @Run StorageService.Idb) :
  StorageService.healthy (world r) ->
  StorageService.wellKeyed (StorageService.idb_records (world r)) ->
  exists r',
    handleDeleteHistory StorageService.deleteHistoryItem (comp r) id r
    = (Normal tt, r') /\
    StorageService.idb_records (world r')
    = StorageService.deleteRecord id (StorageService.idb_records (world r)) /\
    (forall h, h ∈ history (comp r') <->
               h ∈ StorageService.idb_records (world r) /\ item_id h <> id) /\
    StorageService.newestFirst (history (comp r')) /\
    (forall h, viewingHistoryItem (comp r') = Some h ->
               item_id h <> id /\ viewingHistoryItem (comp r) = Some h) /\
    (viewingHistoryItem (comp r') = None ->
     forall h, viewingHistoryItem (comp r) = Some h -> item_id h = id).
Proof.
  intros H Hk.
  destruct (StorageFacts.deleteHistoryItem_healthy id (world r) H)
    as (db' & Hdel & H' & Hr').
  unfold handleDeleteHistory, bind, quietly. rewrite Hdel.
  unfold setState. cbn [comp world log].
  destruct (viewingHistoryItem (comp r)) as [h|] eqn:Hv.
  - destruct (bool_decide (item_id h = id)) eqn:Hid.
    + apply bool_decide_eq_true in Hid.
      eexists. split; [reflexivity|]. cbn. split; [done|]. split.
      { intros x. by rewrite StorageFacts.sortNewestFirst_elem,
                            StorageFacts.deleteRecord_elem. }
      split; [apply StorageFacts.sortNewestFirst_sorted|].
      split; [done|]. intros _ x [= <-]. done.
    + apply bool_decide_eq_false in Hid.
      eexists. split; [reflexivity|]. cbn. split; [done|]. split.
      { intros x. by rewrite StorageFacts.sortNewestFirst_elem,
                            StorageFacts.deleteRecord_elem. }
      split; [apply StorageFacts.sortNewestFirst_sorted|].
      rewrite Hv. split; [|done]. intros x [= <-]. done.
  - eexists. split; [reflexivity|]. cbn. split; [done|]. split.
    { intros x. by rewrite StorageFacts.sortNewestFirst_elem,
                          StorageFacts.deleteRecord_elem. }
    split; [apply StorageFacts.sortNewestFirst_sorted|].
    rewrite Hv. split; [done|]. done.
Qed.

Lemma deleted_item_is_gone_witness :
  let r := mkRun (upd_viewingHistoryItem (Some articleA) initialState) quietDb [] in
  exists r',
    handleDeleteHistory StorageService.deleteHistoryItem (comp r)
      (js "1700000000000") r
    = (Normal tt, r') /\
    history (comp r') = [articleB] /\ viewingHistoryItem (comp r') = None.
Proof.
  intros r.
  destruct (deleted_item_is_gone (js "1700000000000") r)
    as (r' & E & _); [exact StorageFacts.quietDb_healthy
                     |exact StorageFacts.quietDb_wellKeyed|].
  exists r'. split; [exact E|].
  unfold r in E. vm_compute in E. injection E as <-. split; reflexivity.
Defined.

(** ** Runs of a class replaced by a text *)

Lemma run_split (p : N -> bool) (s : jsstring) :
  exists run post,
    s = run ++ post /\ Forall (fun c => p c = true) run /\
    (forall c, head post = Some c -> p c = false).
Proof.
  induction s as [|c s (run & post & -> & Hr & Hp)].
  - exists [], []. by repeat split.
  - destruct (p c) eqn:E.
    + exists (c :: run), post. repeat split; [by constructor|done].
    + exists [], (c :: run ++ post). repeat split; [constructor|].
      intros x [= <-]. done.
Qed.

Lemma collapseRuns_run (p : N -> bool) (repl run post : jsstring) :
  Forall (fun c => p c = true) run ->
  collapseRuns p repl (run ++ post) true = collapseRuns p repl post true.
Proof. induction 1 as [|c run Hc _ IH]; simpl; [done|]. by rewrite Hc. Qed.

Lemma collapseRuns_flag (p : N -> bool) (repl post : jsstring) :
  (forall c, head post = Some c -> p c = false) ->
  collapseRuns p repl post true = collapseRuns p repl post false.
Proof. destruct post as [|c post]; [done|]. intros H. simpl. by rewrite (H c). Qed.

Lemma rexec_runOf_miss (n : nat) (p : N -> bool) (c : N) (s : jsstring) :
  p c = false -> rexec n (runOf p) (c :: s) = None.
Proof. intros H. unfold rexec, runOf. simpl. by rewrite H. Qed.

Lemma rexec_runOf_hit (n : nat) (p : N -> bool) (c : N) (run post : jsstring) :
  p c = true -> Forall (fun c => p c = true) run ->
  (forall c, head post = Some c -> p c = false) ->
  rexec n (runOf p) (c :: run ++ post) = Some (c :: run, replicate n None).
Proof.
  intros Hc Hrun Hpost. unfold rexec, runOf. cbn [rmatch]. rewrite Hc.
  apply starGreedy_run; [done|done|].
  f_equal. f_equal.
  change (c :: run ++ post) with ((c :: run) ++ post).
  apply take_app_sub.
Qed.

Lemma matchAll_from_skip (n : nat) (r : regex) (pre s : jsstring) (idx : nat) :
  matchAll_from n r (pre ++ s) idx (length pre)
  = matchAll_from n r s (idx + length pre) 0.
Proof.
  revert idx. induction pre as [|c pre IH]; intros idx.
  - by rewrite Nat.add_0_r.
  - cbn [List.app length matchAll_from]. rewrite IH. f_equal. lia.
Qed.

(** Replacing by a pattern [re+] with the [g] flag collapses the runs. *)
Lemma replace_runs_from (n : nat) (p : N -> bool) (repl : jsstring) (len : nat) :
  forall s pre mid, (length s <= len)%nat ->
  spliceMatches (pre ++ mid ++ s) (length pre)
    (matchAll_from n (runOf p) s (length pre + length mid) 0) repl
  = mid ++ collapseRuns p repl s false.
Proof.
  induction len as [|len IH]; intros s pre mid Hlen.
  - destruct s; [|simpl in Hlen; lia]. simpl.
    by rewrite !app_nil_r, drop_app_length.
  - destruct s as [|c s].
    + simpl. by rewrite !app_nil_r, drop_app_length.
    + destruct (p c) eqn:Hc.
      * destruct (run_split p s) as (run & post & -> & Hrun & Hpost).
        cbn [matchAll_from]. rewrite rexec_runOf_hit by done.
        cbn [length Nat.pred]. rewrite matchAll_from_skip.
        cbn [spliceMatches m_index m_full].
        replace (length pre + length mid - length pre)%nat with (length mid) by lia.
        rewrite drop_app_length, take_app_length.
        cbn [collapseRuns]. rewrite Hc. cbn [List.app].
        rewrite collapseRuns_run, collapseRuns_flag by done.
        f_equal. f_equal.
        specialize (IH post (pre ++ mid ++ c :: run) []).
        rewrite !length_app in IH. cbn [length] in IH.
        rewrite Nat.add_0_r in IH.
        replace (S (length pre + length mid) + length run)%nat
          with (length pre + (length mid + S (length run)))%nat by lia.
        replace (length pre + length mid + S (length run))%nat
          with (length pre + (length mid + S (length run)))%nat by lia.
        cbn [List.app] in IH. rewrite <- IH.
        -- f_equal.
           ++ rewrite <- !app_assoc. cbn [List.app]. by rewrite <- ?app_assoc.
           ++ cbn [length]. lia.
        -- simpl in Hlen. rewrite length_app in Hlen. lia.
      * cbn [matchAll_from]. rewrite rexec_runOf_miss by done.
        cbn [collapseRuns]. rewrite Hc.
        specialize (IH s pre (mid ++ [c])).
        rewrite length_app in IH. cbn [length] in IH.
        replace (S (length pre + length mid)) with (length pre + (length mid + 1))%nat by lia.
        rewrite <- !app_assoc in IH. cbn [List.app] in IH.
        rewrite IH by (simpl in Hlen; lia). done.
Qed.

Lemma replace_runs (n : nat) (p : N -> bool) (s repl : jsstring) :
  replaceRegexAll n (runOf p) s repl = collapseRuns p repl s false.
Proof.
  unfold replaceRegexAll, matchAll.
  exact (replace_runs_from n p repl (length s) s [] [] (Nat.le_refl _)).
Qed.

Lemma collapseRuns_chars (p : N -> bool) (repl s : jsstring) (b : bool) :
  Forall (fun c => p c = false \/ c ∈ repl) (collapseRuns p repl s b).
Proof.
  revert b. induction s as [|c s IH]; intros b; simpl; [constructor|].
  destruct (p c) eqn:E.
  - apply Forall_app. split; [|apply IH].
    destruct b; [constructor|]. apply Forall_forall. intros x Hx. by right.
  - constructor; [by left|apply IH].
Qed.

Lemma adjacent_cons (d x : N) (l : jsstring) :
  adjacent d l = false -> (x <> d \/ forall c, head l = Some c -> c <> d) ->
  adjacent d (x :: l) = false.
Proof.
  intros Hl Hx. destruct l as [|y t]; [done|].
  change (adjacent d (x :: y :: t))
    with ((x =? d) && (y =? d) || adjacent d (y :: t)).
  rewrite Hl.
  destruct Hx as [Hx|Hy].
  - apply N.eqb_neq in Hx. by rewrite Hx.
  - specialize (Hy y eq_refl). apply N.eqb_neq in Hy. rewrite Hy.
    by rewrite andb_false_r.
Qed.

Lemma collapseRuns_adjacent (p : N -> bool) (d : N) (s : jsstring) :
  p d = true ->
  adjacent d (collapseRuns p [d] s false) = false /\
  adjacent d (collapseRuns p [d] s true) = false /\
  (forall c, head (collapseRuns p [d] s true) = Some c -> c <> d).
Proof.
  intros Hd. induction s as [|c s (IH1 & IH2 & IH3)]; [done|].
  simpl. destruct (p c) eqn:E; cbn [List.app].
  - split; [|split; [done|done]]. apply adjacent_cons; [done|by right].
  - assert (c <> d) as Hc by (intros ->; congruence).
    split; [|split].
    + apply adjacent_cons; [done|by left].
    + apply adjacent_cons; [done|by left].
    + by intros x [= <-].
Qed.

Lemma adjacent_includes (d : N) (l : jsstring) :
  adjacent d l = false -> includes l [d; d] = false.
Proof.
  intros H. unfold includes.
  assert (indexOf [d; d] l = None) as ->; [|done].
  induction l as [|x l IH]; [done|].
  destruct l as [|y t].
  - rewrite indexOf_cons_miss; [done|]. simpl. by rewrite andb_false_r.
  - change (adjacent d (x :: y :: t))
      with ((x =? d) && (y =? d) || adjacent d (y :: t)) in H.
    apply orb_false_iff in H as [H1 H2].
    rewrite indexOf_cons_miss.
    + by rewrite IH.
    + cbn [isPrefix]. rewrite andb_true_r.
      by rewrite (N.eqb_sym d x), (N.eqb_sym d y).
Qed.

(** ** Names derived from text ([App.tsx], [ResultViewer.tsx]) *)

Lemma matchFirst_absent (n : nat) (label : jsstring) (rest : regex)
    (s : jsstring) (idx : nat) :
  includes s label = false ->
  matchFirst n (RSeq (rlit label) rest) s idx = None.
Proof.
  unfold includes. destruct (indexOf label s) eqn:E; [done|]. intros _.
  assert (forall j, isPrefix label (drop j s) = false) as H
    by (intros j; by apply indexOf_None).
  clear E. revert idx. induction s as [|c s IH]; intros idx.
  - pose proof (H 0%nat) as H0. rewrite drop_0 in H0.
    cbn [matchFirst]. unfold rexec. cbn [rmatch]. rewrite rmatch_rlit.
    by rewrite H0.
  - pose proof (H 0%nat) as H0. rewrite drop_0 in H0.
    cbn [matchFirst]. unfold rexec. cbn [rmatch]. rewrite rmatch_rlit.
    rewrite H0. apply IH. intros j. apply (H (S j)).
Qed.

(** X17: what [parseArticleData] falls back on.  An article without the
    text [Meta Title:] has the keyword for title, one without
    [Meta Description:] the empty description.  Without [Slug:] the slug
    is the lower-cased keyword with every run of code units other than
    [a-z] and [0-9] given up for one hyphen: it holds nothing but [a-z],
    [0-9] and hyphens, and no two hyphens in a row.  The clean body never
    starts or ends with white space. *)
Theorem parseArticleData_fallbacks (xenv : ExportEnv) (content keyword : jsstring) :
  let d := parseArticleData xenv content keyword in
  (includes content (js "Meta Title:") = false -> title d = keyword) /\
  (includes content (js "Meta Description:") = false -> metaDesc d = []) /\
  (includes content (js "Slug:") = false ->
   slug d = collapseRuns (fun c => negb (isSlugChar c)) (js "-")
              (toLowerCase xenv keyword) false /\
   Forall (fun c => isSlugChar c = true \/ c = 45) (slug d) /\
   includes (slug d) (js "--") = false) /\
  (forall c, head (cleanBody d) = Some c -> isWhiteSpace c = false) /\
  (forall c, last (cleanBody d) = Some c -> isWhiteSpace c = false).
Proof.
  intros d. unfold d, parseArticleData, fieldRegex. cbv zeta.
  cbn [title metaDesc slug cleanBody].
  split; [|split; [|split]].
  - intros H. by rewrite matchFirst_absent.
  - intros H. by rewrite matchFirst_absent.
  - intros H. rewrite (matchFirst_absent _ (js "Slug:")) by done.
    change nonSlugRun with (runOf (fun c => negb (isSlugChar c))).
    rewrite replace_runs. split; [done|]. split.
    + eapply Forall_impl; [apply collapseRuns_chars|].
      intros c [Hc|Hc].
      * left. by apply negb_false_iff.
      * right. by apply list_elem_of_singleton in Hc.
    + apply adjacent_includes.
      by apply (collapseRuns_adjacent (fun c => negb (isSlugChar c)) 45).
  - match goal with
    | |- context [trim ?x] =>
        destruct (trim_spec x) as (a & b & _ & _ & _ & Hh & Hl)
    end.
    by split.
Qed.

Lemma parseArticleData_fallbacks_witness :
  let d := parseArticleData exportScenario (js "Hello") (js "hanoi  marathon 2025!") in
  title d = js "hanoi  marathon 2025!" /\ metaDesc d = [] /\
  slug d = js "hanoi-marathon-2025-".
Proof.
  intros d.
  destruct (parseArticleData_fallbacks exportScenario (js "Hello")
              (js "hanoi  marathon 2025!")) as (Ht & Hd & Hs & _).
  split; [by apply Ht|]. split; [by apply Hd|].
  destruct Hs as (Hs & _); [done|]. exact Hs.
Defined.

(** X18: the file name under which [ResultViewer] offers an image: the
    first 30 code units of the alt text with every run of white space
    given up for one hyphen, then [.png], whatever the type of the image.
    It holds no white space and has at most 34 code units; an alt text of
    white space only gives [-.png]. *)
Theorem downloadNameOf_safe (altText : jsstring) :
  let name := downloadNameOf altText in
  name = take 30 (collapseRuns isWhiteSpace (js "-") altText false) ++ js ".png" /\
  Forall (fun c => isWhiteSpace c = false) name /\
  (length name <= 34)%nat /\
  (altText <> [] -> Forall (fun c => isWhiteSpace c = true) altText ->
   name = js "-.png").
Proof.
  intros name. unfold name, downloadNameOf.
  change whiteRun with (runOf isWhiteSpace). rewrite replace_runs.
  change (js ".png") with [46; 112; 110; 103].
  split; [done|]. split; [|split].
  - apply Forall_app. split; [|by repeat constructor].
    apply Forall_take. eapply Forall_impl; [apply collapseRuns_chars|].
    intros x [Hx|Hx]; [done|]. by apply list_elem_of_singleton in Hx as ->.
  - rewrite length_app, length_take. cbn [length]. lia.
  - intros Hne Hws. destruct altText as [|c t]; [done|].
    apply Forall_cons in Hws as [Hc Ht].
    cbn [collapseRuns]. rewrite Hc.
    rewrite <- (app_nil_r t), collapseRuns_run by done. done.
Qed.

Lemma downloadNameOf_safe_witness :
  downloadNameOf (js " ") = js "-.png".
Proof.
  apply (downloadNameOf_safe (js " ")); [done|by repeat constructor].
Defined.

(** ** The files of a package ([App.tsx]) *)











(** ** The attachments of a WXR document ([App.tsx]) *)

Lemma wxrLoop_attachments (xenv : ExportEnv) (ms : list Match) :
  forall (i : nat) (acc : WxrImages),
  attachmentItemsXml (wxrLoop xenv ms i acc)
  = attachmentItemsXml acc ++ concat (attachmentItemsOf xenv ms i) /\
  featuredImageId (wxrLoop xenv ms i acc)
  = match lastFeatured ms i with
    | Some j => numberToString (postId xenv + N.of_nat j + 1)
    | None => featuredImageId acc
    end.
Proof.
  induction ms as [|m ms IH]; intros i acc.
  - simpl. by rewrite app_nil_r.
  - cbn [wxrLoop attachmentItemsOf lastFeatured concat]. cbv zeta.
    destruct (IH (S i)
                (mkWxrImages
                   (attachmentItemsXml acc ++
                    attachmentItemOf xenv i (postId xenv + N.of_nat i + 1)
                      (compressIfNeeded xenv (group m 1)) (group m 0))
                   (if bool_decide (group m 0 = js "FEATURED_IMAGE")
                    then numberToString (postId xenv + N.of_nat i + 1)
                    else featuredImageId acc)
                   (if bool_decide (group m 0 = js "FEATURED_IMAGE")
                    then splitJoin (optimizedBody acc) (m_full m) []
                    else splitJoin (optimizedBody acc) (m_full m)
                           (htmlFigureOf (postId xenv + N.of_nat i + 1)
                              (compressIfNeeded xenv (group m 1)) (group m 0)))))
      as [-> ->].
    cbn [attachmentItemsXml featuredImageId]. split; [by rewrite <- app_assoc|].
    destruct (lastFeatured ms (S i)); [done|].
    by destruct (bool_decide (group m 0 = js "FEATURED_IMAGE")).
Qed.

Lemma attachmentItemsOf_lookup (xenv : ExportEnv) (ms : list Match) :
  forall (i j : nat) (m : Match),
  ms !! j = Some m ->
  attachmentItemsOf xenv ms i !! j
  = Some (attachmentItemOf xenv (i + j) (postId xenv + N.of_nat (i + j) + 1)
            (compressIfNeeded xenv (group m 1)) (group m 0)).
Proof.
  induction ms as [|m0 ms IH]; intros i [|j] m H; simpl in H; try done.
  - injection H as ->. by rewrite Nat.add_0_r.
  - simpl. rewrite (IH (S i) j m H). by replace (S i + j)%nat with (i + S j)%nat by lia.
Qed.

Lemma lastFeatured_None (ms : list Match) (i : nat) :
  lastFeatured ms i = None <->
  Forall (fun m => group m 0 <> js "FEATURED_IMAGE") ms.
Proof.
  revert i. induction ms as [|m ms IH]; intros i; simpl; [by split; constructor|].
  rewrite Forall_cons, <- (IH (S i)).
  destruct (lastFeatured ms (S i)); [by split; [|intros [_ ?]]|].
  destruct (bool_decide_reflect (group m 0 = js "FEATURED_IMAGE")); split; try done.
  by intros [? _].
Qed.

Lemma lastFeatured_Some (ms : list Match) (i j : nat) :
  lastFeatured ms i = Some j ->
  exists k m, j = (i + k)%nat /\ ms !! k = Some m /\
              group m 0 = js "FEATURED_IMAGE" /\
              forall k' m', (k < k')%nat -> ms !! k' = Some m' ->
                            group m' 0 <> js "FEATURED_IMAGE".
Proof.
  revert i. induction ms as [|m ms IH]; intros i; simpl; [done|].
  destruct (lastFeatured ms (S i)) as [j'|] eqn:E.
  - intros [= ->]. destruct (IH (S i) E) as (k & m' & -> & Hk & Hf & Hlast).
    exists (S k), m'. split; [lia|]. split; [done|]. split; [done|].
    intros [|k'] m'' Hlt Hm''; [lia|]. apply (Hlast k' m''); [lia|done].
  - destruct (bool_decide_reflect (group m 0 = js "FEATURED_IMAGE")); [|done].
    intros [= <-]. exists 0%nat, m. split; [lia|]. split; [done|]. split; [done|].
    intros [|k'] m' Hlt Hm'; [lia|]. simpl in Hm'.
    apply lastFeatured_None in E. rewrite Forall_forall in E. apply E.
    by eapply list_elem_of_lookup_2.
Qed.

(** X20: the WXR export writes one attachment item for each image
    reference extracted from the clean body, in order of appearance, the
    [i]-th one (from 0) with id [postId + i + 1].  The thumbnail entry is
    there exactly when some reference has the alt text [FEATURED_IMAGE],
    and it holds the id of the last such reference. *)
Theorem wxr_one_attachment_per_image (xenv : ExportEnv) (body : jsstring) :
  let ms := matchAll 2 dataImageRegex body in
  let imgs := wxrImages xenv body in
  let items := attachmentItemsOf xenv ms 0 in
  attachmentItemsXml imgs = concat items /\
  length items = length ms /\
  (forall i m, ms !! i = Some m ->
     items !! i
     = Some (attachmentItemOf xenv i (postId xenv + N.of_nat i + 1)
               (compressIfNeeded xenv (group m 1)) (group m 0))) /\
  (thumbnailMeta (featuredImageId imgs) = [] <->
   Forall (fun m => group m 0 <> js "FEATURED_IMAGE") ms) /\
  (forall j m, ms !! j = Some m -> group m 0 = js "FEATURED_IMAGE" ->
     (forall j' m', (j < j')%nat -> ms !! j' = Some m' ->
                    group m' 0 <> js "FEATURED_IMAGE") ->
     thumbnailMeta (featuredImageId imgs)
     = thumbnailEntry (numberToString (postId xenv + N.of_nat j + 1))).
Proof.
  intros ms imgs items. unfold imgs, wxrImages. fold ms.
  destruct (wxrLoop_attachments xenv ms 0 (mkWxrImages [] [] body)) as [Ha Hf].
  rewrite Ha, Hf. cbn [attachmentItemsXml featuredImageId List.app].
  assert (forall n, thumbnailMeta (numberToString n) = thumbnailEntry (numberToString n))
    as Hthumb.
  { intros n. unfold thumbnailMeta. destruct (numberToString n) eqn:E; [|done].
    by apply numberToString_nonempty in E. }
  split; [reflexivity|]. split.
  { unfold items. generalize 0%nat. generalize ms. clear.
    induction ms as [|m ms IH]; intros i; simpl; [done|]. by rewrite IH. }
  split; [intros i m Hm; exact (attachmentItemsOf_lookup xenv ms 0 i m Hm)|].
  split.
  - rewrite <- (lastFeatured_None ms 0).
    destruct (lastFeatured ms 0) as [j|]; [|done].
    rewrite Hthumb. split; [|done]. intros E. exfalso.
    apply (f_equal (@length N)) in E. unfold thumbnailEntry in E.
    rewrite !length_app in E. simpl in E. lia.
  - intros j m Hm Hfeat Hlast.
    destruct (lastFeatured ms 0) as [j0|] eqn:E.
    + apply lastFeatured_Some in E as (k & m0 & -> & Hk & Hf0 & Hlast0).
      simpl. rewrite Hthumb.
      destruct (Nat.lt_trichotomy j k) as [Hlt|[->|Hgt]].
      * exfalso. by apply (Hlast k m0).
      * done.
      * exfalso. by apply (Hlast0 j m).
    + apply lastFeatured_None in E. rewrite Forall_forall in E.
      exfalso. apply (E m); [|done]. by eapply list_elem_of_lookup_2.
Qed.

Lemma wxr_one_attachment_per_image_witness :
  thumbnailMeta (featuredImageId (wxrImages exportScenario featuredOnlyBody))
  = thumbnailEntry (numberToString 4712).
Proof.
  destruct (wxr_one_attachment_per_image exportScenario featuredOnlyBody)
    as (_ & _ & _ & _ & H).
  apply (H 0%nat
           (mkMatch 0 (js "![FEATURED_IMAGE](data:image/jpeg;base64,AAAA)")
              [Some (js "FEATURED_IMAGE"); Some (js "data:image/jpeg;base64,AAAA")])).
  - vm_compute. reflexivity.
  - reflexivity.
  - intros [|j'] m' Hlt Hm'; [lia|]. vm_compute in Hm'. done.
Defined.

(** ** Sources of a response ([services/geminiService.ts]) *)

Lemma sourceLines_web (chunks : list GroundingChunk) :
  sourceLines chunks = concat (map sourceLine (webChunks chunks)).
Proof.
  induction chunks as [|[web|] chunks IH]; simpl; [done| |done].
  by rewrite IH.
Qed.

(** X21: [appendSources] leaves a text without grounding chunks as it is;
    otherwise it appends the heading and one line for each chunk that has
    a [web] part, in order, the other chunks giving nothing: chunks of
    which none has a [web] part give the heading alone.  The text is kept
    in front in every case, and it is returned unchanged only when there
    is no chunk. *)
Theorem appendSources_lines (text : jsstring) (chunks : option (list GroundingChunk)) :
  (exists tail, appendSources text chunks = text ++ tail) /\
  (appendSources text chunks = text <-> chunks = None \/ chunks = Some []) /\
  (forall cs, chunks = Some cs -> cs <> [] ->
     appendSources text chunks
     = text ++ sourcesHeader ++ concat (map sourceLine (webChunks cs)) /\
     (webChunks cs = [] -> appendSources text chunks = text ++ sourcesHeader)).
Proof.
  split; [|split].
  - destruct chunks as [[|c cs]|]; simpl.
    + exists []. by rewrite app_nil_r.
    + by eexists.
    + exists []. by rewrite app_nil_r.
  - destruct chunks as [[|c cs]|]; simpl.
    + split; [by right|done].
    + split; [|by intros [|]].
      intros E. exfalso. apply (f_equal (@length N)) in E.
      rewrite !length_app in E. simpl in E. lia.
    + split; [by left|done].
  - intros cs -> Hne. destruct cs as [|c cs]; [done|].
    cbn [appendSources]. rewrite sourceLines_web. split; [done|].
    intros ->. by rewrite app_nil_r.
Qed.

Lemma appendSources_lines_witness :
  appendSources (js "text") (Some [None; Some (None, Some (js "https://a.b"))])
  = js "text" ++ sourcesHeader ++ js "- [Source](https://a.b)" ++ NL.
Proof.
  destruct (appendSources_lines (js "text")
              (Some [None; Some (None, Some (js "https://a.b"))])) as (_ & _ & H).
  destruct (H _ eq_refl) as [E _]; [done|]. exact E.
Defined.

(** ** The step indicator ([components/StepIndicator.tsx]) *)

(** X22: the indicator draws the five steps in order, those before the
    current one checked off, the current one marked as such, the others
    not yet reached: exactly one step is current.  A step that is checked
    off shows no number; every step but the last is followed by a
    connector, which takes the mark of its step. *)
Theorem stepIndicator_marks (currentStep : AppStep) :
  let n := Z.to_nat (stepId currentStep) in
  let views := stepIndicator currentStep in
  map sv_mark views
  = replicate (n - 1) Completed ++ [Current] ++ replicate (5 - n) Upcoming /\
  map sv_label views = map snd steps /\
  map sv_number views
  = replicate (n - 1) None ++ map (fun i => Some (Z.of_nat i)) (seq n (6 - n)) /\
  map sv_connector views
  = map Some (take 4 (map sv_mark views)) ++ [None].
Proof. destruct currentStep; vm_compute; done. Qed.

(** ** Invariants of the component state ([App.tsx]) *)

Section KeepsFacts.
Context {World : Type}.
Variable env : Env World.
Variable I : AppState -> Prop.
Implicit Types (r : @Run World).











End KeepsFacts.

Section StepFacts.
Context {World : Type}.
Variable env : Env World.
Variable storeSave : HistoryItem -> World -> Completion (list HistoryItem) * World.
Variable storeDelete : jsstring -> World -> Completion (list HistoryItem) * World.
Variable random100 : World -> N.
Implicit Types (r : @Run World).









End StepFacts.


(** ** The history records of a run ([processNextKeyword]) *)


Section SavedFacts.
Context {World : Type}.
Variable env : Env World.
Implicit Types (r : @Run World).








Lemma quiet_steady {A} (m : @M World A) :
  steady (fun e => forall item, e <> ESaveHistoryItem item) m -> quiet m.
Proof.
  intros Hm r. destruct (Hm r) as (c & r' & new & E & Hl & _ & Hall).
  exists new. rewrite E. split; [done|]. clear -Hall.
  induction Hall as [|[e a] l [He _] _ IH]; [done|].
  simpl in He. destruct e; try done. by destruct (He item).
Qed.

Lemma quiet_generateBlogImage (prompt : jsstring) :
  quiet (generateBlogImage env prompt).
Proof. apply quiet_steady. by apply steady_generateBlogImage. Qed.






End SavedFacts.

(** ** The chat session and the text stages ([geminiService.ts]) *)

Module ChatFacts.
Import ChatService.

Ltac stage_cases :=
  unfold execute, executeStep1, executeStep2, executeStep3, executeStep4,
    ensureSession, requireSession, initializeSession, converse, try_catch,
    bind, ret, throw, sendMessage, promptOf, outcomeOf, fallbackOf.

Lemma execute_with_session (stage : Stage) (keyword : jsstring)
    (language : OutputLanguage) (chat : Chat) (g : Gemini) :
  chatSession g = Some chat ->
  let transcript := sent g ++ [(chat, promptOf stage keyword language)] in
  execute stage keyword language g
  = (outcomeOf stage (answer g transcript),
     mkGemini (Some chat) transcript (answer g)).
Proof.
  intros H transcript. subst transcript.
  destruct stage, language; stage_cases; rewrite H; cbn [chatSession];
    rewrite ?H; by destruct (answer g _).
Qed.

Lemma execute_opens_session (stage : Stage) (keyword : jsstring)
    (language : OutputLanguage) (g : Gemini) :
  chatSession g = None -> opensSession stage = true ->
  let chat := chatOf language in
  let transcript := sent g ++ [(chat, promptOf stage keyword language)] in
  execute stage keyword language g
  = (outcomeOf stage (answer g transcript),
     mkGemini (Some chat) transcript (answer g)).
Proof.
  intros H Ho chat transcript. subst chat transcript.
  destruct stage; try done; destruct language; stage_cases; rewrite H;
    cbn [chatSession sent answer default]; by destruct (answer g _).
Qed.

Lemma execute_needs_session (stage : Stage) (keyword : jsstring)
    (language : OutputLanguage) (g : Gemini) :
  chatSession g = None -> opensSession stage = false ->
  execute stage keyword language g
  = (Throw (newError (js "Session not initialized")), g).
Proof.
  intros H Ho. destruct stage; try done; stage_cases; by rewrite H.
Qed.

(** X25: a stage called while a session exists sends its message to that
    session and leaves it in place, whether the service answers or fails;
    the language of the call chooses the prompt only, the system
    instruction stays the one the session was made with. *)
Theorem stage_keeps_the_session (stage : Stage) (keyword : jsstring)
    (language : OutputLanguage) (chat : Chat) (g : Gemini) :
  chatSession g = Some chat ->
  exists g',
    execute stage keyword language g
    = (outcomeOf stage (answer g (sent g')), g') /\
    chatSession g' = Some chat /\
    sent g' = sent g ++ [(chat, promptOf stage keyword language)] /\
    answer g' = answer g.
Proof.
  intros H.
  exists (mkGemini (Some chat)
            (sent g ++ [(chat, promptOf stage keyword language)]) (answer g)).
  split; [by apply execute_with_session|done].
Qed.

Lemma stage_keeps_the_session_witness :
  exists g',
    ChatService.executeStep1 (js "marathon") en vietnameseSession
    = (Normal (js "1"), g') /\
    chatSession g' = Some (chatOf vi) /\
    sent g' = [(chatOf vi, promptEn1 (js "marathon"))] /\
    chat_systemInstruction (chatOf vi) <> chat_systemInstruction (chatOf en).
Proof.
  destruct (stage_keeps_the_session Step1 (js "marathon") en (chatOf vi)
              vietnameseSession) as (g' & E & Hc & Hs & _); [reflexivity|].
  exists g'. split; [|split; [done|split; [done|]]].
  - rewrite Hs in E. exact E.
  - vm_compute. discriminate.
Defined.

(** X26: without a session, the third and the fourth stage throw
    [Session not initialized] and send nothing, while the first and the
    second make a session for their language and send their message to it;
    that session stays when the service fails. *)
Theorem stage_without_session (stage : Stage) (keyword : jsstring)
    (language : OutputLanguage) (g : Gemini) :
  chatSession g = None ->
  if opensSession stage
  then
    exists g',
      execute stage keyword language g
      = (outcomeOf stage (answer g (sent g')), g') /\
      chatSession g' = Some (chatOf language) /\
      sent g' = sent g ++ [(chatOf language, promptOf stage keyword language)]
  else
    execute stage keyword language g
    = (Throw (newError (js "Session not initialized")), g).
Proof.
  intros H. destruct (opensSession stage) eqn:Ho.
  - exists (mkGemini (Some (chatOf language))
              (sent g ++ [(chatOf language, promptOf stage keyword language)])
              (answer g)).
    split; [by apply execute_opens_session|done].
  - by apply execute_needs_session.
Qed.

Lemma stage_without_session_witness :
  ChatService.executeStep3 vi noSession
  = (Throw (newError (js "Session not initialized")), noSession).
Proof.
  exact (stage_without_session Step3 [] vi noSession eq_refl).
Defined.

(** X27: the text stages of a keyword, called in the order of
    [processNextKeyword] after [resetSession], all talk to one session, made
    by the first stage for the language of the run, whatever session was
    there before; the messages sent are the prompts of the stages in order,
    up to the first one at which the service fails, and the outcome is that
    of the last message: the check for a session in the third and the
    fourth stage never fires. *)
Theorem text_stages_share_a_session (keyword : jsstring)
    (language : OutputLanguage) (g : Gemini) :
  let chat := chatOf language in
  let prompts :=
    map (fun stage => (chat, promptOf stage keyword language))
      [Step1; Step2; Step3; Step4] in
  exists (n : nat) g',
    textStages keyword language g
    = (outcomeOf Step4 (answer g (sent g')), g') /\
    (1 <= n <= 4)%nat /\
    sent g' = sent g ++ take n prompts /\
    chatSession g' = Some chat /\
    (forall m, (0 < m < n)%nat ->
       exists response, answer g (sent g ++ take m prompts) = Normal response) /\
    ((n < 4)%nat -> exists error, answer g (sent g') = Throw error).
Proof.
  intros chat prompts.
  set (p1 := (chat, promptOf Step1 keyword language)).
  set (p2 := (chat, promptOf Step2 keyword language)).
  set (p3 := (chat, promptOf Step3 keyword language)).
  set (p4 := (chat, promptOf Step4 keyword language)).
  assert (prompts = [p1; p2; p3; p4]) as -> by done.
  unfold textStages. unfold bind at 1. cbn [resetSession].
  set (g0 := mkGemini None (sent g) (answer g)).
  unfold bind at 1.
  change (executeStep1 keyword language) with (execute Step1 keyword language).
  rewrite (execute_opens_session Step1 keyword language g0 eq_refl eq_refl).
  cbv zeta. cbn [sent answer g0]. fold chat. fold p1.
  destruct (answer g (sent g ++ [p1])) as [r1|e1] eqn:E1; cbn [outcomeOf].
  2:{ exists 1%nat, (mkGemini (Some chat) (sent g ++ [p1]) (answer g)).
      split; [|split; [lia|split; [done|split; [done|split]]]].
      - cbn [sent]. by rewrite E1.
      - intros m Hm. lia.
      - intros _. exists e1. by rewrite <- E1. }
  set (g1 := mkGemini _ _ _).
  unfold bind at 1.
  change (executeStep2 keyword language) with (execute Step2 keyword language).
  rewrite (execute_with_session Step2 keyword language chat g1 eq_refl).
  cbv zeta. cbn [sent answer g1]. fold p2. rewrite <- app_assoc. cbn [app].
  destruct (answer g (sent g ++ [p1; p2])) as [r2|e2] eqn:E2; cbn [outcomeOf].
  2:{ exists 2%nat, (mkGemini (Some chat) (sent g ++ [p1; p2]) (answer g)).
      split; [|split; [lia|split; [done|split; [done|split]]]].
      - cbn [sent]. by rewrite E2.
      - intros m Hm. assert (m = 1%nat) as -> by lia. by exists r1.
      - intros _. exists e2. by rewrite <- E2. }
  set (g2 := mkGemini _ _ _).
  unfold bind at 1.
  change (executeStep3 language) with (execute Step3 keyword language).
  rewrite (execute_with_session Step3 keyword language chat g2 eq_refl).
  cbv zeta. cbn [sent answer g2]. fold p3. rewrite <- app_assoc. cbn [app].
  destruct (answer g (sent g ++ [p1; p2; p3])) as [r3|e3] eqn:E3; cbn [outcomeOf].
  2:{ exists 3%nat, (mkGemini (Some chat) (sent g ++ [p1; p2; p3]) (answer g)).
      split; [|split; [lia|split; [done|split; [done|split]]]].
      - cbn [sent]. by rewrite E3.
      - intros m Hm.
        assert (m = 1 \/ m = 2)%nat as [-> | ->] by lia; by eexists.
      - intros _. exists e3. by rewrite <- E3. }
  set (g3 := mkGemini _ _ _).
  change (executeStep4 keyword language) with (execute Step4 keyword language).
  rewrite (execute_with_session Step4 keyword language chat g3 eq_refl).
  cbv zeta. cbn [sent answer g3]. fold p4. rewrite <- app_assoc. cbn [app].
  exists 4%nat, (mkGemini (Some chat) (sent g ++ [p1; p2; p3; p4]) (answer g)).
      split; [|split; [lia|split; [done|split; [done|split]]]].
  - done.
  - intros m Hm.
    assert (m = 1 \/ m = 2 \/ m = 3)%nat as [-> | [-> | ->]] by lia; by eexists.
  - lia.
Qed.

End ChatFacts.
